(** * MathLive editor: MathField dispatch, typed text, rendering flags,
      and the command-bar suggestions

    A shallow embedding of [src/editor/editor-mathfield.js] and
    [src/editor/editor-commands.js].

    The two files are the glue between the editable math list, the undo
    manager, the shortcut tables and the DOM.  The collaborators whose
    code lives in other modules of the project ([EditableMathlist],
    [Definitions], [Shortcuts], the lexer, the parser, the LaTeX
    serializer) appear here as an interface (a type class) over which the
    functions of the two files are written.  [Module Tex] reads the
    lexer, the parser and the serializer from the specification, and
    [Module SpecModel] gives, also from the specification, a concrete
    instance of the interface, on which the scenarios are run.

    The definitions come first: the command bar ([Module Commands]),
    the model of [MathField], which calls it, [Module Tex],
    [Module SpecModel].  The properties follow. *)

From Stdlib Require Import ZArith Lia Bool Ascii String List Sorted.
From stdpp Require Import base option list strings pretty gmap.

Local Open Scope string_scope.
Local Open Scope list_scope.

(** ** JavaScript values *)

(** The values that travel through selectors, configuration objects and
    the public API.  Numbers are integers or NaN; objects are ordered
    property lists. *)
#[warnings="-register-all"]
Inductive JsValue : Type :=
| JsUndefined
| JsNull
| JsBool (b : bool)
| JsNumber (z : Z)
| JsNaN
| JsString (s : string)
| JsObject (props : list (string * JsValue)).

(** ToBoolean: the falsy values are [undefined], [null], [false], [0],
    [NaN] and the empty string. *)
Definition truthy (v : JsValue) : bool :=
  match v with
  | JsUndefined | JsNull | JsNaN => false
  | JsBool b => b
  | JsNumber z => negb (z =? 0)%Z
  | JsString s => negb (String.eqb s "")
  | JsObject _ => true
  end.

(** Property read [o[k]] on an object value; [undefined] when absent or
    when the receiver is not an object. *)
Fixpoint assoc_get (k : string) (props : list (string * JsValue)) : JsValue :=
  match props with
  | [] => JsUndefined
  | (k', v) :: rest => if String.eqb k k' then v else assoc_get k rest
  end.

Definition js_get (o : JsValue) (k : string) : JsValue :=
  match o with
  | JsObject props => assoc_get k props
  | _ => JsUndefined
  end.

(** Property write [o[k] = v]; a write to a primitive is dropped. *)
Fixpoint assoc_set (k : string) (v : JsValue) (props : list (string * JsValue))
  : list (string * JsValue) :=
  match props with
  | [] => [(k, v)]
  | (k', v') :: rest =>
      if String.eqb k k' then (k, v) :: rest else (k', v') :: assoc_set k v rest
  end.

Definition js_set (o : JsValue) (k : string) (v : JsValue) : JsValue :=
  match o with
  | JsObject props => JsObject (assoc_set k v props)
  | _ => o
  end.

(** ** Completions: a call either returns or throws *)

Inductive Completion (A : Type) : Type :=
| Normal (a : A)
| Throw (e : string).
Arguments Normal {A} a.
Arguments Throw {A} e.

(** ** Methods: state and exceptions *)

(** A method runs on a state [S] and either returns or throws; the state
    it leaves is kept in both cases. *)
Definition StM (S A : Type) : Type := S → Completion A * S.

#[global] Instance StM_ret {S : Type} : MRet (StM S) := λ A a st, (Normal a, st).
#[global] Instance StM_bind {S : Type} : MBind (StM S) := λ A B k m st,
  match m st with
  | (Normal a, st') => k a st'
  | (Throw e, st') => (Throw e, st')
  end.

Definition gets {S A : Type} (f : S → A) : StM S A := λ st, (Normal (f st), st).
Definition modify {S : Type} (f : S → S) : StM S unit := λ st, (Normal tt, f st).
Definition throw {S A : Type} (e : string) : StM S A := λ st, (Throw e, st).
Definition when_ {S : Type} (b : bool) (m : StM S unit) : StM S unit :=
  if b then m else mret tt.

Fixpoint for_each {S A : Type} (l : list A) (body : A → StM S unit) : StM S unit :=
  match l with
  | [] => mret tt
  | a :: rest => body a;; for_each rest body
  end.

(** ** Strings

    A string of JavaScript is a sequence of UTF-16 code units; a [string]
    here holds the UTF-8 bytes of the same text.  A code point takes one
    to four bytes, the first of which tells how many; the bytes that
    follow it are continuation bytes. *)
Definition is_continuation (a : ascii) : bool :=
  let n := nat_of_ascii a in (Nat.leb 128 n && Nat.ltb n 192)%bool.

Definition utf8_width (a : ascii) : nat :=
  let n := nat_of_ascii a in
  if Nat.ltb n 192 then 1 else if Nat.ltb n 224 then 2
  else if Nat.ltb n 240 then 3 else 4.

Definition flush (pending : string) : list string :=
  match pending with
  | EmptyString => []
  | _ => [pending]
  end.

(** The code points of [s], after the bytes [pending] of a code point
    that still expects [expect] continuation bytes.  A byte that is out
    of place stands for itself. *)
Fixpoint code_points (pending : string) (expect : nat) (s : string)
  : list string :=
  match s with
  | EmptyString => flush pending
  | String a rest =>
      if (Nat.ltb 0 expect && is_continuation a)%bool then
        if Nat.eqb expect 1 then
          (pending ++ String a EmptyString)%string :: code_points "" 0 rest
        else code_points (pending ++ String a EmptyString)%string (expect - 1) rest
      else
        flush pending ++
        (if Nat.eqb (utf8_width a) 1 then
           String a EmptyString :: code_points "" 0 rest
         else code_points (String a EmptyString) (utf8_width a - 1) rest)
  end.

(** The characters of a string, each as a string of its own: what
    [for (const c of text)] enumerates, one item per code point. *)
Definition chars (s : string) : list string := code_points "" 0 s.

(** [s.length]: the number of UTF-16 code units, one per code point and
    two for a code point of four bytes. *)
Fixpoint js_length (s : string) : nat :=
  match s with
  | EmptyString => 0
  | String a rest =>
      (if is_continuation a then 0
       else if Nat.eqb (utf8_width a) 4 then 2 else 1) + js_length rest
  end.

Definition is_upper (a : ascii) : bool :=
  let n := nat_of_ascii a in (Nat.leb 65 n && Nat.leb n 90)%bool.
Definition is_lower (a : ascii) : bool :=
  let n := nat_of_ascii a in (Nat.leb 97 n && Nat.leb n 122)%bool.
Definition is_digit (a : ascii) : bool :=
  let n := nat_of_ascii a in (Nat.leb 48 n && Nat.leb n 57)%bool.
Definition is_letter (a : ascii) : bool := (is_upper a || is_lower a)%bool.

Fixpoint string_forall (p : ascii → bool) (s : string) : bool :=
  match s with
  | EmptyString => true
  | String a rest => (p a && string_forall p rest)%bool
  end.

Fixpoint string_exists (p : ascii → bool) (s : string) : bool :=
  match s with
  | EmptyString => false
  | String a rest => (p a || string_exists p rest)%bool
  end.

Definition backslash : ascii := ascii_of_nat 92.

(** The test [/^\\[a-zA-Z\\*]+$/]: a backslash followed by one or more
    letters, backslashes or stars. *)
Definition looks_like_command_name (s : string) : bool :=
  match s with
  | String a (String b rest as tl) =>
      (Ascii.eqb a backslash &&
       string_forall (fun x => is_letter x || Ascii.eqb x backslash
                               || Ascii.eqb x "*"%char) tl)%bool
  | _ => false
  end.

(** [array.includes(s)] on an array of strings. *)
Definition includes (l : list string) (s : string) : bool :=
  existsb (String.eqb s) l.

(** The methods every object inherits from [Object.prototype] whose name
    ends with an underscore.  No argument of a selector is a function:
    [__defineGetter__] and [__defineSetter__] throw a TypeError, and
    [__lookupGetter__] and [__lookupSetter__] return [undefined]. *)
Definition inherited_method {S : Type} (selector : string)
  : option (list JsValue → StM S unit) :=
  if includes ["__defineGetter__"; "__defineSetter__"] selector then
    Some (λ _, throw "TypeError")
  else if includes ["__lookupGetter__"; "__lookupSetter__"] selector then
    Some (λ _, mret tt)
  else None.

(** ** Atoms are objects: identities and per-field stores *)

(** An atom of the expression tree is a JavaScript object.  Its identity
    is a reference; the two presentation fields [hasCaret] and
    [isSelected] that [_render] assigns are kept as one finite map per
    field, indexed by the reference. *)
Abbreviation AtomRef := positive.

(** ** The selector protocol *)

(** A command is either a selector name or an array made of a selector
    name followed by its arguments. *)
Inductive Command : Type :=
| Selector (name : string)
| SelectorWithArgs (name : string) (args : list JsValue).

(** A match returned by [Shortcuts.matchEndOf]. *)
Record ShortcutMatch : Type := mkShortcutMatch {
  sm_match : string;
  substitute : string
}.

(** * The command bar: [editor-commands.js] *)

Module Commands.

(** ** The objects [suggest] receives *)

(** What this module reads of an atom: its [type] and its [value]
    ([None] when the atom has no value). *)
Record AtomObj : Type := mkAtomObj {
  atom_type : string;
  atom_value : option string
}.

(** References to arrays of atoms. *)
Abbreviation ArrRef := positive.

(** The heap: the atoms, the arrays of atoms, and the next free array
    reference.  The arrays of the insertion context ([before],
    [selection], [after]) live here, and so does every array the module
    allocates and returns or passes on. *)
Record Heap : Type := mkHeap {
  atoms : gmap AtomRef AtomObj;
  arrays : gmap ArrRef (list AtomRef);
  next_array : ArrRef
}.

(** The insertion context; [None] is [null]. *)
Record Context : Type := mkContext {
  parsemode : string;
  environment : string;
  modifiers : string;
  parent : option AtomRef;
  before : option ArrRef;
  selection : option ArrRef;
  after : option ArrRef
}.

Local Abbreviation C := (StM Heap).

(** [a[i]], [a.length], the fields of an atom: reading through a
    reference that holds nothing is a TypeError. *)
Definition read_array (r : ArrRef) : C (list AtomRef) := λ h,
  match arrays h !! r with
  | Some l => (Normal l, h)
  | None => (Throw "TypeError", h)
  end.

Definition read_atom (a : AtomRef) : C AtomObj := λ h,
  match atoms h !! a with
  | Some o => (Normal o, h)
  | None => (Throw "TypeError", h)
  end.

(** [[]]: a fresh array. *)
Definition new_array : C ArrRef := λ h,
  (Normal (next_array h),
   mkHeap (atoms h) (<[next_array h := []]> (arrays h)) (Pos.succ (next_array h))).

(** [r.unshift(x)] and [r.push(x)] *)
Definition unshift (r : ArrRef) (x : AtomRef) : C unit :=
  modify (λ h, mkHeap (atoms h) (alter (cons x) r (arrays h)) (next_array h)).

Definition push (r : ArrRef) (x : AtomRef) : C unit :=
  modify (λ h, mkHeap (atoms h) (alter (λ l, l ++ [x]) r (arrays h)) (next_array h)).

(** ** Regular expressions on the value of an atom *)

(** [/^[A-Z]$/], [/^[A-Z0-9]$/], [/^[a-zA-Z]$/] and [/[0-9.]/], each
    applied to [atom.value]; a missing value is tested as the string
    [undefined], which none of them matches. *)
Definition test_single (p : ascii → bool) (v : option string) : bool :=
  match v with
  | Some (String a EmptyString) => p a
  | _ => false
  end.

Definition test_upper : option string → bool := test_single is_upper.
Definition test_upper_or_digit : option string → bool :=
  test_single (λ a, is_upper a || is_digit a).
Definition test_alpha : option string → bool := test_single is_letter.

Definition test_digit_or_dot (v : option string) : bool :=
  match v with
  | Some s => string_exists (λ a, is_digit a || Ascii.eqb a "."%char) s
  | None => false
  end.

(** The zero-width space [U+200B], in UTF-8. *)
Definition zero_width_space : string :=
  String (ascii_of_nat 226) (String (ascii_of_nat 128)
    (String (ascii_of_nat 139) EmptyString)).

(** ** [arg] functions *)

(** The loop of [previousSingleCharOrDigits]: walking [before] from its
    end, the atoms that are digits or dots go to the front of [result]. *)
Fixpoint collect_digits (result : ArrRef) (rev_before : list AtomRef) : C unit :=
  match rev_before with
  | [] => mret tt
  | a :: rest =>
      o ← read_atom a;
      if String.eqb (atom_type o) "mord" && test_digit_or_dot (atom_value o)
      then unshift result a;; collect_digits result rest
      else mret tt
  end.

(** [previousSingleCharOrDigits]; [None] is [undefined]. *)
Definition previousSingleCharOrDigits (ctx : Context) : C (option ArrRef) :=
  sel ← match selection ctx with
        | Some r => l ← read_array r; mret (Some (r, l))
        | None => mret None
        end;
  match sel with
  | Some (r, _ :: _) => mret (Some r)
  | _ =>
      bef ← match before ctx with
            | Some r => l ← read_array r; mret (Some l)
            | None => mret None
            end;
      match bef with
      | Some (x :: xs) =>
          result ← new_array;
          collect_digits result (rev (x :: xs));;
          found ← read_array result;
          when_ (Nat.eqb (length found) 0)
            ((* We didn't find a string of digits, look at the previous
                atom only *)
             push result (List.last (x :: xs) x));;
          mret (Some result)
      | _ => mret None
      end
  end.

(** ** [condition] functions *)

Definition notInCommandMode (ctx : Context) : C bool :=
  mret (negb (bool_decide (is_Some (selection ctx)))
        && negb (String.eqb (parsemode ctx) "command")).

Definition inCommandMode (ctx : Context) : C bool :=
  mret (String.eqb (parsemode ctx) "command").

Definition selectionIsNotEmpty (ctx : Context) : C bool :=
  mret (bool_decide (is_Some (selection ctx))).

(** [array.filter(atom => atom.type === 'mord' && test(atom.value))] *)
Fixpoint filter_mord (test : option string → bool) (l : list AtomRef)
  : C (list AtomRef) :=
  match l with
  | [] => mret []
  | a :: rest =>
      o ← read_atom a;
      kept ← filter_mord test rest;
      mret (if String.eqb (atom_type o) "mord" && test (atom_value o)
            then a :: kept else kept)
  end.

Definition selection_has_single (test : option string → bool) (ctx : Context)
  : C bool :=
  match selection ctx with
  | Some r =>
      l ← read_array r;
      sel ← filter_mord test l;
      mret (Nat.eqb (length sel) 1)
  | None => mret false
  end.

Definition selectionIsSingleUppercaseCharOrDigit : Context → C bool :=
  selection_has_single test_upper_or_digit.

Definition selectionIsSingleUppercaseChar : Context → C bool :=
  selection_has_single test_upper.

Definition selectionIsSingleAlphaChar : Context → C bool :=
  selection_has_single test_alpha.

Definition supsubCandidate (ctx : Context) : C bool :=
  match before ctx with
  | None => mret false
  | Some r =>
      at_root ← match parent ctx with
                | None => mret true
                | Some p => o ← read_atom p; mret (String.eqb (atom_type o) "root")
                end;
      if at_root : bool then
        l ← read_array r;
        match last l with
        | None => throw "TypeError"
        | Some a =>
            atom ← read_atom a;
            mret ((String.eqb (atom_type atom) "mclose"
                   || String.eqb (atom_type atom) "mord")
                  && negb (bool_decide (atom_value atom = Some zero_width_space)))
        end
      else mret false
  end.

(** ** The command table *)

(** A keyboard shortcut: one key combination or an array of them. *)
Inductive Keys : Type :=
| KeyString (k : string)
| KeyList (ks : list string).

Record CommandDesc : Type := mkCommandDesc {
  label : string;
  cls : option string;
  ariaLabel : option string;
  shortcut : option Keys;
  selector : Command;
  utility : Z;
  condition : option (Context → C bool);
  dynamicLabel : option string;
  arg : option (Context → C (option ArrRef))
}.

Definition dquote : string := String (ascii_of_nat 34) EmptyString.

Definition glyph (html aria sel : string) (u : Z)
  (cond : option (Context → C bool)) : CommandDesc :=
  mkCommandDesc html (Some "glyph") (Some aria) (Some (KeyString "none"))
    (Selector sel) u cond None None.

Definition styled (name template : string) (u : Z)
  (cond : Context → C bool) : CommandDesc :=
  mkCommandDesc name None None None
    (SelectorWithArgs "insert" [JsString template]) u (Some cond)
    (Some template) None.

(** [COMMANDS] *)
Definition COMMANDS : list CommandDesc :=
  [ glyph "&#x21e0" "Left" "moveToPreviousChar" 1004 None;
    glyph "&#x21e2" "Right" "moveToNextChar" 1003 None;
    glyph "&#x21e5" "Tab" "moveToNextPlaceholder" 1002 (Some notInCommandMode);
    glyph "&#x232b" "Backspace" "deletePreviousChar" 1001 None;
    mkCommandDesc "Copy as LaTeX" None None
      (Some (KeyList ["mac:Meta-KeyC"; "!mac:Ctrl-KeyC"]))
      (SelectorWithArgs "copyToClipboard" []) 900
      (Some selectionIsNotEmpty) None None;
    styled "Fraktur" "\mathfrak{#0}" 400 selectionIsSingleUppercaseChar;
    styled "Calligraphic" "\mathcal{#0}" 400 selectionIsSingleUppercaseChar;
    styled "Blackboard" "\mathbb{#0}" 500 selectionIsSingleUppercaseChar;
    styled "Script" "\mathscr{#0}" 300 selectionIsSingleUppercaseChar;
    styled "Sans Serif" "\mathsf{#0}" 100 selectionIsSingleUppercaseCharOrDigit;
    styled "Typewriter" "\mathtt{#0}" 100 selectionIsNotEmpty;
    styled "Bold" "\mathbf{#0}" 400 selectionIsNotEmpty;
    mkCommandDesc "Vector" None None None
      (SelectorWithArgs "insert"
         [JsString "\vec{#0}"; JsObject [("selectionMode", JsString "item")]])
      400 (Some selectionIsSingleAlphaChar) (Some "\vec{#0}") None;
    styled "Bar" "\bar{#0}" 300 selectionIsSingleAlphaChar;
    mkCommandDesc "Superscript" None None (Some (KeyString "^"))
      (Selector "moveToSuperscript") 700 (Some supsubCandidate)
      (Some ("#0^\unicode{" +:+ dquote +:+ "2B1A}"))
      (Some previousSingleCharOrDigits);
    mkCommandDesc "Subscript" None None (Some (KeyString "_"))
      (Selector "moveToSubscript") 500 (Some supsubCandidate)
      (Some ("#0_\unicode{" +:+ dquote +:+ "2B1A}"))
      (Some previousSingleCharOrDigits);
    mkCommandDesc "Command" None None (Some (KeyString "\"))
      (Selector "enterCommandMode") 800 (Some notInCommandMode) None None;
    mkCommandDesc "Complete" None None (Some (KeyString "Return"))
      (Selector "complete") 800 (Some inCommandMode) None None ].

(** ** [suggest] *)

(** An entry of the list [suggest] returns. *)
Record Suggestion : Type := mkSuggestion {
  s_label : string;
  s_cls : option string;
  s_ariaLabel : option string;
  s_selector : Command;
  s_utility : Z
}.

(** [result.sort((a, b) => b.utility - a.utility)]: by decreasing
    utility, entries of equal utility keeping their order. *)
Fixpoint insert_by_utility (x : Suggestion) (l : list Suggestion) : list Suggestion :=
  match l with
  | [] => [x]
  | y :: rest =>
      if (s_utility y <=? s_utility x)%Z then x :: y :: rest
      else y :: insert_by_utility x rest
  end.

Definition sort_by_utility (l : list Suggestion) : list Suggestion :=
  foldr insert_by_utility [] l.

Section Suggest.

(** The functions of the modules [Shortcuts], [Lexer], [ParserModule],
    [MathAtom] and [Span], and the method [toLatex] of an atom, as far as
    [suggest] uses them. *)
Variable Shortcuts_getShortcutsForCommand : Command → option Keys.
Variable Shortcuts_stringify : Keys → string.
Variable Atom_toLatex : AtomRef → AtomObj → string.
(* the markup of a template parsed with the LaTeX of its arguments *)
Variable markup_of : string → list string → string.

Fixpoint atoms_toLatex (l : list AtomRef) : C string :=
  match l with
  | [] => mret ""
  | a :: rest =>
      o ← read_atom a;
      tail ← atoms_toLatex rest;
      mret (Atom_toLatex a o +:+ tail)
  end.

(** [latexToMarkup] *)
Definition latexToMarkup (latex : string) (arg : option ArrRef) : C string :=
  args ← match arg with
         | Some r =>
             l ← read_array r;
             match l with
             | [] => mret []
             | _ :: _ =>
                 (* Clone the selection mathlist by converting to LaTeX *)
                 latex ← atoms_toLatex l;
                 mret [latex]
             end
         | None => mret []
         end;
  mret (markup_of latex args).

Definition span_open (cls : string) : string :=
  "<span class=" +:+ dquote +:+ cls +:+ dquote +:+ ">".

(** The context handed to an [arg] function has only the four fields
    [parent], [before], [selection] and [after]. *)
Definition arg_context (ctx : Context) : Context :=
  mkContext "" "" "" (parent ctx) (before ctx) (selection ctx) (after ctx).

(** The body of the loop of [suggest] for one command. *)
Definition suggest_command (ctx : Context) (command : CommandDesc)
  : C (list Suggestion) :=
  ok ← match condition command with
       | None => mret true
       | Some cond => cond ctx
       end;
  if ok : bool then
    let shortcuts :=
      match shortcut command with
      | Some k => Some k
      | None => Shortcuts_getShortcutsForCommand (selector command)
      end in
    let shortcutLabel :=
      match shortcuts with
      | Some (KeyString "none") => ""
      | Some k => Shortcuts_stringify k
      | None => ""
      end in
    lbl ←
      match dynamicLabel command with
      | Some dyn =>
          a ← match arg command with
              | None => mret (selection ctx)
              | Some f => f (arg_context ctx)
              end;
          m ← latexToMarkup dyn a;
          let lbl := span_open "ML__dynamicLabel" +:+ m +:+ "</span>" in
          mret (if String.eqb (label command) "" then lbl
                else lbl +:+ span_open "ML__shortLabel" +:+ label command
                     +:+ span_open "ML__keyboardShortcut" +:+ shortcutLabel
                     +:+ "</span>")
      | None =>
          mret (if String.eqb shortcutLabel "" then label command
                else label command +:+ span_open "ML__keyboardShortcut"
                     +:+ shortcutLabel +:+ "</span>")
      end;
    mret [mkSuggestion lbl (cls command) (ariaLabel command)
            (selector command) (utility command)]
  else mret [].

Fixpoint suggest_loop (ctx : Context) (commands : list CommandDesc)
  : C (list Suggestion) :=
  match commands with
  | [] => mret []
  | command :: rest =>
      entry ← suggest_command ctx command;
      entries ← suggest_loop ctx rest;
      mret (entry ++ entries)
  end.

(** [suggest] *)
Definition suggest (parsemode environment modifiers : string)
  (parent : option AtomRef) (before selection after : option ArrRef)
  : C (list Suggestion) :=
  result ← suggest_loop
    (mkContext parsemode environment modifiers parent before selection after)
    COMMANDS;
  mret (sort_by_utility result).

End Suggest.

(** ** Well-formed heaps and frames *)

(** Every allocated array lies below the next free reference. *)
Definition heap_wf (h : Heap) : Prop :=
  ∀ r, is_Some (arrays h !! r) → (r < next_array h)%positive.

(** The references of a context point to allocated arrays. *)
Definition context_allocated (h : Heap) (before selection after : option ArrRef)
  : Prop :=
  ∀ r, before = Some r ∨ selection = Some r ∨ after = Some r →
       is_Some (arrays h !! r).

(** [h'] has the atoms of [h] and its arrays below [b]. *)
Definition frame (b : ArrRef) (h h' : Heap) : Prop :=
  atoms h' = atoms h ∧
  (∀ r, (r < b)%positive → arrays h' !! r = arrays h !! r) ∧
  (next_array h ≤ next_array h')%positive.

(** Two heaps with the same atoms and the same arrays below [b]. *)
Definition agree (b : ArrRef) (h1 h2 : Heap) : Prop :=
  atoms h1 = atoms h2 ∧
  ∀ r, (r < b)%positive → arrays h1 !! r = arrays h2 !! r.

Definition valid (b : ArrRef) (h : Heap) : Prop :=
  heap_wf h ∧ (b ≤ next_array h)%positive.

(** A computation that only reads, and only atoms and arrays below [b]. *)
Definition reads_below {A : Type} (b : ArrRef) (m : C A) : Prop :=
  (∀ h, snd (m h) = h) ∧
  (∀ h1 h2, agree b h1 h2 → fst (m h1) = fst (m h2)).

(** A computation that leaves the atoms and the arrays below [b] as they
    are, and whose outcome depends on nothing else. *)
Definition good {A : Type} (b : ArrRef) (m : C A) : Prop :=
  ∀ h1 h2, valid b h1 → valid b h2 → agree b h1 h2 →
    fst (m h1) = fst (m h2) ∧
    frame b h1 (snd (m h1)) ∧ heap_wf (snd (m h1)) ∧
    frame b h2 (snd (m h2)) ∧ heap_wf (snd (m h2)).

(** A selection of two atoms, the letter [A] and the operator [+]. *)
Definition heap_A_plus : Heap :=
  mkHeap {[ 1%positive := mkAtomObj "mord" (Some "A");
            2%positive := mkAtomObj "mbin" (Some "+") ]}
         {[ 1%positive := [1%positive; 2%positive] ]}
         2%positive.

(** A selection of two atoms, the letters [A] and [B]. *)
Definition heap_A_B : Heap :=
  mkHeap {[ 1%positive := mkAtomObj "mord" (Some "A");
            2%positive := mkAtomObj "mord" (Some "B") ]}
         {[ 1%positive := [1%positive; 2%positive] ]}
         2%positive.

(** The selector of the command [Blackboard]. *)
Definition blackboard_selector : Command :=
  SelectorWithArgs "insert" [JsString "\mathbb{#0}"].

(** What the loop of [previousSingleCharOrDigits] takes from the end of
    [before], and how it ends. *)
Fixpoint digits_run (A : gmap AtomRef AtomObj) (rev_before : list AtomRef)
  : list AtomRef * Completion unit :=
  match rev_before with
  | [] => ([], Normal tt)
  | a :: rest =>
      match A !! a with
      | None => ([], Throw "TypeError")
      | Some o =>
          if String.eqb (atom_type o) "mord" && test_digit_or_dot (atom_value o)
          then let '(t, c) := digits_run A rest in (t ++ [a], c)
          else ([], Normal tt)
      end
  end.

(** The array [previousSingleCharOrDigits] builds from a non-empty
    [before]. *)
Definition digits_or_last (A : gmap AtomRef AtomObj) (x : AtomRef)
  (xs : list AtomRef) : list AtomRef :=
  match fst (digits_run A (rev (x :: xs))) with
  | [] => [List.last (x :: xs) x]
  | t => t
  end.

(** The references of a context lie below [b]. *)
Definition context_below (b : ArrRef) (ctx : Context) : Prop :=
  ∀ r, before ctx = Some r ∨ selection ctx = Some r → (r < b)%positive.

(** The condition of a command holds in a heap. *)
Definition enabled (ctx : Context) (command : CommandDesc) (h : Heap) : Prop :=
  match condition command with
  | None => True
  | Some cond => fst (cond ctx h) = Normal true
  end.

(** The test [selectionIsSingleUppercaseChar] applies to each atom of the
    selection. *)
Definition uppercase_mord (o : AtomObj) : bool :=
  String.eqb (atom_type o) "mord" && test_upper (atom_value o).

(** A reading of the functions [suggest] takes from the other modules:
    no shortcut is registered, and the markup of a template is the
    template followed by the LaTeX of its arguments. *)
Definition no_shortcut (c : Command) : option Keys := None.
Definition stringify_keys (k : Keys) : string :=
  match k with
  | KeyString s => s
  | KeyList ks => String.concat " " ks
  end.
Definition value_toLatex (a : AtomRef) (o : AtomObj) : string :=
  match atom_value o with Some v => v | None => "" end.
Definition template_markup (template : string) (args : list string) : string :=
  String.concat " " (template :: args).

End Commands.

(** ** The collaborators of [MathField] *)

(** [ML] is the state of an [EditableMathlist]: the tree under its root
    together with the current selection.  [Frag] is a parsed math list
    (the result of [ParserModule.parseTokens]). *)
Class Collaborators (ML Frag : Type) : Type := {
  (* EditableMathlist: queries *)
  parseMode : ML → string;
  extractGroupStringBeforeInsertionPoint : ML → string;
  extractCommandStringAroundInsertionPoint : ML → string;
  isCollapsed : ML → bool;
  contains : ML → AtomRef → bool;
  anchor : ML → AtomRef;
  (* [root.forEach]: the atoms of the tree, in traversal order *)
  root_forEach : ML → list AtomRef;
  (* [root.toLatex()] *)
  root_toLatex : ML → string;
  (* EditableMathlist: mutations *)
  decorateCommandStringAroundInsertionPoint : bool → ML → ML;
  removeSuggestion : ML → ML;
  insert : JsValue → JsValue → ML → ML;
  insertSuggestion : string → Z → ML → ML;
  delete : Z → ML → ML;
  spliceCommandStringAroundInsertionPoint : option Frag → ML → ML;
  positionInsertionPointAfterCommitedCommand : ML → ML;
  (* [typeof this.mathlist[selector] === 'function'], and the call *)
  mathlist_method :
    string → option (list JsValue → ML → Completion unit * ML);
  (* Definitions *)
  Definitions_suggest : string → list string;
  Definitions_matchFunction : string → string → option string;
  Definitions_matchSymbol : string → string → option string;
  (* ParserModule.parseTokens(Lexer.tokenize(s), mode, null) *)
  parse_latex : string → string → option Frag;
  (* Shortcuts *)
  Shortcuts_matchEndOf : string → gmap string JsValue → option ShortcutMatch;
  (* decompose, Span and toMarkup: the markup of the rendered field *)
  field_markup : ML → gmap AtomRef bool → gmap AtomRef bool → bool → string;
  popover_template : string → bool → string
}.

(** What [_updateCommandBar] hands to [Commands.suggest], and the
    functions of other modules [suggest] calls: the atoms of the tree as
    objects, in a heap that also holds the arrays
    [extractGroupBeforeSelection()], [extractContents()] and
    [extractGroupAfterSelection()] return ([None] is [null]), and
    [this.mathlist.parent()]. *)
Class CommandBar (ML : Type) : Type := {
  getShortcutsForCommand : Command → option Commands.Keys;
  stringify : Commands.Keys → string;
  toLatex_of : AtomRef → Commands.AtomObj → string;
  template_markup_of : string → list string → string;
  atoms_heap : ML → Commands.Heap;
  mathlist_parent : ML → option AtomRef;
  extractGroupBeforeSelection : ML → option Commands.ArrRef;
  extractContents : ML → option Commands.ArrRef;
  extractGroupAfterSelection : ML → option Commands.ArrRef
}.

(** ** Events *)

(** Ghost trace of the calls a [MathField] makes to its collaborators and
    to the DOM, in program order. *)
Inductive Event : Type :=
| EvShowKeystroke (c : string)
| EvMatchEndOf (text : string)
| EvSnapshot
| EvUndo
| EvRedo
| EvMathlist (method : string)
| EvRender
| EvExecCommand (name : string)
| EvTextareaSelect
| EvUpdateCommandBar
| EvAppendButton (label : string) (cls ariaLabel : option string)
                 (selector : Command).

Section MathFieldModel.

Context {ML Frag : Type} `{!Collaborators ML Frag} `{!CommandBar ML}.

(** ** The undo manager *)

(** Modelled from the spec: [Undo.UndoManager] (module [editor-undo]) is
    not part of the two files.  Section 4.6: a bounded, linear stack of
    snapshots with a cursor; [snapshot] pushes the current state and
    truncates the history beyond the cursor; [undo] and [redo] move the
    cursor and replace the live state with the snapshot at the cursor.
    The editor takes its snapshots before it mutates, so the snapshot
    [undo] restores is the one just below the cursor; the state it
    replaces is kept in that slot for [redo]. *)
Record UndoManager : Type := mkUndoManager {
  um_stack : list ML;
  um_index : nat;
  maximumDepth : nat
}.

Definition um_snapshot (um : UndoManager) (ml : ML) : UndoManager :=
  let s := take (um_index um) (um_stack um) ++ [ml] in
  let s' := drop (length s - maximumDepth um) s in
  {| um_stack := s'; um_index := length s'; maximumDepth := maximumDepth um |}.

Definition um_undo (um : UndoManager) (ml : ML) : UndoManager * ML :=
  match um_index um with
  | O => (um, ml)
  | S i =>
      match um_stack um !! i with
      | Some snap =>
          ({| um_stack := <[i := ml]> (um_stack um); um_index := i;
              maximumDepth := maximumDepth um |}, snap)
      | None => (um, ml)
      end
  end.

Definition um_redo (um : UndoManager) (ml : ML) : UndoManager * ML :=
  match um_stack um !! um_index um with
  | Some snap =>
      ({| um_stack := <[um_index um := ml]> (um_stack um);
          um_index := S (um_index um);
          maximumDepth := maximumDepth um |}, snap)
  | None => (um, ml)
  end.

(** ** The state of a MathField *)

(** The part of the DOM a [MathField] reads and writes. *)
Record Dom : Type := mkDom {
  (* document.hasFocus() && document.activeElement === this.textarea *)
  textarea_focused : bool;
  (* this.popover.classList.contains('ML__popover_visible') *)
  popover_visible : bool;
  popover_innerHTML : string;
  (* this.commandBar.style.visibility === 'visible' *)
  commandBar_shown : bool;
  field_innerHTML : string
}.

Record MathField : Type := mkMathField {
  config : gmap string JsValue;
  mathlist : ML;
  undoManager : UndoManager;
  suggestionIndex : Z;
  pasteInProgress : bool;
  keystrokeCaptionVisible : bool;
  commandBarVisible : bool;
  blurred : bool;
  (* the fields [hasCaret] and [isSelected] of the atoms *)
  hasCaret : gmap AtomRef bool;
  isSelected : gmap AtomRef bool;
  dom : Dom;
  trace : list Event
}.

Definition set_config (v : gmap string JsValue) (f : MathField) : MathField :=
  mkMathField v (mathlist f) (undoManager f) (suggestionIndex f)
    (pasteInProgress f) (keystrokeCaptionVisible f) (commandBarVisible f)
    (blurred f) (hasCaret f) (isSelected f) (dom f) (trace f).
Definition set_mathlist (v : ML) (f : MathField) : MathField :=
  mkMathField (config f) v (undoManager f) (suggestionIndex f)
    (pasteInProgress f) (keystrokeCaptionVisible f) (commandBarVisible f)
    (blurred f) (hasCaret f) (isSelected f) (dom f) (trace f).
Definition set_undoManager (v : UndoManager) (f : MathField) : MathField :=
  mkMathField (config f) (mathlist f) v (suggestionIndex f)
    (pasteInProgress f) (keystrokeCaptionVisible f) (commandBarVisible f)
    (blurred f) (hasCaret f) (isSelected f) (dom f) (trace f).
Definition set_suggestionIndex (v : Z) (f : MathField) : MathField :=
  mkMathField (config f) (mathlist f) (undoManager f) v
    (pasteInProgress f) (keystrokeCaptionVisible f) (commandBarVisible f)
    (blurred f) (hasCaret f) (isSelected f) (dom f) (trace f).
Definition set_pasteInProgress (v : bool) (f : MathField) : MathField :=
  mkMathField (config f) (mathlist f) (undoManager f) (suggestionIndex f)
    v (keystrokeCaptionVisible f) (commandBarVisible f)
    (blurred f) (hasCaret f) (isSelected f) (dom f) (trace f).
Definition set_keystrokeCaptionVisible (v : bool) (f : MathField) : MathField :=
  mkMathField (config f) (mathlist f) (undoManager f) (suggestionIndex f)
    (pasteInProgress f) v (commandBarVisible f)
    (blurred f) (hasCaret f) (isSelected f) (dom f) (trace f).
Definition set_commandBarVisible (v : bool) (f : MathField) : MathField :=
  mkMathField (config f) (mathlist f) (undoManager f) (suggestionIndex f)
    (pasteInProgress f) (keystrokeCaptionVisible f) v
    (blurred f) (hasCaret f) (isSelected f) (dom f) (trace f).
Definition set_hasCaret (v : gmap AtomRef bool) (f : MathField) : MathField :=
  mkMathField (config f) (mathlist f) (undoManager f) (suggestionIndex f)
    (pasteInProgress f) (keystrokeCaptionVisible f) (commandBarVisible f)
    (blurred f) v (isSelected f) (dom f) (trace f).
Definition set_isSelected (v : gmap AtomRef bool) (f : MathField) : MathField :=
  mkMathField (config f) (mathlist f) (undoManager f) (suggestionIndex f)
    (pasteInProgress f) (keystrokeCaptionVisible f) (commandBarVisible f)
    (blurred f) (hasCaret f) v (dom f) (trace f).
Definition set_dom (v : Dom) (f : MathField) : MathField :=
  mkMathField (config f) (mathlist f) (undoManager f) (suggestionIndex f)
    (pasteInProgress f) (keystrokeCaptionVisible f) (commandBarVisible f)
    (blurred f) (hasCaret f) (isSelected f) v (trace f).
Definition set_trace (v : list Event) (f : MathField) : MathField :=
  mkMathField (config f) (mathlist f) (undoManager f) (suggestionIndex f)
    (pasteInProgress f) (keystrokeCaptionVisible f) (commandBarVisible f)
    (blurred f) (hasCaret f) (isSelected f) (dom f) v.

(** The monad of the methods of a field. *)
Local Abbreviation M := (StM MathField).

Definition log (e : Event) : M unit := modify (λ st, set_trace (trace st ++ [e]) st).

(** A call [this.mathlist.<method>(...)] of a mutating method. *)
Definition on_mathlist (method : string) (f : ML → ML) : M unit :=
  log (EvMathlist method);;
  modify (λ st, set_mathlist (f (mathlist st)) st).

(** [this.undoManager.snapshot()], [.undo()] and [.redo()]. *)
Definition undoManager_snapshot : M unit :=
  log EvSnapshot;;
  modify (λ st, set_undoManager (um_snapshot (undoManager st) (mathlist st)) st).

Definition undoManager_undo : M unit :=
  log EvUndo;;
  modify (λ st, let '(um, ml) := um_undo (undoManager st) (mathlist st) in
                set_mathlist ml (set_undoManager um st)).

Definition undoManager_redo : M unit :=
  log EvRedo;;
  modify (λ st, let '(um, ml) := um_redo (undoManager st) (mathlist st) in
                set_mathlist ml (set_undoManager um st)).

(** ** DOM helpers *)

Definition set_popover (vis : bool) (html : string) (d : Dom) : Dom :=
  mkDom (textarea_focused d) vis html (commandBar_shown d) (field_innerHTML d).
Definition set_commandBar_shown (v : bool) (d : Dom) : Dom :=
  mkDom (textarea_focused d) (popover_visible d) (popover_innerHTML d) v
    (field_innerHTML d).
Definition set_field_innerHTML (v : string) (d : Dom) : Dom :=
  mkDom (textarea_focused d) (popover_visible d) (popover_innerHTML d)
    (commandBar_shown d) v.

(** [MathField.prototype.hasFocus] *)
Definition hasFocus : M bool := gets (λ st, textarea_focused (dom st)).

(** [scrollIntoView_], [scrollToStart_], [scrollToEnd_]: empty bodies. *)
Definition scrollIntoView_ : M unit := mret tt.
Definition scrollToStart_ : M unit := mret tt.
Definition scrollToEnd_ : M unit := mret tt.

(** [MathField.prototype._showKeystroke] *)
Definition _showKeystroke (keystroke : string) : M unit :=
  visible ← gets keystrokeCaptionVisible;
  when_ visible (log (EvShowKeystroke keystroke)).

(** [MathField.prototype._hidePopover] *)
Definition _hidePopover : M unit :=
  modify (λ st, set_dom (set_popover false (popover_innerHTML (dom st)) (dom st)) st);;
  barVisible ← gets commandBarVisible;
  when_ barVisible (modify (λ st, set_dom (set_commandBar_shown true (dom st)) st)).

(** [MathField.prototype._showPopover] *)
Definition _showPopover (markup : string) : M unit :=
  shown ← gets (λ st, commandBar_shown (dom st));
  when_ shown (modify (λ st, set_dom (set_commandBar_shown false (dom st)) st));;
  modify (λ st, set_dom (set_popover true markup (dom st)) st).

(** [MathField.prototype._showPopoverWithLatex] *)
Definition _showPopoverWithLatex (latex : option string) (displayArrows : bool)
  : M unit :=
  match latex with
  | None => _hidePopover
  | Some l =>
      if String.eqb l "" then _hidePopover
      else _showPopover (popover_template l displayArrows)
  end.

(** ** [_render]: the flags, then the markup *)

(** The callback of [root.forEach] in [_render]:
    [a.hasCaret = false; a.isSelected = this.mathlist.contains(a)]. *)
Definition update_flags (a : AtomRef) : M unit :=
  modify (λ st, set_hasCaret (<[a := false]> (hasCaret st)) st);;
  modify (λ st, set_isSelected
                  (<[a := contains (mathlist st) a]> (isSelected st)) st).

(** [MathField.prototype._render] *)
Definition _render : M unit :=
  log EvRender;;
  (* 1. Update selection state and blinking cursor (caret) *)
  atoms ← gets (λ st, root_forEach (mathlist st));
  for_each atoms update_flags;;
  focused ← hasFocus;
  collapsed ← gets (λ st, isCollapsed (mathlist st));
  when_ (focused && collapsed)
    (modify (λ st, set_hasCaret (<[anchor (mathlist st) := true]> (hasCaret st)) st));;
  (* 2-5. Spans, struts, markup *)
  modify (λ st, set_dom (set_field_innerHTML
            (field_markup (mathlist st) (hasCaret st) (isSelected st) focused)
            (dom st)) st);;
  (* 6. *)
  scrollIntoView_.

(** ** Typed text *)

(** The body of the loop [for (const c of text)] of [_onTypedText]; the
    two locals [popoverText] and [displayArrows] are threaded through. *)
Definition _onTypedText_char (c : string) (locals : option string * bool)
  : M (option string * bool) :=
  let '(popoverText, displayArrows) := locals in
  _showKeystroke c;;
  (* Inline shortcuts only apply in `math` parseMode *)
  mode ← gets (λ st, parseMode (mathlist st));
  shortcut ←
    (if String.eqb mode "math" then
       prefix ← gets (λ st, extractGroupStringBeforeInsertionPoint (mathlist st));
       log (EvMatchEndOf (prefix +:+ c));;
       gets (λ st, Shortcuts_matchEndOf (prefix +:+ c) (config st))
     else mret None);
  mode ← gets (λ st, parseMode (mathlist st));
  if String.eqb mode "command" then
    on_mathlist "removeSuggestion" removeSuggestion;;
    modify (set_suggestionIndex 0%Z);;
    command ← gets (λ st, extractCommandStringAroundInsertionPoint (mathlist st));
    let suggestions := Definitions_suggest (command +:+ c) in
    let displayArrows := Nat.ltb 1 (length suggestions) in
    match suggestions with
    | [] =>
        on_mathlist "insert" (insert (JsString c) JsUndefined);;
        when_ (looks_like_command_name (command +:+ c))
          (on_mathlist "decorateCommandStringAroundInsertionPoint"
             (decorateCommandStringAroundInsertionPoint true));;
        _hidePopover;;
        mret (popoverText, displayArrows)
    | first :: _ =>
        on_mathlist "insert" (insert (JsString c) JsUndefined);;
        when_ (negb (String.eqb first (command +:+ c)))
          (on_mathlist "insertSuggestion"
             (insertSuggestion first
                (- Z.of_nat (js_length first)
                 + Z.of_nat (js_length command) + 1)%Z));;
        mret (Some first, displayArrows)
    end
  else
    match shortcut with
    | Some sc =>
        (* Insert the character before applying the substitution *)
        on_mathlist "insert" (insert (JsString c) JsUndefined);;
        (* Create a snapshot with the inserted character *)
        undoManager_snapshot;;
        (* Remove the characters we're replacing *)
        on_mathlist "delete"
          (delete (- Z.of_nat (js_length (sm_match sc)) - 1)%Z);;
        (* Insert the substitute *)
        on_mathlist "insert" (insert (JsString (substitute sc)) JsUndefined);;
        mret (popoverText, displayArrows)
    | None =>
        undoManager_snapshot;;
        on_mathlist "insert" (insert (JsString c) JsUndefined);;
        mret (popoverText, displayArrows)
    end.

Fixpoint _onTypedText_loop (cs : list string) (locals : option string * bool)
  : M (option string * bool) :=
  match cs with
  | [] => mret locals
  | c :: rest =>
      locals' ← _onTypedText_char c locals;
      _onTypedText_loop rest locals'
  end.

(** [MathField.prototype._onTypedText] *)
Definition _onTypedText (text : string) : M unit :=
  (* Remove any error indicator on the current command sequence *)
  on_mathlist "decorateCommandStringAroundInsertionPoint"
    (decorateCommandStringAroundInsertionPoint false);;
  pasting ← gets pasteInProgress;
  locals ←
    (if pasting : bool then
       modify (set_pasteInProgress false);;
       on_mathlist "insert" (insert (JsString text) JsUndefined);;
       mret (@None string, false)
     else _onTypedText_loop (chars text) (None, false));
  (* Render the mathlist *)
  _render;;
  _showPopoverWithLatex (fst locals) (snd locals).

(** [MathField.prototype.typedText]: the public entry point. *)
Definition typedText (text : string) : M unit := _onTypedText text.

(** ** The selectors implemented by [MathField] itself *)

(** [MathField.prototype.undo_] and [redo_] *)
Definition undo_ : M unit := undoManager_undo.
Definition redo_ : M unit := undoManager_redo.

(** [MathField.prototype.enterCommandMode_] *)
Definition enterCommandMode_ : M unit :=
  on_mathlist "decorateCommandStringAroundInsertionPoint"
    (decorateCommandStringAroundInsertionPoint false);;
  on_mathlist "removeSuggestion" removeSuggestion;;
  _hidePopover;;
  modify (set_suggestionIndex 0%Z);;
  undoManager_snapshot;;
  on_mathlist "insert" (insert (JsString "'") JsUndefined).

(** [copyToClipboard_], [cutToClipboard_], [pasteFromClipboard_] *)
Definition copyToClipboard_ : M unit := log (EvExecCommand "copy").
Definition cutToClipboard_ : M unit := log (EvExecCommand "cut").
Definition pasteFromClipboard_ : M unit := log (EvExecCommand "paste").

(** [MathField.prototype.insert_] (also [insert] and [write]);
    [latex.length > 0] says the string is not empty, in whatever unit
    the length is counted. *)
Definition insert_ (latex options : JsValue) : M unit :=
  match latex with
  | JsString l =>
      if Nat.ltb 0 (String.length l) then
        let options := if truthy options then options else JsObject [] in
        let options :=
          if truthy (js_get options "format") then options
          else js_set options "format" (JsString "auto") in
        on_mathlist "insert" (insert latex options)
      else mret tt
  | _ => mret tt
  end.

(** [MathField.prototype.complete_] *)
Definition complete_ : M unit :=
  _hidePopover;;
  command ← gets (λ st, extractCommandStringAroundInsertionPoint (mathlist st));
  if negb (String.eqb command "") then
    let mode := "math" in
    let match_ :=
      match Definitions_matchFunction mode command with
      | Some m => Some m
      | None => Definitions_matchSymbol mode command
      end in
    match match_ with
    | Some latexName =>
        on_mathlist "spliceCommandStringAroundInsertionPoint"
          (spliceCommandStringAroundInsertionPoint (parse_latex latexName mode))
    | None =>
        (* This wasn't a simple function or symbol.
           Interpret the input as LaTeX code *)
        match parse_latex command mode with
        | Some parsed =>
            on_mathlist "spliceCommandStringAroundInsertionPoint"
              (spliceCommandStringAroundInsertionPoint (Some parsed))
        | None =>
            on_mathlist "decorateCommandStringAroundInsertionPoint"
              (decorateCommandStringAroundInsertionPoint true)
        end
    end
  else mret tt.

(** [MathField.prototype._updateSuggestion].  The remainder [%] keeps the
    sign of [suggestionIndex]; reading [.match] of a missing array element
    is a TypeError. *)
Definition _updateSuggestion : M unit :=
  on_mathlist "positionInsertionPointAfterCommitedCommand"
    positionInsertionPointAfterCommitedCommand;;
  on_mathlist "removeSuggestion" removeSuggestion;;
  command ← gets (λ st, extractCommandStringAroundInsertionPoint (mathlist st));
  let suggestions := Definitions_suggest command in
  (if Nat.eqb (length suggestions) 0 then
     _hidePopover;;
     on_mathlist "decorateCommandStringAroundInsertionPoint"
       (decorateCommandStringAroundInsertionPoint true)
   else
     i ← gets suggestionIndex;
     let index := Z.rem i (Z.of_nat (length suggestions)) in
     match (if (index <? 0)%Z then None else suggestions !! Z.to_nat index) with
     | None => throw "TypeError"
     | Some m =>
         let l := (Z.of_nat (js_length command)
                   - Z.of_nat (js_length m))%Z in
         when_ (negb (l =? 0)%Z)
           (on_mathlist "insertSuggestion" (insertSuggestion m l));;
         _showPopoverWithLatex (Some m) (Nat.ltb 1 (length suggestions))
     end);;
  _render.

(** [nextSuggestion_] and [previousSuggestion_] *)
Definition nextSuggestion_ : M unit :=
  modify (λ st, set_suggestionIndex (suggestionIndex st + 1)%Z st);;
  _updateSuggestion.

Definition previousSuggestion_ : M unit :=
  modify (λ st, set_suggestionIndex (suggestionIndex st - 1)%Z st);;
  i ← gets suggestionIndex;
  when_ (i <? 0)%Z
    (on_mathlist "removeSuggestion" removeSuggestion;;
     command ← gets (λ st, extractCommandStringAroundInsertionPoint (mathlist st));
     let suggestions := Definitions_suggest command in
     modify (set_suggestionIndex (Z.of_nat (length suggestions) - 1)%Z));;
  _updateSuggestion.

(** [MathField.prototype.toggleKeystrokeCaption_] *)
Definition toggleKeystrokeCaption_ : M unit :=
  modify (λ st, set_keystrokeCaptionVisible (negb (keystrokeCaptionVisible st)) st).

(** [MathField.prototype.focus] *)
Definition focus : M unit :=
  focused ← hasFocus;
  when_ (negb focused) (log EvTextareaSelect;; _render).

(** A call into another module of the two files, which returns or
    throws and leaves the field as it is. *)
Definition call {A : Type} (c : Completion A) : M A := λ st, (c, st).

(** [MathField.prototype._makeButton], with [_attachButtonHandlers], and
    [this.commandButtons.appendChild(button)]: the button holds the
    label, the classes, the ARIA label and the command. *)
Definition _makeButton (s : Commands.Suggestion) : M unit :=
  log (EvAppendButton (Commands.s_label s) (Commands.s_cls s)
         (Commands.s_ariaLabel s) (Commands.s_selector s)).

(** [MathField.prototype._updateCommandBar].  [EvUpdateCommandBar] is
    [this.commandButtons.textContent = '']; the arrays [suggest]
    allocates are not reachable once it has returned, and the heap it
    leaves is dropped. *)
Definition _updateCommandBar : M unit :=
  b ← gets blurred;
  v ← gets commandBarVisible;
  if negb b && v then
    log EvTextareaSelect;;
    modify (λ st, set_dom (set_commandBar_shown true (dom st)) st);;
    log EvUpdateCommandBar;;
    ml ← gets mathlist;
    commands ← call (fst (Commands.suggest getShortcutsForCommand stringify
                            toLatex_of template_markup_of
                            (parseMode ml) "" "" (mathlist_parent ml)
                            (extractGroupBeforeSelection ml)
                            (extractContents ml)
                            (extractGroupAfterSelection ml)
                            (atoms_heap ml)));
    for_each commands _makeButton
  else
    modify (λ st, set_dom (set_commandBar_shown false (dom st)) st).

(** [MathField.prototype.toggleCommandBar_] *)
Definition toggleCommandBar_ : M unit :=
  modify (λ st, set_commandBarVisible (negb (commandBarVisible st)) st);;
  v ← gets commandBarVisible;
  when_ v focus;;
  _updateCommandBar.

Definition arg (i : nat) (args : list JsValue) : JsValue :=
  nth i args JsUndefined.

(** [typeof this[selector] === 'function'], and the call
    [this[selector](...args)]: the methods of [MathField.prototype] whose
    name ends with an underscore, and those every object inherits. *)
Definition own_method (selector : string) : option (list JsValue → M unit) :=
  if String.eqb selector "undo_" then Some (λ _, undo_)
  else if String.eqb selector "redo_" then Some (λ _, redo_)
  else if String.eqb selector "scrollIntoView_" then Some (λ _, scrollIntoView_)
  else if String.eqb selector "scrollToStart_" then Some (λ _, scrollToStart_)
  else if String.eqb selector "scrollToEnd_" then Some (λ _, scrollToEnd_)
  else if String.eqb selector "enterCommandMode_" then Some (λ _, enterCommandMode_)
  else if String.eqb selector "copyToClipboard_" then Some (λ _, copyToClipboard_)
  else if String.eqb selector "cutToClipboard_" then Some (λ _, cutToClipboard_)
  else if String.eqb selector "pasteFromClipboard_" then Some (λ _, pasteFromClipboard_)
  else if String.eqb selector "insert_" then
    Some (λ args, insert_ (arg 0 args) (arg 1 args))
  else if String.eqb selector "complete_" then Some (λ _, complete_)
  else if String.eqb selector "nextSuggestion_" then Some (λ _, nextSuggestion_)
  else if String.eqb selector "previousSuggestion_" then Some (λ _, previousSuggestion_)
  else if String.eqb selector "toggleKeystrokeCaption_" then
    Some (λ _, toggleKeystrokeCaption_)
  else if String.eqb selector "toggleCommandBar_" then Some (λ _, toggleCommandBar_)
  else inherited_method selector.

(** ** [perform] *)

(** The selectors before which [perform] takes an undo snapshot. *)
Definition delete_family : list string :=
  ["delete_"; "transpose_"; "deleteToMathFieldEnd_";
   "deleteToGroupEnd_"; "deleteToGroupStart_"; "deletePreviousWord_";
   "deleteNextWord_"; "deletePreviousChar_"; "deleteNextChar_"].

(** The call [this.mathlist[selector](...args)]. *)
Definition call_mathlist (selector : string)
  (m : list JsValue → ML → Completion unit * ML) (args : list JsValue) : M unit :=
  log (EvMathlist selector);;
  ((λ st, let '(r, ml) := m args (mathlist st) in (r, set_mathlist ml st))
   : M unit).

(** The selector [perform] dispatches on, and the arguments it passes. *)
Definition selector_of (command : Command) : string :=
  match command with
  | Selector c => c +:+ "_"
  | SelectorWithArgs c _ => c +:+ "_"
  end.

Definition args_of (command : Command) : list JsValue :=
  match command with
  | Selector _ => []
  | SelectorWithArgs _ a => a
  end.

(** [MathField.prototype.perform] *)
Definition perform (command : Command) : M bool :=
  let selector := selector_of command in
  let args := args_of command in
  result ←
    match mathlist_method selector with
    | Some m =>
        when_ (includes delete_family selector) undoManager_snapshot;;
        call_mathlist selector m args;;
        mret true
    | None =>
        match own_method selector with
        | Some m =>
            when_ (includes ["complete_"] selector) undoManager_snapshot;;
            m args;;
            mret true
        | None => mret false
        end
    end;
  when_ result
    ((* Render the mathlist *)
     _render;;
     scrollIntoView_);;
  mret result.

(** ** The public API *)

(** [MathField.prototype.latex] *)
Definition latex (text : JsValue) : M string :=
  when_ (truthy text)
    (undoManager_snapshot;;
     on_mathlist "insert"
       (insert text (JsObject [("insertionMode", JsString "replaceAll");
                               ("format", JsString "latex")]));;
     _render);;
  (* Return the content as LaTeX *)
  gets (λ st, root_toLatex (mathlist st)).

(** [MathField.prototype.config]: the defaults, overwritten by the own
    properties of the argument. *)
Definition default_config : gmap string JsValue :=
  {[ "spacesBehavesLikeTab" := JsBool false ]}.

Definition make_config (config : gmap string JsValue) : gmap string JsValue :=
  config ∪ default_config.

End MathFieldModel.


(** * LaTeX source: tokens, atoms, parser and serializer *)

(** Modelled from the spec: the modules [core/lexer], [core/parser],
    [core/mathAtom] and [addons/outputLatex] are not part of the two
    files.  The lexer follows section 4.1, the parser section 4.2, the
    atoms section 3; the serializer writes an atom as the parser reads
    it, with every argument and every script in braces (scenario 1 of
    section 8: [x^2+1] is written [x^{2}+1]). *)
Module Tex.

(** ** Tokens and the lexer *)

(** Modelled from the spec: section 4.1, the kinds of tokens: a control
    sequence, a character, the two grouping marks, the two script marks
    and the alignment mark.  The end of the input is the end of the
    list. *)
Inductive Token : Type :=
| TCommand (name : string)
| TChar (c : ascii)
| TOpen
| TClose
| TSup
| TSub
| TAlign.

Definition is_space (c : ascii) : bool :=
  let n := nat_of_ascii c in
  (Nat.eqb n 32 || Nat.eqb n 9 || Nat.eqb n 10 || Nat.eqb n 13)%bool.

(** The lexer is outside a control sequence, just after a backslash, or
    inside the letters of a control word. *)
Inductive LexState : Type :=
| LNormal
| LBackslash
| LWord (acc : string).

(** One character read outside a control sequence; whitespace is
    dropped. *)
Definition lex_char (c : ascii) : option Token :=
  if is_space c then None
  else if Ascii.eqb c "{" then Some TOpen
  else if Ascii.eqb c "}" then Some TClose
  else if Ascii.eqb c "^" then Some TSup
  else if Ascii.eqb c "_" then Some TSub
  else if Ascii.eqb c "&" then Some TAlign
  else Some (TChar c).

(** The number of groups still open. *)
Definition depth_after (depth : nat) (t : option Token) : nat :=
  match t with
  | Some TOpen => S depth
  | Some TClose => pred depth
  | _ => depth
  end.

Definition emit (t : option Token) (ts : list Token) : list Token :=
  match t with Some t => t :: ts | None => ts end.

(** Modelled from the spec: section 4.1.  A control sequence is a
    backslash followed by letters, or by a single character that is not
    a letter; whitespace outside control sequences separates and is
    dropped; at the end of the input every group still open gets an
    implicit close. *)
Fixpoint lex (st : LexState) (depth : nat) (s : string) : list Token :=
  match s with
  | EmptyString =>
      match st with
      | LNormal => []
      | LBackslash => [TCommand ""]
      | LWord acc => [TCommand acc]
      end ++ repeat TClose depth
  | String c rest =>
      let normal :=
        if Ascii.eqb c backslash then lex LBackslash depth rest
        else emit (lex_char c) (lex LNormal (depth_after depth (lex_char c)) rest) in
      match st with
      | LNormal => normal
      | LBackslash =>
          if is_letter c then lex (LWord (String c EmptyString)) depth rest
          else TCommand (String c EmptyString) :: lex LNormal depth rest
      | LWord acc =>
          if is_letter c then lex (LWord (acc +:+ String c EmptyString)) depth rest
          else TCommand acc :: normal
      end
  end.

(** Modelled from the spec: section 4.1, [tokenize(source)]. *)
Definition tokenize (source : string) : list Token := lex LNormal 0 source.

(** ** Writing tokens *)

Definition is_word (name : string) : bool :=
  match name with
  | EmptyString => false
  | _ => string_forall is_letter name
  end.

Definition starts_with_letter (ts : list Token) : bool :=
  match ts with
  | TChar c :: _ => is_letter c
  | _ => false
  end.

(** Modelled from the spec: section 6, the source text of a list of
    tokens; a control word is separated by a space from a letter that
    follows. *)
Fixpoint render (ts : list Token) : string :=
  match ts with
  | [] => ""
  | TCommand name :: rest =>
      String backslash name +:+
      (if is_word name && starts_with_letter rest then " " else "") +:+ render rest
  | TChar c :: rest => String c (render rest)
  | TOpen :: rest => String "{" (render rest)
  | TClose :: rest => String "}" (render rest)
  | TSup :: rest => String "^" (render rest)
  | TSub :: rest => String "_" (render rest)
  | TAlign :: rest => String "&" (render rest)
  end.

(** ** Atoms *)

(** Modelled from the spec: section 3, the kind of an atom is a closed
    tag.  The kinds of atoms the parser builds: a character, a command of the
    symbol table with its arguments, a group, the empty placeholder that
    carries a script with no base, an alignment mark, an unknown command,
    and a piece of malformed input. *)
Inductive Kind : Type :=
| KChar | KCommand | KGroup | KPlaceholder | KAlign | KUnknown | KError.

(** Modelled from the spec: section 3, an atom has a kind, a value (the
    character or the name of the command), the bodies of its arguments,
    and an optional superscript and subscript. *)
#[warnings="-register-all"]
Inductive Atom : Type :=
| mkAtom (kind : Kind) (value : string) (args : list (list Atom))
         (superscript subscript : option (list Atom)).

Definition kind (a : Atom) : Kind := let 'mkAtom k _ _ _ _ := a in k.
Definition value (a : Atom) : string := let 'mkAtom _ v _ _ _ := a in v.
Definition args (a : Atom) : list (list Atom) := let 'mkAtom _ _ l _ _ := a in l.
Definition superscript (a : Atom) : option (list Atom) :=
  let 'mkAtom _ _ _ s _ := a in s.
Definition subscript (a : Atom) : option (list Atom) :=
  let 'mkAtom _ _ _ _ s := a in s.

Definition leaf (k : Kind) (v : string) : Atom := mkAtom k v [] None None.
Definition set_superscript (s : list Atom) (a : Atom) : Atom :=
  mkAtom (kind a) (value a) (args a) (Some s) (subscript a).
Definition set_subscript (s : list Atom) (a : Atom) : Atom :=
  mkAtom (kind a) (value a) (args a) (superscript a) (Some s).

(** ** The parser *)

Section Parser.

(** The symbol table: the number of arguments of a known command. *)
Variable symbols : string → option nat.
(** The optional argument list: [#0], [#1], ... stand for its items. *)
Variable arguments : list (list Atom).

Definition argument_ref (ts : list Token) : option (list Atom * list Token) :=
  match ts with
  | TChar h :: TChar d :: rest =>
      if Ascii.eqb h "#" && is_digit d
      then match arguments !! (nat_of_ascii d - 48)%nat with
           | Some l => Some (l, rest)
           | None => None
           end
      else None
  | _ => None
  end.

(** Modelled from the spec: section 4.2, recursive descent.  [parse_list] reads atoms up to the close of the
    group ([top = false]) or the end of the input; a script attaches to
    the atom before it, or to a placeholder when there is none; a second
    script of the same kind, a script with no argument, and a close with
    no group to close are malformed.  [parse_primary] reads one atom
    without its scripts; a command whose arguments are not all there is
    an unknown command.  [parse_arg] reads one argument: a group or a
    single atom.  [None] is returned when the fuel runs out. *)
Fixpoint parse_list (fuel : nat) (top : bool) (acc : list Atom) (ts : list Token)
  {struct fuel} : option (list Atom * list Token) :=
  match fuel with
  | O => None
  | S fuel =>
      match ts with
      | [] => Some (rev acc, [])
      | TClose :: rest =>
          if top then parse_list fuel top (leaf KError "}" :: acc) rest
          else Some (rev acc, rest)
      | TSup :: rest =>
          '(arg, rest') ← parse_arg fuel rest;
          match arg, acc with
          | None, _ => parse_list fuel top (leaf KError "^" :: acc) rest
          | Some s, [] =>
              parse_list fuel top [set_superscript s (leaf KPlaceholder "")] rest'
          | Some s, prev :: acc' =>
              match superscript prev with
              | Some _ => parse_list fuel top (leaf KError "^" :: acc) rest
              | None => parse_list fuel top (set_superscript s prev :: acc') rest'
              end
          end
      | TSub :: rest =>
          '(arg, rest') ← parse_arg fuel rest;
          match arg, acc with
          | None, _ => parse_list fuel top (leaf KError "_" :: acc) rest
          | Some s, [] =>
              parse_list fuel top [set_subscript s (leaf KPlaceholder "")] rest'
          | Some s, prev :: acc' =>
              match subscript prev with
              | Some _ => parse_list fuel top (leaf KError "_" :: acc) rest
              | None => parse_list fuel top (set_subscript s prev :: acc') rest'
              end
          end
      | _ =>
          match argument_ref ts with
          | Some (l, rest) => parse_list fuel top (rev l ++ acc) rest
          | None =>
              '(a, rest) ← parse_primary fuel ts;
              parse_list fuel top (a :: acc) rest
          end
      end
  end
with parse_primary (fuel : nat) (ts : list Token) {struct fuel}
  : option (Atom * list Token) :=
  match fuel with
  | O => None
  | S fuel =>
      match ts with
      | TChar c :: rest => Some (leaf KChar (String c EmptyString), rest)
      | TAlign :: rest => Some (leaf KAlign "", rest)
      | TOpen :: rest =>
          '(body, rest') ← parse_list fuel false [] rest;
          Some (mkAtom KGroup "" [body] None None, rest')
      | TCommand name :: rest =>
          match symbols name with
          | None => Some (leaf KUnknown name, rest)
          | Some n =>
              if String.eqb name "" then Some (leaf KError "\", rest)
              else
                '(found, rest') ← parse_args fuel n rest;
                match found with
                | Some l => Some (mkAtom KCommand name l None None, rest')
                | None => Some (leaf KUnknown name, rest)
                end
          end
      | _ :: rest => Some (leaf KError "", rest)
      | [] => Some (leaf KError "", [])
      end
  end
with parse_arg (fuel : nat) (ts : list Token) {struct fuel}
  : option (option (list Atom) * list Token) :=
  match fuel with
  | O => None
  | S fuel =>
      match ts with
      | TOpen :: rest =>
          '(body, rest') ← parse_list fuel false [] rest;
          Some (Some body, rest')
      | TCommand _ :: _ =>
          '(a, rest') ← parse_primary fuel ts;
          Some (Some [a], rest')
      | TChar c :: rest =>
          match argument_ref ts with
          | Some (l, rest') => Some (Some l, rest')
          | None => Some (Some [leaf KChar (String c EmptyString)], rest)
          end
      | _ => Some (None, ts)
      end
  end
with parse_args (fuel : nat) (n : nat) (ts : list Token) {struct fuel}
  : option (option (list (list Atom)) * list Token) :=
  match fuel with
  | O => None
  | S fuel =>
      match n with
      | O => Some (Some [], ts)
      | S n' =>
          '(arg, rest) ← parse_arg fuel ts;
          match arg with
          | None => Some (None, ts)
          | Some a =>
              '(more, rest') ← parse_args fuel n' rest;
              Some (match more with Some l => Some (a :: l) | None => None end,
                    rest')
          end
      end
  end.

(** Enough fuel for any input of that length. *)
Definition parse_fuel (ts : list Token) : nat := 4 * length ts + 8.

(** Modelled from the spec: section 4.2, [parse(tokens, mode, optional
    argument-list)] in math mode, the [parseTokens] of the source. *)
Definition parseTokens (ts : list Token) : list Atom :=
  match parse_list (parse_fuel ts) true [] ts with
  | Some (l, _) => l
  | None => []
  end.

End Parser.

(** ** The serializer *)

(** Modelled from the spec: sections 4.2 and 6, the serializer writes the
    tokens the parser reads the atom from: a command with each argument
    in braces, a script in braces after its mark. *)
Fixpoint atom_tokens (a : Atom) : list Token :=
  let forest := fix forest (l : list Atom) : list Token :=
    match l with
    | [] => []
    | x :: rest => atom_tokens x ++ forest rest
    end in
  let group := λ l, TOpen :: forest l ++ [TClose] in
  let groups := fix groups (ls : list (list Atom)) : list Token :=
    match ls with
    | [] => []
    | l :: rest => group l ++ groups rest
    end in
  match a with
  | mkAtom k v args sup sub =>
      match k with
      | KChar => map TChar (list_ascii_of_string v)
      | KCommand => TCommand v :: groups args
      | KGroup => groups args
      | KPlaceholder => []
      | KAlign => [TAlign]
      | KUnknown => [TCommand v]
      | KError =>
          if String.eqb v "}" then [TClose]
          else if String.eqb v "^" then [TSup]
          else if String.eqb v "_" then [TSub]
          else if String.eqb v "\" then [TCommand ""]
          else []
      end
      ++ match sup with Some s => TSup :: group s | None => [] end
      ++ match sub with Some s => TSub :: group s | None => [] end
  end.

Fixpoint forest_tokens (l : list Atom) : list Token :=
  match l with
  | [] => []
  | x :: rest => atom_tokens x ++ forest_tokens rest
  end.

(** Modelled from the spec: section 6, [toLatex] of a list of atoms. *)
Definition toLatex (l : list Atom) : string := render (forest_tokens l).

(** The tokens of a group, of a list of arguments, of a script. *)
Definition group_tokens (l : list Atom) : list Token :=
  TOpen :: forest_tokens l ++ [TClose].

Fixpoint groups_tokens (ls : list (list Atom)) : list Token :=
  match ls with
  | [] => []
  | l :: rest => group_tokens l ++ groups_tokens rest
  end.

Definition script_tokens (marker : Token) (s : option (list Atom)) : list Token :=
  match s with
  | Some l => marker :: group_tokens l
  | None => []
  end.

Definition body_tokens (k : Kind) (v : string) (args : list (list Atom))
  : list Token :=
  match k with
  | KChar => map TChar (list_ascii_of_string v)
  | KCommand => TCommand v :: groups_tokens args
  | KGroup => groups_tokens args
  | KPlaceholder => []
  | KAlign => [TAlign]
  | KUnknown => [TCommand v]
  | KError =>
      if String.eqb v "}" then [TClose]
      else if String.eqb v "^" then [TSup]
      else if String.eqb v "_" then [TSub]
      else if String.eqb v "\" then [TCommand ""]
      else []
  end.

(** ** Accepted input *)

(** An atom tree without unknown commands and without malformed pieces. *)
Fixpoint clean_atom (a : Atom) : bool :=
  let forest := fix forest (l : list Atom) : bool :=
    match l with
    | [] => true
    | x :: rest => clean_atom x && forest rest
    end in
  let forests := fix forests (ls : list (list Atom)) : bool :=
    match ls with
    | [] => true
    | l :: rest => forest l && forests rest
    end in
  match a with
  | mkAtom k v args sup sub =>
      match k with KUnknown | KError => false | _ => true end
      && forests args
      && match sup with Some s => forest s | None => true end
      && match sub with Some s => forest s | None => true end
  end.

Fixpoint clean (l : list Atom) : bool :=
  match l with
  | [] => true
  | x :: rest => clean_atom x && clean rest
  end.

(** ** Well-formed trees *)

(** A character the lexer reads as a character token. *)
Definition plain_char (c : ascii) : bool :=
  match lex_char c with
  | Some (TChar _) => negb (Ascii.eqb c backslash)
  | _ => false
  end.

(** The name of a control word or of a control symbol. *)
Definition lexable_name (name : string) : bool :=
  is_word name ||
  match name with
  | String c EmptyString => negb (is_letter c)
  | _ => false
  end.

Definition lexable (t : Token) : bool :=
  match t with
  | TCommand name => lexable_name name
  | TChar c => plain_char c
  | _ => true
  end.

(** The tokens the lexer produces: a lone backslash at the end of the
    input is a control sequence with no name. *)
Definition lexed (t : Token) : bool :=
  match t with
  | TCommand EmptyString => true
  | _ => lexable t
  end.

Definition is_placeholder (a : Atom) : bool :=
  match kind a with KPlaceholder => true | _ => false end.

Definition is_some {A : Type} (o : option A) : bool :=
  match o with Some _ => true | None => false end.

Section WellFormed.

Variable symbols : string → option nat.

(** The trees the parser builds from accepted input: characters the
    lexer reads, commands of the table with all their arguments, groups,
    and a placeholder only where a script has no atom before it. *)
Fixpoint ok_atom (a : Atom) : bool :=
  let forest := fix forest (first : bool) (l : list Atom) {struct l} : bool :=
    match l with
    | [] => true
    | x :: rest =>
        (first || negb (is_placeholder x)) && ok_atom x && forest false rest
    end in
  let forests := fix forests (ls : list (list Atom)) : bool :=
    match ls with
    | [] => true
    | l :: rest => forest true l && forests rest
    end in
  match a with
  | mkAtom k v args sup sub =>
      match k with
      | KChar =>
          match v with
          | String c EmptyString => plain_char c
          | _ => false
          end && Nat.eqb (length args) 0
      | KCommand =>
          lexable_name v &&
          match symbols v with
          | Some n => Nat.eqb n (length args)
          | None => false
          end
      | KGroup => String.eqb v "" && Nat.eqb (length args) 1
      | KPlaceholder =>
          String.eqb v "" && Nat.eqb (length args) 0
          && (is_some sup || is_some sub)
      | KAlign => String.eqb v "" && Nat.eqb (length args) 0
      | KUnknown | KError => false
      end
      && forests args
      && match sup with Some s => forest true s | None => true end
      && match sub with Some s => forest true s | None => true end
  end.

Fixpoint ok_from (first : bool) (l : list Atom) : bool :=
  match l with
  | [] => true
  | x :: rest =>
      (first || negb (is_placeholder x)) && ok_atom x && ok_from false rest
  end.

Definition ok (l : list Atom) : bool := ok_from true l.

Fixpoint oks (ls : list (list Atom)) : bool :=
  match ls with
  | [] => true
  | l :: rest => ok l && oks rest
  end.

Definition ok_script (s : option (list Atom)) : bool :=
  match s with Some l => ok l | None => true end.

End WellFormed.

Fixpoint cleans (ls : list (list Atom)) : bool :=
  match ls with
  | [] => true
  | l :: rest => clean l && cleans rest
  end.

Definition clean_script (s : option (list Atom)) : bool :=
  match s with Some l => clean l | None => true end.

(** The number of groups left open by a list of tokens. *)
Definition depth_of (depth : nat) (ts : list Token) : nat :=
  fold_left (λ d t, depth_after d (Some t)) ts depth.

Definition no_letter_first (s : string) : bool :=
  match s with
  | String c _ => negb (is_letter c)
  | EmptyString => true
  end.

(** ** Statements about the parser, fuel by fuel *)

Definition fine_tokens (ts : list Token) : Prop :=
  forallb lexable ts = true ∧ ∀ d, depth_of d ts = d.

Section Invariants.

Variable symbols : string → option nat.

Local Abbreviation parse_list := (parse_list symbols []).
Local Abbreviation parse_primary := (parse_primary symbols []).
Local Abbreviation parse_arg := (parse_arg symbols []).
Local Abbreviation parse_args := (parse_args symbols []).
Local Abbreviation ok_atom := (ok_atom symbols).
Local Abbreviation ok := (ok symbols).
Local Abbreviation oks := (oks symbols).

Definition mono_list (fuel : nat) : Prop :=
  ∀ top acc ts r F, parse_list fuel top acc ts = Some r → (fuel ≤ F)%nat →
    parse_list F top acc ts = Some r.

Definition mono_primary (fuel : nat) : Prop :=
  ∀ ts r F, parse_primary fuel ts = Some r → (fuel ≤ F)%nat →
    parse_primary F ts = Some r.

Definition mono_arg (fuel : nat) : Prop :=
  ∀ ts r F, parse_arg fuel ts = Some r → (fuel ≤ F)%nat → parse_arg F ts = Some r.

Definition mono_args (fuel : nat) : Prop :=
  ∀ n ts r F, parse_args fuel n ts = Some r → (fuel ≤ F)%nat →
    parse_args F n ts = Some r.

(** Reading the tokens of [a] puts [a] on the list of atoms read so
    far. *)
Definition reads_back (a : Atom) : Prop :=
  ∀ fuel F top acc rest r,
    ok_atom a = true →
    (is_placeholder a = true → acc = []) →
    parse_list fuel top (a :: acc) rest = Some r →
    (fuel + 4 * length (atom_tokens a) ≤ F)%nat →
    parse_list F top acc (atom_tokens a ++ rest) = Some r.

Definition fine_atom (a : Atom) : Prop :=
  ok_atom a = true → fine_tokens (atom_tokens a).

(** The atoms read so far, the last one first. *)
Fixpoint ok_acc (acc : list Atom) : bool :=
  match acc with
  | [] => true
  | a :: acc' =>
      ok_atom a
      && (match acc' with [] => true | _ => negb (is_placeholder a) end)
      && ok_acc acc'
  end.

(** Atoms that are well formed whenever they are clean. *)
Definition sound_acc (acc : list Atom) : Prop :=
  clean acc = true → ok_acc acc = true.

Definition sound_list (fuel : nat) : Prop :=
  ∀ top acc ts l rest,
    forallb lexed ts = true → sound_acc acc →
    parse_list fuel top acc ts = Some (l, rest) →
    (clean l = true → ok l = true) ∧ forallb lexed rest = true.

Definition sound_primary (fuel : nat) : Prop :=
  ∀ ts a rest,
    forallb lexed ts = true →
    parse_primary fuel ts = Some (a, rest) →
    (clean_atom a = true → ok_atom a = true ∧ is_placeholder a = false)
    ∧ forallb lexed rest = true.

Definition sound_arg (fuel : nat) : Prop :=
  ∀ ts arg rest,
    forallb lexed ts = true →
    parse_arg fuel ts = Some (arg, rest) →
    (∀ s, arg = Some s → clean s = true → ok s = true)
    ∧ forallb lexed rest = true.

Definition sound_args (fuel : nat) : Prop :=
  ∀ n ts found rest,
    forallb lexed ts = true →
    parse_args fuel n ts = Some (found, rest) →
    (∀ ls, found = Some ls →
       length ls = n ∧ (cleans ls = true → oks ls = true))
    ∧ forallb lexed rest = true.

End Invariants.

Section Totality.

Variable symbols : string → option nat.
Variable arguments : list (list Atom).

Local Abbreviation parse_list := (parse_list symbols arguments).
Local Abbreviation parse_primary := (parse_primary symbols arguments).
Local Abbreviation parse_arg := (parse_arg symbols arguments).
Local Abbreviation parse_args := (parse_args symbols arguments).

Definition total_list (fuel : nat) : Prop :=
  ∀ top acc ts, (4 * length ts + 2 ≤ fuel)%nat →
    ∃ l rest, parse_list fuel top acc ts = Some (l, rest)
              ∧ (length rest ≤ length ts)%nat.

Definition total_primary (fuel : nat) : Prop :=
  ∀ ts, (4 * length ts + 1 ≤ fuel)%nat →
    ∃ a rest, parse_primary fuel ts = Some (a, rest)
              ∧ (length rest ≤ length ts)%nat
              ∧ (ts ≠ [] → (length rest < length ts)%nat).

Definition total_arg (fuel : nat) : Prop :=
  ∀ ts, (4 * length ts + 2 ≤ fuel)%nat →
    ∃ arg rest, parse_arg fuel ts = Some (arg, rest)
                ∧ (length rest ≤ length ts)%nat
                ∧ (is_Some arg → (length rest < length ts)%nat).

Definition total_args (fuel : nat) : Prop :=
  ∀ n ts, (4 * length ts + 3 ≤ fuel)%nat →
    ∃ found rest, parse_args fuel n ts = Some (found, rest)
                  ∧ (length rest ≤ length ts)%nat.

End Totality.

End Tex.

(** * The collaborators, after the specification *)

(** The modules [EditableMathlist], [Definitions] and [Shortcuts] are not
    among the two files.  This module gives them a concrete reading,
    following the specification, over the lexer, the parser and the
    serializer of [Module Tex]; it is the instance of [Collaborators] on
    which the scenarios of the specification are run.  The editor of this
    model moves its insertion point between the atoms under the root. *)

Module SpecModel.
Import Tex.

(** ** The symbol table and the shortcut tables *)

(** Modelled from the spec: section 4.3, a static mapping from a command
    name to its arity; the table is read-only. *)
Definition symbol_table : list (string * nat) :=
  [("pi", 0); ("alpha", 0); ("beta", 0); ("infty", 0); ("to", 0);
   ("ne", 0); ("le", 0); ("ge", 0);
   ("sqrt", 1); ("frac", 2); ("vec", 1); ("bar", 1);
   ("mathbb", 1); ("mathfrak", 1); ("mathcal", 1); ("mathscr", 1);
   ("mathsf", 1); ("mathtt", 1); ("mathbf", 1)]%nat.

Fixpoint table_get {A : Type} (k : string) (t : list (string * A)) : option A :=
  match t with
  | [] => None
  | (k', v) :: rest => if String.eqb k k' then Some v else table_get k rest
  end.

Definition symbols (name : string) : option nat := table_get name symbol_table.

(** The name of a command as it is typed: a backslash, then the name. *)
Definition command_name (name : string) : string := String backslash name.

(** Modelled from the spec: section 4.3, [suggest(prefix)], the commands
    that start with the prefix, in the fixed order of the table. *)
Definition Definitions_suggest (prefix : string) : list string :=
  List.filter (String.prefix prefix)
    (map (λ e, command_name (fst e)) symbol_table).

(** Modelled from the spec: the commands with arguments are the functions
    of the table, the others its symbols; a match gives the LaTeX name. *)
Definition match_arity (p : nat → bool) (command : string) : option string :=
  match command with
  | String c name =>
      if Ascii.eqb c backslash then
        match symbols name with
        | Some n => if p n then Some command else None
        | None => None
        end
      else None
  | EmptyString => None
  end.

Definition Definitions_matchFunction (mode command : string) : option string :=
  match_arity (Nat.ltb 0) command.

Definition Definitions_matchSymbol (mode command : string) : option string :=
  match_arity (Nat.eqb 0) command.

(** Modelled from the spec: the built-in table of inline shortcuts, from
    a trigger text to the LaTeX that replaces it. *)
Definition builtin_shortcuts : list (string * string) :=
  [("pi", "\pi"); ("oo", "\infty"); ("->", "\to");
   ("!=", "\ne"); ("<=", "\le"); (">=", "\ge")].

(** Modelled from the spec: sections 4.7 and 6.  The shortcut of one
    trigger text: the table of the configuration is tried first, then the
    built-in table, which is skipped when
    [overrideDefaultInlineShortcuts] is set. *)
Definition user_shortcut (config : gmap string JsValue) (key : string)
  : option string :=
  match config !! "inlineShortcuts" with
  | Some table =>
      match js_get table key with
      | JsString v => if String.eqb v "" then None else Some v
      | _ => None
      end
  | None => None
  end.

Definition overrides (config : gmap string JsValue) : bool :=
  match config !! "overrideDefaultInlineShortcuts" with
  | Some v => truthy v
  | None => false
  end.

Definition lookup_shortcut (config : gmap string JsValue) (key : string)
  : option string :=
  match user_shortcut config key with
  | Some v => Some v
  | None => if overrides config then None else table_get key builtin_shortcuts
  end.

(** Modelled from the spec: section 4.7, [matchEndOf(text, config)], the
    longest registered key that is a suffix of [text]. *)
Fixpoint matchEndOf (text : string) (config : gmap string JsValue)
  : option ShortcutMatch :=
  match text with
  | EmptyString => None
  | String _ rest =>
      match lookup_shortcut config text with
      | Some v => Some (mkShortcutMatch text v)
      | None => matchEndOf rest config
      end
  end.

(** ** The editable math list *)

(** Modelled from the spec: section 4.4.  What lies under the root: the
    atoms, and, while a command is typed, the characters of the command;
    the characters of a suggestion are marked. *)
Inductive Item : Type :=
| Math (a : Atom)
| CommandChar (c : ascii) (suggestion : bool).

(** Modelled from the spec: sections 3 and 4.4, the tree and the
    selection range.  The items before the selection (the nearest
    first), the selected items, the items after; the selection is
    collapsed when no item is selected.  [ml_error] is the error
    indicator of the command being typed. *)
Record Mathlist : Type := mkMathlist {
  ml_before : list Item;
  ml_selection : list Item;
  ml_after : list Item;
  ml_error : bool
}.

Definition empty_mathlist : Mathlist := mkMathlist [] [] [] false.

Definition items (ml : Mathlist) : list Item :=
  rev (ml_before ml) ++ ml_selection ml ++ ml_after ml.

Fixpoint math_atoms (l : list Item) : list Atom :=
  match l with
  | [] => []
  | Math a :: rest => a :: math_atoms rest
  | CommandChar _ _ :: rest => math_atoms rest
  end.

Definition is_command_char (i : Item) : bool :=
  match i with CommandChar _ _ => true | Math _ => false end.

Definition is_suggestion (i : Item) : bool :=
  match i with CommandChar _ s => s | Math _ => false end.

(** Modelled from the spec: the parse mode is [command] while the
    insertion point follows a character of a command. *)
Definition parseMode (ml : Mathlist) : string :=
  match ml_before ml with
  | CommandChar _ _ :: _ => "command"
  | _ => "math"
  end.

(** Modelled from the spec: the text of the run of single characters
    that ends at the insertion point. *)
Fixpoint chars_before (l : list Item) (acc : string) : string :=
  match l with
  | Math (mkAtom KChar (String c EmptyString) [] None None) :: rest =>
      chars_before rest (String c acc)
  | _ => acc
  end.

Definition extractGroupStringBeforeInsertionPoint (ml : Mathlist) : string :=
  chars_before (ml_before ml) "".

(** The characters of the command around the insertion point. *)
Fixpoint command_before (l : list Item) (acc : string) : string :=
  match l with
  | CommandChar c _ :: rest => command_before rest (String c acc)
  | _ => acc
  end.

Fixpoint command_after (l : list Item) : string :=
  match l with
  | CommandChar c _ :: rest => String c (command_after rest)
  | _ => ""
  end.

(** Modelled from the spec: section 4.4, command-mode substring
    tracking. *)
Definition extractCommandStringAroundInsertionPoint (ml : Mathlist) : string :=
  command_before (ml_before ml) "" +:+ command_after (ml_after ml).

Definition isCollapsed (ml : Mathlist) : bool :=
  match ml_selection ml with [] => true | _ => false end.

(** The atoms of the tree are numbered in document order: the root, the
    atom that stands before the first item, then each item followed by
    the atoms inside it. *)
Fixpoint atom_count (a : Atom) : nat :=
  let forest := fix forest (l : list Atom) : nat :=
    match l with
    | [] => 0
    | x :: rest => atom_count x + forest rest
    end%nat in
  let forests := fix forests (ls : list (list Atom)) : nat :=
    match ls with
    | [] => 0
    | l :: rest => forest l + forests rest
    end%nat in
  match a with
  | mkAtom _ _ args sup sub =>
      S (forests args
         + match sup with Some s => forest s | None => 0 end
         + match sub with Some s => forest s | None => 0 end)%nat
  end.

Definition item_count (i : Item) : nat :=
  match i with Math a => atom_count a | CommandChar _ _ => 1%nat end.

Fixpoint items_count (l : list Item) : nat :=
  match l with
  | [] => 0
  | i :: rest => item_count i + items_count rest
  end%nat.

Definition root_forEach (ml : Mathlist) : list AtomRef :=
  map Pos.of_nat (seq 1 (2 + items_count (items ml))).

(** Modelled from the spec: section 8, [contains(atom)] holds for the
    atoms between the two ends of the selection, and for no atom when
    the selection is collapsed. *)
Definition contains (ml : Mathlist) (a : AtomRef) : bool :=
  let lo := (3 + items_count (ml_before ml))%nat in
  let hi := (lo + items_count (ml_selection ml))%nat in
  Nat.leb lo (Pos.to_nat a) && Nat.ltb (Pos.to_nat a) hi.

(** The anchor: the item before the selection, or the atom that stands
    before the first item. *)
Definition anchor (ml : Mathlist) : AtomRef :=
  match ml_before ml with
  | [] => 2%positive
  | _ :: earlier => Pos.of_nat (3 + items_count earlier)
  end.

(** Modelled from the spec: section 6, the serializer of the tree.  The
    characters of a command being typed are not content. *)
Definition root_toLatex (ml : Mathlist) : string :=
  toLatex (math_atoms (items ml)).

(** ** Mutations *)

Definition decorateCommandStringAroundInsertionPoint (flag : bool)
  (ml : Mathlist) : Mathlist :=
  mkMathlist (ml_before ml) (ml_selection ml) (ml_after ml) flag.

Definition removeSuggestion (ml : Mathlist) : Mathlist :=
  let keep := List.filter (λ i, negb (is_suggestion i)) in
  mkMathlist (keep (ml_before ml)) (keep (ml_selection ml))
    (keep (ml_after ml)) (ml_error ml).

(** [s.substr(l)]: from the offset [l], counted from the end when
    negative. *)
Definition substr (s : string) (l : Z) : string :=
  let n := String.length s in
  let start := if (l <? 0)%Z then (n - Z.to_nat (- l))%nat
               else Nat.min (Z.to_nat l) n in
  String.substring start (n - start) s.

(** Modelled from the spec: section 4.4, [insertSuggestion]; the
    characters of the suggestion the command does not have yet are put
    after the insertion point, which stays where it is. *)
Definition insertSuggestion (s : string) (l : Z) (ml : Mathlist) : Mathlist :=
  let ml := removeSuggestion ml in
  mkMathlist (ml_before ml) (ml_selection ml)
    (map (λ c, CommandChar c true) (list_ascii_of_string (substr s l))
     ++ ml_after ml)
    (ml_error ml).

(** One deletion before and one deletion after the insertion point; a
    selection is deleted as a whole. *)
Definition delete_backward (ml : Mathlist) : Mathlist :=
  match ml_selection ml, ml_before ml with
  | _ :: _, _ => mkMathlist (ml_before ml) [] (ml_after ml) (ml_error ml)
  | [], _ :: earlier => mkMathlist earlier [] (ml_after ml) (ml_error ml)
  | [], [] => ml
  end.

Definition delete_forward (ml : Mathlist) : Mathlist :=
  match ml_selection ml, ml_after ml with
  | _ :: _, _ => mkMathlist (ml_before ml) [] (ml_after ml) (ml_error ml)
  | [], _ :: later => mkMathlist (ml_before ml) [] later (ml_error ml)
  | [], [] => ml
  end.

Definition delete_selection (ml : Mathlist) : Mathlist :=
  mkMathlist (ml_before ml) [] (ml_after ml) (ml_error ml).

(** Modelled from the spec: section 4.4, [delete(count-or-direction)]
    removes one or more atoms in the given direction. *)
Definition delete (count : Z) (ml : Mathlist) : Mathlist :=
  if (count =? 0)%Z then delete_selection ml
  else if (count <? 0)%Z then Nat.iter (Z.to_nat (- count)) delete_backward ml
  else Nat.iter (Z.to_nat count) delete_forward ml.

Definition option_string (options : JsValue) (key default : string) : string :=
  match js_get options key with
  | JsString s => s
  | _ => default
  end.

(** The first placeholder of a fragment, with what is before it and
    after it. *)
Fixpoint split_placeholder (earlier : list Item) (l : list Atom)
  : option (list Item * Item * list Item) :=
  match l with
  | [] => None
  | a :: rest =>
      if is_placeholder a then Some (earlier, Math a, map Math rest)
      else split_placeholder (Math a :: earlier) rest
  end.

(** Modelled from the spec: section 4.4, [insert(text-or-fragment,
    options)].  The text is read by the parser, where [#0] stands for
    the selection; in command mode its characters extend the command,
    and the character U+0027 starts a command.  The fragment replaces
    the selection (or everything, or goes before or after the
    selection), and the selection is then placed as [selectionMode]
    says. *)
Definition insert (text options : JsValue) (ml : Mathlist) : Mathlist :=
  match text with
  | JsString s =>
      let insertionMode := option_string options "insertionMode" "replaceSelection" in
      let selectionMode := option_string options "selectionMode" "placeholder" in
      let format := option_string options "format" "auto" in
      let '(earlier, arguments, later) :=
        if String.eqb insertionMode "replaceAll" then ([], [], [])
        else if String.eqb insertionMode "insertBefore" then
          (ml_before ml, [], ml_selection ml ++ ml_after ml)
        else if String.eqb insertionMode "insertAfter" then
          (rev (ml_selection ml) ++ ml_before ml, [], ml_after ml)
        else
          (ml_before ml,
           match math_atoms (ml_selection ml) with [] => [] | l => [l] end,
           ml_after ml) in
      if String.eqb format "auto" && String.eqb (parseMode ml) "command" then
        mkMathlist
          (rev (map (λ c, CommandChar c false) (list_ascii_of_string s))
           ++ earlier)
          [] later (ml_error ml)
      else if String.eqb format "auto" && String.eqb s "'" then
        mkMathlist (CommandChar backslash false :: earlier) [] later (ml_error ml)
      else
        let fragment := parseTokens symbols arguments (tokenize s) in
        if String.eqb selectionMode "before" then
          mkMathlist earlier [] (map Math fragment ++ later) (ml_error ml)
        else if String.eqb selectionMode "item" then
          mkMathlist earlier (map Math fragment) later (ml_error ml)
        else if String.eqb selectionMode "after" then
          mkMathlist (rev (map Math fragment) ++ earlier) [] later (ml_error ml)
        else
          match split_placeholder [] fragment with
          | Some (b, p, a) =>
              mkMathlist (b ++ earlier) [p] (a ++ later) (ml_error ml)
          | None =>
              mkMathlist (rev (map Math fragment) ++ earlier) [] later
                (ml_error ml)
          end
  | _ => ml
  end.

(** The items of a command at the head of a list, and what follows. *)
Fixpoint drop_command (l : list Item) : list Item :=
  match l with
  | CommandChar _ _ :: rest => drop_command rest
  | _ => l
  end.

(** Modelled from the spec: the command around the insertion point is
    replaced by the fragment it stands for. *)
Definition spliceCommandStringAroundInsertionPoint
  (fragment : option (list Atom)) (ml : Mathlist) : Mathlist :=
  let atoms := match fragment with Some l => l | None => [] end in
  mkMathlist (rev (map Math atoms) ++ drop_command (ml_before ml))
    [] (drop_command (ml_after ml)) false.

(** The characters typed of a command at the head of a list, in reverse,
    and what follows them. *)
Fixpoint typed_command (l : list Item) (acc : list Item)
  : list Item * list Item :=
  match l with
  | CommandChar c false :: rest => typed_command rest (CommandChar c false :: acc)
  | _ => (acc, l)
  end.

(** Modelled from the spec: the insertion point goes after the
    characters typed of the command, before those of the suggestion. *)
Definition positionInsertionPointAfterCommitedCommand (ml : Mathlist)
  : Mathlist :=
  let '(typed, later) := typed_command (ml_after ml) [] in
  mkMathlist (typed ++ ml_before ml) (ml_selection ml) later (ml_error ml).

(** ** Navigation, selection and the selectors of the math list *)

Definition moveToPreviousChar (ml : Mathlist) : Mathlist :=
  match ml_selection ml, ml_before ml with
  | _ :: _, _ =>
      mkMathlist (ml_before ml) [] (ml_selection ml ++ ml_after ml) (ml_error ml)
  | [], i :: earlier => mkMathlist earlier [] (i :: ml_after ml) (ml_error ml)
  | [], [] => ml
  end.

Definition moveToNextChar (ml : Mathlist) : Mathlist :=
  match ml_selection ml, ml_after ml with
  | _ :: _, _ =>
      mkMathlist (rev (ml_selection ml) ++ ml_before ml) [] (ml_after ml)
        (ml_error ml)
  | [], i :: later => mkMathlist (i :: ml_before ml) [] later (ml_error ml)
  | [], [] => ml
  end.

Definition moveToMathFieldStart (ml : Mathlist) : Mathlist :=
  mkMathlist [] [] (items ml) (ml_error ml).

Definition moveToMathFieldEnd (ml : Mathlist) : Mathlist :=
  mkMathlist (rev (items ml)) [] [] (ml_error ml).

Definition extendToPreviousChar (ml : Mathlist) : Mathlist :=
  match ml_before ml with
  | i :: earlier =>
      mkMathlist earlier (i :: ml_selection ml) (ml_after ml) (ml_error ml)
  | [] => ml
  end.

Definition extendToNextChar (ml : Mathlist) : Mathlist :=
  match ml_after ml with
  | i :: later =>
      mkMathlist (ml_before ml) (ml_selection ml ++ [i]) later (ml_error ml)
  | [] => ml
  end.

Definition selectAll (ml : Mathlist) : Mathlist :=
  mkMathlist [] (items ml) [] (ml_error ml).

(** The two items before the insertion point change places. *)
Definition transpose (ml : Mathlist) : Mathlist :=
  match ml_selection ml, ml_before ml with
  | [], i :: j :: earlier =>
      mkMathlist (j :: i :: earlier) [] (ml_after ml) (ml_error ml)
  | _, _ => ml
  end.

Definition deleteToGroupStart (ml : Mathlist) : Mathlist :=
  mkMathlist [] [] (ml_after ml) (ml_error ml).

Definition deleteToGroupEnd (ml : Mathlist) : Mathlist :=
  mkMathlist (ml_before ml) [] [] (ml_error ml).

(** A word is a run of letters. *)
Definition is_letter_item (i : Item) : bool :=
  match i with
  | Math (mkAtom KChar (String c EmptyString) [] None None) => is_letter c
  | _ => false
  end.

Fixpoint drop_word (l : list Item) : list Item :=
  match l with
  | i :: rest => if is_letter_item i then drop_word rest else l
  | [] => []
  end.

Definition drop_item_or_word (l : list Item) : list Item :=
  match l with
  | i :: rest => if is_letter_item i then drop_word rest else rest
  | [] => []
  end.

Definition deletePreviousWord (ml : Mathlist) : Mathlist :=
  mkMathlist (drop_item_or_word (ml_before ml)) [] (ml_after ml) (ml_error ml).

Definition deleteNextWord (ml : Mathlist) : Mathlist :=
  mkMathlist (ml_before ml) [] (drop_item_or_word (ml_after ml)) (ml_error ml).

(** The count [delete_] receives: its first argument when it is a
    number, none otherwise. *)
Definition count_of (args : list JsValue) : Z :=
  match args with
  | JsNumber z :: _ => z
  | _ => 0%Z
  end.

(** Modelled from the spec: section 4.4, the operations of the editor
    that [perform] reaches by their name. *)
Definition selectors : list (string * (list JsValue → Mathlist → Mathlist)) :=
  [("moveToPreviousChar_", λ _, moveToPreviousChar);
   ("moveToNextChar_", λ _, moveToNextChar);
   ("moveToMathFieldStart_", λ _, moveToMathFieldStart);
   ("moveToMathFieldEnd_", λ _, moveToMathFieldEnd);
   ("extendToPreviousChar_", λ _, extendToPreviousChar);
   ("extendToNextChar_", λ _, extendToNextChar);
   ("selectAll_", λ _, selectAll);
   ("delete_", λ args, delete (count_of args));
   ("transpose_", λ _, transpose);
   ("deleteToMathFieldEnd_", λ _, deleteToGroupEnd);
   ("deleteToGroupEnd_", λ _, deleteToGroupEnd);
   ("deleteToGroupStart_", λ _, deleteToGroupStart);
   ("deletePreviousWord_", λ _, deletePreviousWord);
   ("deleteNextWord_", λ _, deleteNextWord);
   ("deletePreviousChar_", λ _, delete_backward);
   ("deleteNextChar_", λ _, delete_forward)].

Definition mathlist_method (selector : string)
  : option (list JsValue → Mathlist → Completion unit * Mathlist) :=
  match table_get selector selectors with
  | Some f => Some (λ args ml, (Normal tt, f args ml))
  | None => inherited_method selector
  end.

(** ** Parsing and markup *)

(** [ParserModule.parseTokens(Lexer.tokenize(s), mode, null)] *)
Definition parse_latex (s mode : string) : option (list Atom) :=
  Some (parseTokens symbols [] (tokenize s)).

(** The markup of the field and of the popover is outside the
    specification; the LaTeX source stands for it. *)
Definition field_markup (ml : Mathlist) (hasCaret isSelected : gmap AtomRef bool)
  (focused : bool) : string :=
  root_toLatex ml.

Definition popover_template (latex : string) (displayArrows : bool) : string :=
  latex.

#[global] Instance spec_collaborators : Collaborators Mathlist (list Atom) :=
  Build_Collaborators Mathlist (list Atom)
    parseMode
    extractGroupStringBeforeInsertionPoint
    extractCommandStringAroundInsertionPoint
    isCollapsed
    contains
    anchor
    root_forEach
    root_toLatex
    decorateCommandStringAroundInsertionPoint
    removeSuggestion
    insert
    insertSuggestion
    delete
    spliceCommandStringAroundInsertionPoint
    positionInsertionPointAfterCommitedCommand
    mathlist_method
    Definitions_suggest
    Definitions_matchFunction
    Definitions_matchSymbol
    parse_latex
    matchEndOf
    field_markup
    popover_template.

(** ** The atoms the command bar is given *)

(** The methods [parent], [extractGroupBeforeSelection],
    [extractContents] and [extractGroupAfterSelection] of the math list
    are not among the two files.  A reading of them for this model,
    after the parameters [suggest] documents: the items under the root
    before the selection, the selected items ([null] at an insertion
    point) and the items after, as objects with a type and a value, each
    under the number it has in the tree. *)
Definition is_ordinary (v : string) : bool :=
  string_forall (λ a, is_letter a || is_digit a || Ascii.eqb a "."%char) v.

Definition item_object (i : Item) : Commands.AtomObj :=
  match i with
  | Math (mkAtom KChar v _ _ _) =>
      Commands.mkAtomObj (if is_ordinary v then "mord" else "mbin") (Some v)
  | Math (mkAtom KCommand v _ _ _) => Commands.mkAtomObj "mord" (Some v)
  | Math (mkAtom KGroup v _ _ _) => Commands.mkAtomObj "group" None
  | Math (mkAtom KPlaceholder v _ _ _) => Commands.mkAtomObj "placeholder" None
  | Math (mkAtom _ v _ _ _) => Commands.mkAtomObj "error" (Some v)
  | CommandChar c _ => Commands.mkAtomObj "command" (Some (String c EmptyString))
  end.

(** The items of [l] with their numbers, the first of them being
    [start]. *)
Fixpoint numbered (start : nat) (l : list Item) : list (AtomRef * Item) :=
  match l with
  | [] => []
  | i :: rest => (Pos.of_nat start, i) :: numbered (start + item_count i) rest
  end.

Definition before_items (ml : Mathlist) : list (AtomRef * Item) :=
  numbered 3 (rev (ml_before ml)).
Definition selected_items (ml : Mathlist) : list (AtomRef * Item) :=
  numbered (3 + items_count (ml_before ml)) (ml_selection ml).
Definition after_items (ml : Mathlist) : list (AtomRef * Item) :=
  numbered (3 + items_count (ml_before ml) + items_count (ml_selection ml))
    (ml_after ml).

Definition atoms_heap (ml : Mathlist) : Commands.Heap :=
  Commands.mkHeap
    (list_to_map
       ((1%positive, Commands.mkAtomObj "root" None)
        :: (2%positive, Commands.mkAtomObj "first" None)
        :: map (λ p, (fst p, item_object (snd p)))
             (before_items ml ++ selected_items ml ++ after_items ml)))
    {[ 1%positive := map fst (before_items ml);
       2%positive := map fst (selected_items ml);
       3%positive := map fst (after_items ml) ]}
    4%positive.

Definition mathlist_parent (ml : Mathlist) : option AtomRef := Some 1%positive.
Definition extractGroupBeforeSelection (ml : Mathlist)
  : option Commands.ArrRef := Some 1%positive.
Definition extractContents (ml : Mathlist) : option Commands.ArrRef :=
  match ml_selection ml with
  | [] => None
  | _ :: _ => Some 2%positive
  end.
Definition extractGroupAfterSelection (ml : Mathlist)
  : option Commands.ArrRef := Some 3%positive.

#[global] Instance spec_command_bar : CommandBar Mathlist :=
  Build_CommandBar Mathlist
    Commands.no_shortcut
    Commands.stringify_keys
    Commands.value_toLatex
    Commands.template_markup
    atoms_heap
    mathlist_parent
    extractGroupBeforeSelection
    extractContents
    extractGroupAfterSelection.

(** ** A field *)

(** A field with nothing in it, with the focus, configured by
    [config]. *)
Definition new_field (config : gmap string JsValue) : MathField :=
  mkMathField (make_config config) empty_mathlist
    (mkUndoManager [] 0 1000)
    0%Z false false false false ∅ ∅
    (mkDom true false "" false "")
    [].

(** The math list under which the atoms [l] are followed by the
    insertion point. *)
Definition mathlist_of (l : list Atom) : Mathlist :=
  mkMathlist (rev (map Math l)) [] [] false.

(** What [parse] and [serialize] are for the fields of this model. *)
Definition parse (s : string) : list Atom := parseTokens symbols [] (tokenize s).
Definition serialize (l : list Atom) : string := toLatex l.

(** ** The fields of the scenarios *)

(** The field after [p] is typed in an empty field, and after [i] is
    typed next. *)
Definition field_p : MathField := snd (typedText "p" (new_field ∅)).
Definition field_pi : MathField := snd (typedText "i" field_p).

(** The field after [A] is typed and selected. *)
Definition field_A_selected : MathField :=
  snd (perform (Selector "extendToPreviousChar")
         (snd (typedText "A" (new_field ∅)))).

(** The field in command mode. *)
Definition field_command : MathField :=
  snd (perform (Selector "enterCommandMode") (new_field ∅)).

(** The shortcut [pi] of the built-in table. *)
Definition shortcut_pi : ShortcutMatch := mkShortcutMatch "pi" "\pi".

(** A configuration with a shortcut of its own for [pi]. *)
Definition config_Pi : gmap string JsValue :=
  {[ "inlineShortcuts" := JsObject [("pi", JsString "\Pi")] ]}.

(** The method behind the selector [deletePreviousChar_]. *)
Definition deletePreviousChar_method (args : list JsValue) (ml : Mathlist)
  : Completion unit * Mathlist :=
  (Normal tt, delete_backward ml).

End SpecModel.

(** * Auxiliary definitions for the properties of [MathField] *)

(** The flags after [root.forEach] has set them from [f]. *)
Definition flags_set (f : AtomRef → bool) (atoms : list AtomRef)
  (m : gmap AtomRef bool) : gmap AtomRef bool :=
  fold_left (λ m a, <[a := f a]> m) atoms m.

(** Events of a given kind. *)
Definition is_matchEndOf (e : Event) : bool :=
  match e with EvMatchEndOf _ => true | _ => false end.

Definition is_delete (e : Event) : bool :=
  match e with EvMathlist m => String.eqb m "delete" | _ => false end.

(** The calls a character typed in command mode may make. *)
Definition command_mode_event (e : Event) : bool :=
  match e with
  | EvShowKeystroke _ => true
  | EvMathlist m =>
      includes ["removeSuggestion"; "insert"; "insertSuggestion";
                "decorateCommandStringAroundInsertionPoint"] m
  | _ => false
  end.


Definition is_snapshot (e : Event) : bool :=
  match e with EvSnapshot => true | _ => false end.

(** * More of [editor-mathfield.js]: handlers, public API, pointer search *)

Section MathFieldHandlers.

Context {ML Frag : Type} `{!Collaborators ML Frag} `{!CommandBar ML}.

(** The functions of other modules these methods call:
    [Shortcuts.matchKeystroke(mode, keystroke)] ([None] when it returns
    nothing);
    [MathAtom.toSpeakableText(this.mathlist.root, {markup:true})];
    whether [this.mathlist.anchor()] is an atom of type [command];
    and the timer [setTimeout(this._updatePopoverPosition.bind(this), 0)]
    sets. *)
Variable Shortcuts_matchKeystroke : string → string → option Command.
Variable toSpeakableText : ML → string.
Variable anchor_is_command : ML → bool.
Variable setTimeout_updatePopoverPosition : StM (@MathField ML) unit.

Local Abbreviation M := (StM (@MathField ML)).

Definition set_blurred (v : bool) (f : @MathField ML) : MathField :=
  mkMathField (config f) (mathlist f) (undoManager f) (suggestionIndex f)
    (pasteInProgress f) (keystrokeCaptionVisible f) (commandBarVisible f)
    v (hasCaret f) (isSelected f) (dom f) (trace f).

Definition set_textarea_focused (v : bool) (d : Dom) : Dom :=
  mkDom v (popover_visible d) (popover_innerHTML d) (commandBar_shown d)
    (field_innerHTML d).

(** [MathField.prototype._onPaste] and [_onCopy] *)
Definition _onPaste : M bool :=
  modify (set_pasteInProgress true);;
  mret true.

Definition _onCopy : M bool := mret true.

(** [MathField.prototype.text] *)
Definition text (format : JsValue) : M string :=
  let format := if truthy format then format else JsString "latex" in
  match format with
  | JsString f =>
      if String.eqb f "latex" then gets (λ st, root_toLatex (mathlist st))
      else if String.eqb f "spoken" then
        gets (λ st, toSpeakableText (mathlist st))
      else mret ""
  | _ => mret ""
  end.

(** [if (this.config.<name>) this.config.<name>(this)]: the handlers of
    the configuration are functions, and no value of [JsValue] is one;
    calling a truthy value that is not a function is a TypeError. *)
Definition call_handler (name : string) : M unit :=
  h ← gets (λ st, default JsUndefined (config st !! name));
  when_ (truthy h) (throw "TypeError").

(** [MathField.prototype._updatePopoverPosition]; where the popover is
    put on the screen is not part of [Dom]. *)
Definition _updatePopoverPosition (options : JsValue) : M unit :=
  visible ← gets (λ st, popover_visible (dom st));
  when_ visible
    (if truthy options && truthy (js_get options "deferred") then
       setTimeout_updatePopoverPosition
     else
       b ← gets blurred;
       command ← gets (λ st, anchor_is_command (mathlist st));
       if b || negb command then _hidePopover
       else mret tt).

(** [MathField.prototype._onFocus], [_onBlur] and [_onResize] *)
Definition _onFocus : M unit :=
  b ← gets blurred;
  when_ b
    (modify (set_blurred false);;
     log EvTextareaSelect;;
     _updatePopoverPosition JsUndefined;;
     _updateCommandBar;;
     _render;;
     call_handler "onFocus").

Definition _onBlur : M unit :=
  b ← gets blurred;
  when_ (negb b)
    (modify (set_blurred true);;
     _updatePopoverPosition JsUndefined;;
     _updateCommandBar;;
     _render;;
     call_handler "onBlur").

Definition _onResize : M unit := _updatePopoverPosition JsUndefined.

(** A call [this.mathlist.<selector>()] of a method reached by its name;
    calling what is not a function is a TypeError. *)
Definition mathlist_call (selector : string) : M unit :=
  match mathlist_method selector with
  | Some m => call_mathlist selector m []
  | None => throw "TypeError"
  end.

(** [MathField.prototype.select] and [clearSelection] *)
Definition select : M unit := mathlist_call "selectAll_".
Definition clearSelection : M unit := mathlist_call "delete_".

(** The part of a keyboard event [_onKeystroke] writes. *)
Record KeyEvent : Type := mkKeyEvent {
  defaultPrevented : bool;
  propagationStopped : bool
}.

(** A command as a value: a string, or an array, which is the object of
    its indices and its length. *)
Fixpoint indexed (i : nat) (l : list JsValue) : list (string * JsValue) :=
  match l with
  | [] => []
  | v :: rest => (pretty i, v) :: indexed (S i) rest
  end.

Definition command_value (command : Command) : JsValue :=
  match command with
  | Selector name => JsString name
  | SelectorWithArgs name args =>
      JsObject (indexed 0 (JsString name :: args)
                ++ [("length", JsNumber (Z.of_nat (S (length args))))])
  end.

(** [!shortcut]: nothing, or the empty string. *)
Definition no_command (shortcut : option Command) : bool :=
  match shortcut with
  | None => true
  | Some c => negb (truthy (command_value c))
  end.

(** [MathField.prototype._onKeystroke]; [evt] is [None] when the caller
    passes no event, and reading a property of [undefined] is a
    TypeError.  The result is what the method returns and the event as
    it leaves it. *)
Definition _onKeystroke (keystroke : string) (evt : option KeyEvent)
  : M (bool * option KeyEvent) :=
  shortcut ← gets (λ st,
    Shortcuts_matchKeystroke (parseMode (mathlist st)) keystroke);
  match shortcut with
  | Some command =>
      if no_command shortcut then mret (true, evt)
      else
        (* Remove any error indicator on the current command sequence *)
        on_mathlist "decorateCommandStringAroundInsertionPoint"
          (decorateCommandStringAroundInsertionPoint false);;
        _showKeystroke keystroke;;
        performed ← perform command;
        when_ (negb performed)
          (on_mathlist "insert" (insert (command_value command) JsUndefined);;
           (* Render the mathlist *)
           _render;;
           scrollIntoView_);;
        (* Keystroke has been handled: prevent propagation *)
        match evt with
        | Some _ => mret (false, Some (mkKeyEvent true true))
        | None => throw "TypeError"
        end
  | None => mret (true, evt)
  end.

(** [MathField.prototype.keystroke]: the public API passes no event. *)
Definition keystroke (keys : string) : M unit :=
  _onKeystroke keys None;;
  mret tt.

(** The options [insert_] passes on: an object, with the format [auto]
    when it names none. *)
Definition insert_options (options : JsValue) : JsValue :=
  let options := if truthy options then options else JsObject [] in
  if truthy (js_get options "format") then options
  else js_set options "format" (JsString "auto").

(** The command bar is displayed only when [commandBarVisible] is set. *)
Definition bar_consistent (st : @MathField ML) : Prop :=
  commandBar_shown (dom st) = true → commandBarVisible st = true.

(** A method that keeps [bar_consistent], whether it returns or
    throws. *)
Definition keeps_bar {A : Type} (m : M A) : Prop :=
  ∀ st, bar_consistent st → bar_consistent (snd (m st)).

End MathFieldHandlers.

(** ** The command bar: what the theorems speak of *)

(** An atom the loop of [previousSingleCharOrDigits] takes: of type
    [mord], with a digit or a dot in its value. *)
Definition is_digit_atom (h : Commands.Heap) (a : AtomRef) : bool :=
  match Commands.atoms h !! a with
  | Some o =>
      String.eqb (Commands.atom_type o) "mord"
      && Commands.test_digit_or_dot (Commands.atom_value o)
  | None => false
  end.

(** [!ctx.parent || ctx.parent.type === 'root'] *)
Definition parent_is_root (h : Commands.Heap) (parent : option AtomRef) : bool :=
  match parent with
  | None => true
  | Some p =>
      match Commands.atoms h !! p with
      | Some o => String.eqb (Commands.atom_type o) "root"
      | None => false
      end
  end.

(** By decreasing utility. *)
Definition utility_order (a b : Commands.Suggestion) : Prop :=
  (Commands.s_utility b ≤ Commands.s_utility a)%Z.

(** ** Searching the elements of the field *)

Module Pointer.

Section Elements.

(** The numbers of the DOM, with the operations [nearestElementFromPoint]
    applies to them: [a - b], [a * b], [a + b], [Math.max(a, b, c)],
    [a <= b], zero and [Number.POSITIVE_INFINITY]. *)
Variable Num : Type.
Variable sub mul add : Num → Num → Num.
Variable max3 : Num → Num → Num → Num.
Variable leb : Num → Num → bool.
Variable zero infinity : Num.

(** [el.getBoundingClientRect()] *)
Record Rect : Type := mkRect {
  left : Num;
  right : Num;
  top : Num;
  bottom : Num
}.

(** What these functions read of an element: its classes, its attribute
    [data-atom-id] ([None] when it has none), its bounding rectangle and
    its children. *)
#[warnings="-register-all"]
Inductive Element : Type :=
| mkElement (classList : list string) (data_atom_id : option string)
            (rect : Rect) (children : list Element).

Definition classList (el : Element) : list string :=
  let 'mkElement c _ _ _ := el in c.
Definition data_atom_id (el : Element) : option string :=
  let 'mkElement _ i _ _ := el in i.
Definition rect (el : Element) : Rect :=
  let 'mkElement _ _ r _ := el in r.
Definition children (el : Element) : list Element :=
  let 'mkElement _ _ _ c := el in c.

(** [el.classList.contains('ML__caret')] *)
Definition is_caret (el : Element) : bool := includes (classList el) "ML__caret".

(** [_findElementWithCaret]; [None] is [undefined]. *)
Fixpoint _findElementWithCaret (el : Element) : option Element :=
  if is_caret el then Some el
  else
    (fix each (l : list Element) (result : option Element) : option Element :=
       match l with
       | [] => result
       | child :: rest =>
           each rest
             (match result with
              | Some r => Some r
              | None => _findElementWithCaret child
              end)
       end) (children el) None.

(** [this.field] at the root of the search: [_getCaretPosition] returns
    a position when an element has the caret, [null] otherwise. *)
Definition _getCaretPosition (field : Element) (scrollX scrollY : Num)
  : option (Num * Num) :=
  match _findElementWithCaret field with
  | Some caret =>
      Some (add (right (rect caret)) scrollX, add (bottom (rect caret)) scrollY)
  | None => None
  end.

(** [!el.getAttribute('data-atom-id')] is false for an attribute that is
    there and is not empty. *)
Definition has_atom_id (el : Element) : bool :=
  match data_atom_id el with
  | Some i => negb (String.eqb i "")
  | None => false
  end.

(** The result of [nearestElementFromPoint]. *)
Record Nearest : Type := mkNearest {
  element : option Element;
  distance : Num
}.

(** The body of [forEach] in [nearestElementFromPoint]. *)
Definition closer (nearest result : Nearest) : Nearest :=
  match element nearest with
  | Some _ => if leb (distance nearest) (distance result) then nearest else result
  | None => result
  end.

(** [nearestElementFromPoint] *)
Fixpoint nearestElementFromPoint (el : Element) (x y : Num) : Nearest :=
  let r := rect el in
  let own :=
    if has_atom_id el then
      (* Calculate the (square of the) distance to the rectangle *)
      let dx := max3 (sub (left r) x) zero (sub x (right r)) in
      let dy := max3 (sub (top r) y) zero (sub y (bottom r)) in
      mkNearest (Some el) (add (mul dx dx) (mul dy dy))
    else mkNearest None infinity in
  let considerChildren :=
    if has_atom_id el then leb (left r) x && leb x (right r) else true in
  if considerChildren then
    (fix each (l : list Element) (result : Nearest) : Nearest :=
       match l with
       | [] => result
       | child :: rest =>
           each rest (closer (nearestElementFromPoint child x y) result)
       end) (children el) own
  else own.

(** The element and the elements inside it, in document order. *)
Fixpoint descendants (el : Element) : list Element :=
  el :: (fix each (l : list Element) : list Element :=
           match l with
           | [] => []
           | child :: rest => descendants child ++ each rest
           end) (children el).

(** The square of the distance from the point to the rectangle of an
    element. *)
Definition square_distance (el : Element) (x y : Num) : Num :=
  let r := rect el in
  let dx := max3 (sub (left r) x) zero (sub x (right r)) in
  let dy := max3 (sub (top r) y) zero (sub y (bottom r)) in
  add (mul dx dx) (mul dy dy).

(** The elements the search visits: the children of an element that has
    an atom are visited only when the point is within its horizontal
    bounds. *)
Fixpoint searched (el : Element) (x : Num) : list Element :=
  el ::
  (if (if has_atom_id el then leb (left (rect el)) x && leb x (right (rect el))
       else true)
   then (fix each (l : list Element) : list Element :=
           match l with
           | [] => []
           | child :: rest => searched child x ++ each rest
           end) (children el)
   else []).

(** A result that is nearest among the elements [seen]: an element of
    [seen] that has an atom, at its distance, and no further than any
    other element of [seen] that has an atom; or no element, at an
    infinite distance, when no element of [seen] has an atom. *)
Definition nearest_among (res : Nearest) (seen : list Element) (x y : Num)
  : Prop :=
  match element res with
  | Some e =>
      In e seen ∧ has_atom_id e = true ∧
      distance res = square_distance e x y ∧
      ∀ e', In e' seen → has_atom_id e' = true →
            leb (distance res) (square_distance e' x y) = true
  | None =>
      distance res = infinity ∧
      ∀ e', In e' seen → has_atom_id e' = false
  end.

End Elements.

(** Integers with an infinity, as an instance of the numbers. *)
Inductive ExtZ : Type :=
| Fin (z : Z)
| Inf.

Definition ext2 (f : Z → Z → Z) (a b : ExtZ) : ExtZ :=
  match a, b with
  | Fin a, Fin b => Fin (f a b)
  | _, _ => Inf
  end.

Definition ext_max3 (a b c : ExtZ) : ExtZ :=
  ext2 Z.max (ext2 Z.max a b) c.

Definition ext_leb (a b : ExtZ) : bool :=
  match a, b with
  | _, Inf => true
  | Inf, Fin _ => false
  | Fin a, Fin b => (a <=? b)%Z
  end.

(** A field of two atoms side by side, the second one with the caret. *)
Definition two_atoms : Element ExtZ :=
  mkElement ExtZ ["ML__mathlive"] None
    (mkRect ExtZ (Fin 0) (Fin 20) (Fin 0) (Fin 10))
    [ mkElement ExtZ [] (Some "1")
        (mkRect ExtZ (Fin 0) (Fin 10) (Fin 0) (Fin 10)) [];
      mkElement ExtZ ["ML__caret"] (Some "2")
        (mkRect ExtZ (Fin 10) (Fin 20) (Fin 0) (Fin 10)) [] ].

End Pointer.

(** ** The inputs of the examples *)

Module Examples.

(** The field after [x] and [p] are typed in an empty field. *)
Definition field_xp : @MathField SpecModel.Mathlist :=
  snd (typedText "xp" (SpecModel.new_field ∅)).

(** A table of keystrokes with one entry, for a selector that nothing
    implements. *)
Definition matchKeystroke (mode keystroke : string) : option Command :=
  if String.eqb keystroke "Ctrl-KeyF" then Some (Selector "frobnicate")
  else None.

(** The anchor is a command atom in command mode. *)
Definition anchor_is_command (ml : SpecModel.Mathlist) : bool :=
  String.eqb (SpecModel.parseMode ml) "command".

(** A timer that has not fired. *)
Definition deferred : StM (@MathField SpecModel.Mathlist) unit := mret tt.

(** The field that holds [p], after the command bar is toggled on. *)
Definition field_bar : @MathField SpecModel.Mathlist :=
  snd (perform (Selector "toggleCommandBar") SpecModel.field_p).

(** The method behind the selector [delete_]. *)
Definition delete_method (args : list JsValue) (ml : SpecModel.Mathlist)
  : Completion unit * SpecModel.Mathlist :=
  (Normal tt, SpecModel.delete (SpecModel.count_of args) ml).

(** The atoms [x], [1] and [2] before the insertion point. *)
Definition heap_x12 : Commands.Heap :=
  Commands.mkHeap
    {[ 1%positive := Commands.mkAtomObj "mord" (Some "x");
       2%positive := Commands.mkAtomObj "mord" (Some "1");
       3%positive := Commands.mkAtomObj "mord" (Some "2") ]}
    {[ 1%positive := [1%positive; 2%positive; 3%positive] ]}
    2%positive.

Definition context_x12 : Commands.Context :=
  Commands.mkContext "math" "" "" None (Some 1%positive) None None.

(** Nothing before the insertion point. *)
Definition heap_nothing_before : Commands.Heap :=
  Commands.mkHeap ∅ {[ 1%positive := [] ]} 2%positive.

(** What [suggest] returns at the selection [A+]. *)
Definition suggestions_A_plus : list Commands.Suggestion :=
  match fst (Commands.suggest Commands.no_shortcut Commands.stringify_keys
               Commands.value_toLatex Commands.template_markup
               "math" "" "" None None (Some 1%positive) None
               Commands.heap_A_plus) with
  | Normal l => l
  | Throw _ => []
  end.

End Examples.

(** * Properties of [MathField] *)

Section MathFieldProperties.

Context {ML Frag : Type} `{!Collaborators ML Frag} `{!CommandBar ML}.

Local Abbreviation MathField := (@MathField ML).
Local Abbreviation M := (StM MathField).

(** ** Unknown selectors *)

(** C3.  A command whose selector names a function neither on the math
    list nor on the field makes [perform] return [false] normally, and
    leaves the whole state of the field as it was: the tree and the
    selection, the undo stack, the rendered markup and the flags; the
    trace records no snapshot, no call and no render. *)
Theorem perform_unknown_selector (command : Command) (st : MathField) :
  mathlist_method (selector_of command) = None →
  own_method (selector_of command) = None →
  perform command st = (Normal false, st).
Proof.
  intros Hml Hown. unfold perform. rewrite Hml, Hown. reflexivity.
Qed.

(** ** [latex] as a getter *)

(** C10.  With a falsy argument [latex] returns the serialized content
    and leaves the field as it was: no snapshot, no insertion, no
    render. *)
Theorem latex_falsy_is_getter (text : JsValue) (st : MathField) :
  truthy text = false →
  latex text st = (Normal (root_toLatex (mathlist st)), st).
Proof.
  intros Hf. unfold latex. rewrite Hf. reflexivity.
Qed.

(** ** The presentation flags after a render *)

Lemma flags_set_lookup (f : AtomRef → bool) (atoms : list AtomRef)
  (m : gmap AtomRef bool) (a : AtomRef) :
  flags_set f atoms m !! a = if decide (a ∈ atoms) then Some (f a) else m !! a.
Proof.
  unfold flags_set. revert m.
  induction atoms as [|x atoms IH] using rev_ind; intros m.
  - simpl. destruct (decide (a ∈ [])) as [Hin|]; [inversion Hin | done].
  - rewrite fold_left_app. simpl. rewrite lookup_insert.
    destruct (decide (x = a)) as [->|Hne].
    + destruct (decide (a ∈ atoms ++ [a])) as [|Hn]; [done|].
      exfalso. apply Hn. set_solver.
    + rewrite IH.
      destruct (decide (a ∈ atoms)) as [Hin|Hin],
               (decide (a ∈ atoms ++ [x])) as [Hin'|Hin']; try done.
      * exfalso. apply Hin'. apply elem_of_app. by left.
      * exfalso. apply elem_of_app in Hin' as [?|Hx]; [done|].
        apply list_elem_of_singleton in Hx. congruence.
Qed.

(** Symbolic execution of a method, one statement at a time. *)
Lemma run_bind_assoc {S A B C : Type} (m : StM S A) (k1 : A → StM S B)
  (k2 : B → StM S C) (st : S) :
  ((m ≫= k1) ≫= k2) st = (m ≫= (λ a, k1 a ≫= k2)) st.
Proof. unfold mbind, StM_bind. by destruct (m st) as [[a|e] st']. Qed.

Lemma run_bind {S A B : Type} (m : StM S A) (k : A → StM S B) (st : S) :
  (m ≫= k) st =
  match m st with
  | (Normal a, st') => k a st'
  | (Throw e, st') => (Throw e, st')
  end.
Proof. reflexivity. Qed.

Lemma run_bind_gets {S A B : Type} (f : S → A) (k : A → StM S B) (st : S) :
  (gets f ≫= k) st = k (f st) st.
Proof. reflexivity. Qed.

Lemma run_bind_modify {S B : Type} (f : S → S) (k : unit → StM S B) (st : S) :
  (modify f ≫= k) st = k tt (f st).
Proof. reflexivity. Qed.

Lemma run_bind_ret {S A B : Type} (a : A) (k : A → StM S B) (st : S) :
  (mret a ≫= k) st = k a st.
Proof. reflexivity. Qed.

Lemma run_bind_throw {S A B : Type} (e : string) (k : A → StM S B) (st : S) :
  (throw e ≫= k) st = (Throw e, st).
Proof. reflexivity. Qed.

Lemma run_bind_when {S B : Type} (b : bool) (m : StM S unit)
  (k : unit → StM S B) (st : S) :
  (when_ b m ≫= k) st = if b then (m ≫= k) st else k tt st.
Proof. by destruct b. Qed.

Lemma run_bind_if {S A B : Type} (b : bool) (m1 m2 : StM S A)
  (k : A → StM S B) (st : S) :
  ((if b then m1 else m2) ≫= k) st = if b then (m1 ≫= k) st else (m2 ≫= k) st.
Proof. by destruct b. Qed.

Lemma run_if {S A : Type} (b : bool) (m1 m2 : StM S A) (st : S) :
  (if b then m1 else m2) st = if b then m1 st else m2 st.
Proof. by destruct b. Qed.

Lemma run_gets {S A : Type} (f : S → A) (st : S) : gets f st = (Normal (f st), st).
Proof. reflexivity. Qed.

Lemma run_modify {S : Type} (f : S → S) (st : S) : modify f st = (Normal tt, f st).
Proof. reflexivity. Qed.

Lemma run_ret {S A : Type} (a : A) (st : S) : (mret a : StM S A) st = (Normal a, st).
Proof. reflexivity. Qed.

Lemma run_when {S : Type} (b : bool) (m : StM S unit) (st : S) :
  when_ b m st = if b then m st else (Normal tt, st).
Proof. by destruct b. Qed.

Ltac mnorm :=
  cbn beta iota;
  unfold set_config, set_mathlist, set_undoManager, set_suggestionIndex,
       set_pasteInProgress, set_keystrokeCaptionVisible, set_commandBarVisible,
       set_hasCaret, set_isSelected, set_dom, set_trace,
       set_popover, set_commandBar_shown, set_field_innerHTML;
  cbn [fst snd
       config mathlist undoManager suggestionIndex pasteInProgress
       keystrokeCaptionVisible commandBarVisible blurred hasCaret isSelected
       dom trace textarea_focused popover_visible popover_innerHTML
       commandBar_shown field_innerHTML].

Ltac mstep :=
  first [ rewrite run_bind_assoc | rewrite run_bind_gets
        | rewrite run_bind_modify | rewrite run_bind_ret
        | rewrite run_bind_throw | rewrite run_bind_when
        | rewrite run_bind_if
        | rewrite run_gets | rewrite run_modify | rewrite run_ret
        | rewrite run_when ];
  mnorm.

Ltac msplit :=
  match goal with
  | |- context [match Definitions_suggest ?x with _ => _ end] =>
      destruct (Definitions_suggest x) eqn:?
  end.

Ltac case_if :=
  match goal with
  | |- context [if ?b then _ else _] => destruct b eqn:?
  end.

Ltac mcbv :=
  cbv beta iota zeta delta
    [mbind mret StM_bind StM_ret gets modify throw when_ fst snd
     set_config set_mathlist set_undoManager set_suggestionIndex
     set_pasteInProgress set_keystrokeCaptionVisible set_commandBarVisible
     set_hasCaret set_isSelected set_dom set_trace
     set_popover set_commandBar_shown set_field_innerHTML
     config mathlist undoManager suggestionIndex pasteInProgress
     keystrokeCaptionVisible commandBarVisible blurred hasCaret isSelected
     dom trace textarea_focused popover_visible popover_innerHTML
     commandBar_shown field_innerHTML].

Ltac mrun :=
  unfold mbind, StM_bind, mret, StM_ret, gets, modify, when_, throw;
  unfold set_config, set_mathlist, set_undoManager, set_suggestionIndex,
    set_pasteInProgress, set_keystrokeCaptionVisible, set_commandBarVisible,
    set_hasCaret, set_isSelected, set_dom, set_trace;
  simpl.

Lemma render_loop (atoms : list AtomRef) c ml um si p k cb b hc sel d t :
  for_each atoms update_flags (mkMathField c ml um si p k cb b hc sel d t)
  = (Normal tt,
     mkMathField c ml um si p k cb b
       (flags_set (λ _, false) atoms hc) (flags_set (contains ml) atoms sel) d t).
Proof.
  revert hc sel. induction atoms as [|a atoms IH]; intros hc sel; [done|].
  cbn [for_each]. unfold mbind, StM_bind at 1. unfold update_flags at 1.
  mrun. apply IH.
Qed.

(** The state a render leaves behind. *)
Lemma render_result (st : MathField) :
  let ml := mathlist st in
  let focused := textarea_focused (dom st) in
  let hc := flags_set (λ _, false) (root_forEach ml) (hasCaret st) in
  let hc' := if focused && isCollapsed ml then <[anchor ml := true]> hc else hc in
  let sel := flags_set (contains ml) (root_forEach ml) (isSelected st) in
  _render st =
  (Normal tt,
   mkMathField (config st) ml (undoManager st) (suggestionIndex st)
     (pasteInProgress st) (keystrokeCaptionVisible st) (commandBarVisible st)
     (blurred st) hc' sel
     (set_field_innerHTML (field_markup ml hc' sel focused) (dom st))
     (trace st ++ [EvRender])).
Proof.
  destruct st as [c ml um si p k cb b hc sel d t]. simpl.
  unfold _render, log, hasFocus, scrollIntoView_. mrun.
  rewrite render_loop. simpl.
  destruct (textarea_focused d && isCollapsed ml); reflexivity.
Qed.

(** C5.  A render recomputes the flags of every atom of the tree: an atom
    is selected exactly when the selection contains it, and it has the
    caret exactly when it is the anchor, the field has the focus and the
    selection is collapsed; so at most one atom of the tree has the
    caret.  The tree and the selection are not touched. *)
Theorem render_recomputes_flags (st : MathField) :
  let ml := mathlist st in
  let st' := snd (_render st) in
  fst (_render st) = Normal tt ∧
  mathlist st' = ml ∧
  (∀ a, a ∈ root_forEach ml →
     isSelected st' !! a = Some (contains ml a) ∧
     hasCaret st' !! a =
       Some (textarea_focused (dom st) && isCollapsed ml
             && bool_decide (a = anchor ml))) ∧
  (∀ a b, a ∈ root_forEach ml → b ∈ root_forEach ml →
     hasCaret st' !! a = Some true → hasCaret st' !! b = Some true → a = b).
Proof.
  intros ml st'. subst st'. rewrite render_result. cbn [fst snd mathlist
    isSelected hasCaret]. fold ml.
  assert (Hflags : ∀ a, a ∈ root_forEach ml →
     (if textarea_focused (dom st) && isCollapsed ml
      then <[anchor ml := true]> (flags_set (λ _, false) (root_forEach ml) (hasCaret st))
      else flags_set (λ _, false) (root_forEach ml) (hasCaret st)) !! a =
       Some (textarea_focused (dom st) && isCollapsed ml
             && bool_decide (a = anchor ml))).
  { intros a Ha.
    destruct (textarea_focused (dom st) && isCollapsed ml); cbn [andb].
    - rewrite lookup_insert. case_bool_decide; case_decide; try congruence.
      rewrite flags_set_lookup. by rewrite decide_True.
    - rewrite flags_set_lookup. by rewrite decide_True. }
  split_and!; [done | done | |].
  - intros a Ha. split; [|by apply Hflags].
    rewrite flags_set_lookup. by rewrite decide_True.
  - intros a b Ha Hb. rewrite (Hflags a Ha), (Hflags b Hb).
    intros [= Ea] [= Eb].
    apply andb_prop in Ea as [_ Ea]. apply andb_prop in Eb as [_ Eb].
    apply bool_decide_eq_true in Ea, Eb. congruence.
Qed.

(** ** Snapshots before deletions *)

Lemma um_snapshot_top (um : UndoManager) (ml : ML) :
  (0 < maximumDepth um)%nat →
  ∃ below, um_stack (um_snapshot um ml) = below ++ [ml] ∧
           um_index (um_snapshot um ml) = S (length below).
Proof.
  intros Hd. unfold um_snapshot. cbn [um_stack um_index].
  set (l := take (um_index um) (um_stack um)).
  rewrite length_app. cbn [length].
  rewrite drop_app_le by lia.
  exists (drop (length l + 1 - maximumDepth um) l). split; [done|].
  rewrite length_app. cbn [length]. lia.
Qed.

Lemma um_undo_snapshot (um : UndoManager) (ml ml' : ML) :
  (0 < maximumDepth um)%nat →
  snd (um_undo (um_snapshot um ml) ml') = ml.
Proof.
  intros Hd. destruct (um_snapshot_top um ml Hd) as (below & Hs & Hi).
  unfold um_undo. rewrite Hi, Hs.
  rewrite lookup_app_r by lia. by rewrite Nat.sub_diag.
Qed.

Lemma undo_restores_snapshot (st1 : MathField) (um : UndoManager) (ml : ML) :
  undoManager st1 = um_snapshot um ml →
  (0 < maximumDepth um)%nat →
  mathlist (snd (undo_ st1)) = ml.
Proof.
  intros Hum Hd. unfold undo_, undoManager_undo, log. mrun.
  rewrite Hum.
  pose proof (um_undo_snapshot um ml (mathlist st1) Hd) as Hu.
  destruct (um_undo (um_snapshot um ml) (mathlist st1)) as [um' ml0].
  exact Hu.
Qed.

Lemma render_mathlist (st : MathField) : mathlist (snd (_render st)) = mathlist st.
Proof. by rewrite render_result. Qed.

Lemma perform_undo (st : MathField) :
  mathlist_method "undo_" = None →
  mathlist (snd (perform (Selector "undo") st)) = mathlist (snd (undo_ st)).
Proof.
  intros Hnone. unfold perform. cbn [selector_of args_of].
  change ("undo" +:+ "_") with "undo_". rewrite Hnone.
  unfold own_method, includes, undo_, undoManager_undo, log, scrollIntoView_.
  simpl. mrun. rewrite render_result. reflexivity.
Qed.

(** C6.  A selector of the delete family that the math list implements:
    [perform] pushes a snapshot of the state before it calls the method
    (the trace shows the snapshot first, and the snapshot on top of the
    stack is the state before the call), so one undo brings that state
    back, whatever the method did.  The flags are not part of the
    snapshot. *)
Theorem perform_delete_family_snapshot (command : Command)
  (m : list JsValue → ML → Completion unit * ML) (st : MathField) :
  includes delete_family (selector_of command) = true →
  mathlist_method (selector_of command) = Some m →
  (0 < maximumDepth (undoManager st))%nat →
  let st1 := snd (perform command st) in
  (∃ evs, trace st1 =
          trace st ++ EvSnapshot :: EvMathlist (selector_of command) :: evs) ∧
  last (um_stack (undoManager st1)) = Some (mathlist st) ∧
  mathlist st1 = snd (m (args_of command) (mathlist st)) ∧
  mathlist (snd (undo_ st1)) = mathlist st ∧
  (mathlist_method "undo_" = None →
   mathlist (snd (perform (Selector "undo") st1)) = mathlist st).
Proof.
  intros Hfam Hm Hd st1.
  assert (Hst1 : undoManager st1 = um_snapshot (undoManager st) (mathlist st) ∧
                 mathlist st1 = snd (m (args_of command) (mathlist st)) ∧
                 ∃ evs, trace st1 = trace st ++
                   EvSnapshot :: EvMathlist (selector_of command) :: evs).
  { subst st1. unfold perform. rewrite Hm, Hfam.
    unfold undoManager_snapshot, call_mathlist, log, scrollIntoView_. mrun.
    destruct (m (args_of command) (mathlist st)) as [[[]|e] ml'] eqn:Em; simpl.
    - rewrite render_result. simpl. split_and!; [done..|].
      exists [EvRender]. by rewrite <- !app_assoc.
    - split_and!; [done..|]. exists []. by rewrite <- !app_assoc. }
  destruct Hst1 as (Hum & Hml & Htr).
  assert (Hundo : mathlist (snd (undo_ st1)) = mathlist st)
    by (by apply (undo_restores_snapshot st1 (undoManager st))).
  split_and!; [done | | done | done |].
  - rewrite Hum. destruct (um_snapshot_top (undoManager st) (mathlist st) Hd)
      as (below & -> & _). apply last_snoc.
  - intros Hnone. by rewrite perform_undo.
Qed.

(** ** Typed characters outside the math mode *)

(** C9.  A character typed while the parse mode is not [math]: no
    shortcut is looked up and nothing is deleted; the outcome does not
    depend on the configuration.  In [command] mode no snapshot is taken
    and the only calls are those that maintain the command string and its
    suggestion; in any other mode the character is inserted after one
    snapshot. *)
Theorem typed_char_outside_math_mode (c : string)
  (locals : option string * bool) (st : MathField) :
  parseMode (mathlist st) ≠ "math" →
  let st' := snd (_onTypedText_char c locals st) in
  (∃ evs, trace st' = trace st ++ evs ∧
          forallb (λ e, negb (is_matchEndOf e) && negb (is_delete e)) evs = true) ∧
  (∀ cfg, _onTypedText_char c locals (set_config cfg st) =
          (fst (_onTypedText_char c locals st), set_config cfg st')) ∧
  (parseMode (mathlist st) = "command" →
     undoManager st' = undoManager st ∧
     ∃ evs, trace st' = trace st ++ evs ∧ forallb command_mode_event evs = true) ∧
  (parseMode (mathlist st) ≠ "command" →
     undoManager st' = um_snapshot (undoManager st) (mathlist st) ∧
     mathlist st' = insert (JsString c) JsUndefined (mathlist st)).
Proof.
  intros Hmode st'. subst st'.
  apply String.eqb_neq in Hmode.
  destruct st as [cfg ml um si p k cb b hc sel d t].
  destruct locals as [popoverText displayArrows].
  cbn [mathlist] in Hmode.
  split_and!;
    [ | intros cfg' | intros Ecmd; apply String.eqb_eq in Ecmd
      | intros Ecmd; apply String.eqb_neq in Ecmd ].
  all: unfold _onTypedText_char, _showKeystroke, _hidePopover, on_mathlist,
         undoManager_snapshot, log.
  all: cbn [mathlist] in *; mcbv; rewrite ?Hmode, ?Ecmd; mcbv.
  all: repeat (first [msplit | case_if]; mcbv).
  all: try done.
  all: try (eexists; split; [by rewrite <- !app_assoc | done]).
  all: try (split; [done | eexists; split; [by rewrite <- !app_assoc | done]]).
Qed.

(** ** A typed character that completes an inline shortcut *)

(** The calls of the branch, for every math list: the character is
    inserted first, one snapshot is taken of the state that holds the
    literal text, then [delete] is called with the length of the match
    and one more, and the substitute is inserted.  That snapshot is the
    only one of the step, and one undo brings back the state with the
    literal text. *)
Lemma typed_char_inline_shortcut (c : string)
  (locals : option string * bool) (st : MathField) (sc : ShortcutMatch) :
  parseMode (mathlist st) = "math" →
  Shortcuts_matchEndOf
    (extractGroupStringBeforeInsertionPoint (mathlist st) +:+ c) (config st)
    = Some sc →
  (0 < maximumDepth (undoManager st))%nat →
  let typed := insert (JsString c) JsUndefined (mathlist st) in
  let st' := snd (_onTypedText_char c locals st) in
  mathlist st' =
    insert (JsString (substitute sc)) JsUndefined
      (delete (- Z.of_nat (js_length (sm_match sc)) - 1)%Z typed) ∧
  undoManager st' = um_snapshot (undoManager st) typed ∧
  (∃ evs, trace st' = trace st ++ evs ++
            [EvMathlist "insert"; EvSnapshot; EvMathlist "delete";
             EvMathlist "insert"] ∧
          forallb (λ e, negb (is_snapshot e)) evs = true) ∧
  mathlist (snd (undo_ st')) = typed.
Proof.
  intros Hmode Hsc Hd typed st'.
  assert (Hst : mathlist st' =
      insert (JsString (substitute sc)) JsUndefined
        (delete (- Z.of_nat (js_length (sm_match sc)) - 1)%Z typed) ∧
    undoManager st' = um_snapshot (undoManager st) typed ∧
    (∃ evs, trace st' = trace st ++ evs ++
              [EvMathlist "insert"; EvSnapshot; EvMathlist "delete";
               EvMathlist "insert"] ∧
            forallb (λ e, negb (is_snapshot e)) evs = true)).
  { subst st' typed. destruct st as [cfg ml um si p k cb b hc sel d t].
    destruct locals as [popoverText displayArrows].
    cbn [mathlist config undoManager] in *.
    unfold _onTypedText_char, _showKeystroke, on_mathlist,
      undoManager_snapshot, log.
    destruct k; mcbv; rewrite Hmode.
    all: change (String.eqb "math" "math") with true.
    all: change (String.eqb "math" "command") with false; mcbv.
    all: rewrite ?Hsc; mcbv; rewrite ?Hmode.
    all: change (String.eqb "math" "command") with false; mcbv.
    all: rewrite ?Hsc; mcbv.
    all: split_and!; [done | done |].
    - exists [EvShowKeystroke c;
              EvMatchEndOf (extractGroupStringBeforeInsertionPoint ml +:+ c)].
      split; [by rewrite <- !app_assoc | done].
    - exists [EvMatchEndOf (extractGroupStringBeforeInsertionPoint ml +:+ c)].
      split; [by rewrite <- !app_assoc | done]. }
  destruct Hst as (Hml & Hum & Htr). split_and!; [done..|].
  by apply (undo_restores_snapshot st' (undoManager st)).
Qed.

(** ** Setting the content *)

(** [latex] with a truthy argument: the content the math list has after
    the insertion is what the field holds and what is returned. *)
Lemma latex_sets_content (text : JsValue) (st : MathField) :
  truthy text = true →
  let ml' := insert text (JsObject [("insertionMode", JsString "replaceAll");
                                    ("format", JsString "latex")])
               (mathlist st) in
  ∃ st1, latex text st = (Normal (root_toLatex ml'), st1) ∧ mathlist st1 = ml'.
Proof.
  intros Ht ml'. unfold latex. rewrite Ht.
  unfold undoManager_snapshot, on_mathlist, log. mrun.
  rewrite render_result. simpl. eexists. split; reflexivity.
Qed.

End MathFieldProperties.

(** * Properties of the command bar *)

Module CommandsFacts.
Import Commands.

Local Abbreviation C := (StM Heap).

Lemma frame_refl b h : frame b h h.
Proof. unfold frame. split_and!; [done | done | lia]. Qed.

Lemma frame_trans b h h' h'' : frame b h h' → frame b h' h'' → frame b h h''.
Proof.
  intros (Ha & Hr & Hn) (Ha' & Hr' & Hn'). split_and!.
  - congruence.
  - intros r Hlt. rewrite Hr', Hr; done.
  - lia.
Qed.

Lemma agree_frames b h1 h2 h1' h2' :
  agree b h1 h2 → frame b h1 h1' → frame b h2 h2' → agree b h1' h2'.
Proof.
  intros (Ha & Hr) (Ha1 & Hr1 & _) (Ha2 & Hr2 & _). split.
  - congruence.
  - intros r Hlt. rewrite Hr1, Hr2 by done. by apply Hr.
Qed.

Lemma valid_frame b h h' : valid b h → frame b h h' → heap_wf h' → valid b h'.
Proof. intros (_ & Hb) (_ & _ & Hn) Hwf. split; [done | lia]. Qed.

(** ** Computations that only read *)

Lemma reads_ret {A : Type} b (a : A) : reads_below b (mret a : C A).
Proof. by split. Qed.

Lemma reads_throw {A : Type} b e : reads_below b (throw e : C A).
Proof. by split. Qed.

Lemma reads_bind {A B : Type} b (m : C A) (k : A → C B) :
  reads_below b m → (∀ a, reads_below b (k a)) → reads_below b (m ≫= k).
Proof.
  intros (Hs & Hf) Hk. split.
  - intros h. unfold mbind, StM_bind. specialize (Hs h).
    destruct (m h) as [[a|e] h'] eqn:Em; simpl in Hs; subst h'; [|done].
    apply Hk.
  - intros h1 h2 Hag. unfold mbind, StM_bind.
    pose proof (Hs h1) as Hs1. pose proof (Hs h2) as Hs2.
    specialize (Hf h1 h2 Hag).
    destruct (m h1) as [r1 h1'], (m h2) as [r2 h2']. simpl in *. subst.
    destruct r2 as [a|e]; [|done]. by apply Hk.
Qed.

Lemma reads_read_atom b a : reads_below b (read_atom a).
Proof.
  split.
  - intros h. unfold read_atom. by case_match.
  - intros h1 h2 (Ha & _). unfold read_atom. rewrite Ha. by case_match.
Qed.

Lemma reads_read_array b r : (r < b)%positive → reads_below b (read_array r).
Proof.
  intros Hlt. split.
  - intros h. unfold read_array. by case_match.
  - intros h1 h2 (_ & Hr). unfold read_array. rewrite (Hr r Hlt).
    by case_match.
Qed.

Lemma reads_filter_mord b test l : reads_below b (filter_mord test l).
Proof.
  induction l as [|a l IH]; cbn [filter_mord]; [apply reads_ret|].
  apply reads_bind; [apply reads_read_atom | intros o].
  apply reads_bind; [apply IH | intros kept]. apply reads_ret.
Qed.

Lemma reads_selection_has_single b test ctx :
  (∀ r, selection ctx = Some r → (r < b)%positive) →
  reads_below b (selection_has_single test ctx).
Proof.
  intros Hsel. unfold selection_has_single.
  destruct (selection ctx) as [r|]; [|apply reads_ret].
  apply reads_bind; [apply reads_read_array; by apply Hsel | intros l].
  apply reads_bind; [apply reads_filter_mord | intros sel]. apply reads_ret.
Qed.

Lemma reads_supsubCandidate b ctx :
  (∀ r, before ctx = Some r → (r < b)%positive) →
  reads_below b (supsubCandidate ctx).
Proof.
  intros Hbef. unfold supsubCandidate.
  destruct (before ctx) as [r|]; [|apply reads_ret].
  apply reads_bind.
  { destruct (parent ctx); [|apply reads_ret].
    apply reads_bind; [apply reads_read_atom | intros; apply reads_ret]. }
  intros [|]; [|apply reads_ret].
  apply reads_bind; [apply reads_read_array; by apply Hbef | intros l].
  destruct (last l); [|apply reads_throw].
  apply reads_bind; [apply reads_read_atom | intros; apply reads_ret].
Qed.

(** ** Computations that allocate *)

Lemma good_of_reads {A : Type} b (m : C A) : reads_below b m → good b m.
Proof.
  intros (Hs & Hf) h1 h2 (Hw1 & _) (Hw2 & _) Hag.
  rewrite !Hs. split_and!; auto using frame_refl.
Qed.

Lemma good_bind {A B : Type} b (m : C A) (k : A → C B) :
  good b m → (∀ a, good b (k a)) → good b (m ≫= k).
Proof.
  intros Hm Hk h1 h2 V1 V2 Hag.
  destruct (Hm h1 h2 V1 V2 Hag) as (Hf & Hf1 & Hw1 & Hf2 & Hw2).
  unfold mbind, StM_bind.
  destruct (m h1) as [r1 h1'], (m h2) as [r2 h2']. simpl in *. subst r2.
  destruct r1 as [a|e]; [|done].
  assert (V1' : valid b h1') by eauto using valid_frame.
  assert (V2' : valid b h2') by eauto using valid_frame.
  assert (Hag' : agree b h1' h2') by eauto using agree_frames.
  destruct (Hk a h1' h2' V1' V2' Hag') as (Hg & Hg1 & Hx1 & Hg2 & Hx2).
  split_and!; eauto using frame_trans.
Qed.

Lemma alter_present {V : Type} (f : V → V) (r : positive) (x : V)
  (m : gmap positive V) :
  m !! r = Some x → alter f r m = <[r := f x]> m.
Proof.
  intros Hx. apply map_eq. intros j.
  rewrite lookup_alter, lookup_insert.
  destruct (decide (r = j)) as [->|]; [by rewrite Hx | done].
Qed.

Lemma collect_digits_run (l : list AtomRef) (r : ArrRef) (h : Heap)
  (acc : list AtomRef) :
  arrays h !! r = Some acc →
  collect_digits r l h =
  (snd (digits_run (atoms h) l),
   mkHeap (atoms h) (<[r := fst (digits_run (atoms h) l) ++ acc]> (arrays h))
     (next_array h)).
Proof.
  revert h acc. induction l as [|a l IH]; intros h acc Hacc.
  - cbn. rewrite insert_id by done. by destruct h.
  - cbn [collect_digits digits_run]. unfold mbind, StM_bind, read_atom.
    destruct (atoms h !! a) as [o|] eqn:Ea.
    2:{ cbn. rewrite insert_id by done. by destruct h. }
    destruct (String.eqb (atom_type o) "mord" && test_digit_or_dot (atom_value o)).
    2:{ cbn. rewrite insert_id by done. by destruct h. }
    unfold unshift, modify.
    rewrite (IH _ (a :: acc)); cbn [atoms arrays next_array].
    2:{ rewrite (alter_present _ _ acc) by done. apply lookup_insert_eq. }
    destruct (digits_run (atoms h) l) as [t c]. cbn [fst snd].
    rewrite (alter_present _ _ acc) by done.
    rewrite insert_insert_eq. by rewrite <- app_assoc.
Qed.

Lemma previous_from_before (x : AtomRef) (xs : list AtomRef) (h : Heap) :
  let r := next_array h in
  (result ← new_array;
   collect_digits result (rev (x :: xs));;
   found ← read_array result;
   when_ (Nat.eqb (length found) 0) (push result (List.last (x :: xs) x));;
   mret (Some result)) h =
  match snd (digits_run (atoms h) (rev (x :: xs))) with
  | Normal _ =>
      (Normal (Some r),
       mkHeap (atoms h) (<[r := digits_or_last (atoms h) x xs]> (arrays h))
         (Pos.succ r))
  | Throw e =>
      (Throw e,
       mkHeap (atoms h)
         (<[r := fst (digits_run (atoms h) (rev (x :: xs)))]> (arrays h))
         (Pos.succ r))
  end.
Proof.
  intros r. unfold mbind at 1, StM_bind at 1, new_array. fold r.
  unfold mbind at 1, StM_bind at 1.
  rewrite (collect_digits_run _ r _ []); cbn [atoms arrays next_array].
  2:{ apply lookup_insert_eq. }
  rewrite insert_insert_eq, app_nil_r. unfold digits_or_last.
  destruct (digits_run (atoms h) (rev (x :: xs))) as [t c]. cbn [fst snd].
  destruct c as [[]|e]; [|done].
  unfold mbind, StM_bind, read_array. cbn [arrays].
  rewrite lookup_insert_eq.
  destruct t as [|t0 t]; cbn [length Nat.eqb when_]; [|done].
  unfold push, modify. cbn [atoms arrays next_array].
  rewrite (alter_present _ _ []) by apply lookup_insert_eq.
  by rewrite insert_insert_eq.
Qed.

Lemma previous_run (ctx : Context) (h : Heap) :
  previousSingleCharOrDigits ctx h =
  let from_before :=
    match before ctx with
    | None => (Normal None, h)
    | Some rb =>
        match arrays h !! rb with
        | None => (Throw "TypeError", h)
        | Some [] => (Normal None, h)
        | Some (x :: xs) =>
            let r := next_array h in
            match snd (digits_run (atoms h) (rev (x :: xs))) with
            | Normal _ =>
                (Normal (Some r),
                 mkHeap (atoms h)
                   (<[r := digits_or_last (atoms h) x xs]> (arrays h)) (Pos.succ r))
            | Throw e =>
                (Throw e,
                 mkHeap (atoms h)
                   (<[r := fst (digits_run (atoms h) (rev (x :: xs)))]> (arrays h))
                   (Pos.succ r))
            end
        end
    end in
  match selection ctx with
  | None => from_before
  | Some rs =>
      match arrays h !! rs with
      | None => (Throw "TypeError", h)
      | Some [] => from_before
      | Some (_ :: _) => (Normal (Some rs), h)
      end
  end.
Proof.
  assert (Hb : ∀ sel : option (ArrRef * list AtomRef),
    (bef ← match before ctx with
           | Some r => l ← read_array r; mret (Some l)
           | None => mret None
           end;
     match bef with
     | Some (x :: xs) =>
         result ← new_array;
         collect_digits result (rev (x :: xs));;
         found ← read_array result;
         when_ (Nat.eqb (length found) 0) (push result (List.last (x :: xs) x));;
         mret (Some result)
     | _ => mret None
     end) h =
    match before ctx with
    | None => (Normal None, h)
    | Some rb =>
        match arrays h !! rb with
        | None => (Throw "TypeError", h)
        | Some [] => (Normal None, h)
        | Some (x :: xs) =>
            let r := next_array h in
            match snd (digits_run (atoms h) (rev (x :: xs))) with
            | Normal _ =>
                (Normal (Some r),
                 mkHeap (atoms h)
                   (<[r := digits_or_last (atoms h) x xs]> (arrays h)) (Pos.succ r))
            | Throw e =>
                (Throw e,
                 mkHeap (atoms h)
                   (<[r := fst (digits_run (atoms h) (rev (x :: xs)))]> (arrays h))
                   (Pos.succ r))
            end
        end
    end).
  { intros _. unfold mbind at 1, StM_bind at 1.
    destruct (before ctx) as [rb|]; [|done].
    unfold mbind at 1, StM_bind at 1, read_array.
    destruct (arrays h !! rb) as [[|x xs]|]; [done | | done].
    apply previous_from_before. }
  unfold previousSingleCharOrDigits. unfold mbind at 1, StM_bind at 1.
  destruct (selection ctx) as [rs|].
  - unfold mbind at 1, StM_bind at 1, read_array.
    destruct (arrays h !! rs) as [[|y ys]|]; [ | done | done].
    apply (Hb None).
  - apply (Hb None).
Qed.

Lemma frame_alloc b (h : Heap) (l : list AtomRef) :
  valid b h →
  frame b h (mkHeap (atoms h) (<[next_array h := l]> (arrays h))
               (Pos.succ (next_array h))).
Proof.
  intros (_ & Hb). split_and!; cbn; [done | | lia].
  intros r Hlt. apply lookup_insert_ne. lia.
Qed.

Lemma wf_alloc (h : Heap) (l : list AtomRef) :
  heap_wf h →
  heap_wf (mkHeap (atoms h) (<[next_array h := l]> (arrays h))
             (Pos.succ (next_array h))).
Proof.
  intros Hwf r. cbn. rewrite lookup_insert.
  destruct (decide (next_array h = r)) as [<-|Hne]; [lia|].
  intros Hr. specialize (Hwf r Hr). lia.
Qed.

(** ** What the conditions on the selection count *)

Lemma filter_mord_length (test : option string → bool) (l : list AtomRef)
  (objs : list AtomObj) (h : Heap) :
  Forall2 (λ a o, atoms h !! a = Some o) l objs →
  ∃ kept, filter_mord test l h = (Normal kept, h) ∧
    length kept =
    length (List.filter
              (λ o, String.eqb (atom_type o) "mord" && test (atom_value o)) objs).
Proof.
  induction 1 as [|a o l objs Ha _ (kept & Hrun & Hlen)].
  - by exists [].
  - cbn [filter_mord List.filter].
    unfold mbind, StM_bind, read_atom. rewrite Ha, Hrun. cbn.
    destruct (String.eqb (atom_type o) "mord" && test (atom_value o)).
    + exists (a :: kept). split; [done|]. cbn. by rewrite Hlen.
    + by exists kept.
Qed.

(** [selectionIsSingleUppercaseChar] holds when exactly one atom of the
    selection is an uppercase letter, however many atoms the selection
    has. *)
Lemma uppercase_condition_counts (ctx : Context) (r : ArrRef)
  (l : list AtomRef) (objs : list AtomObj) (h : Heap) :
  selection ctx = Some r →
  arrays h !! r = Some l →
  Forall2 (λ a o, atoms h !! a = Some o) l objs →
  selectionIsSingleUppercaseChar ctx h
  = (Normal (Nat.eqb (length (List.filter uppercase_mord objs)) 1), h).
Proof.
  intros Hsel Harr Hobjs.
  unfold selectionIsSingleUppercaseChar, selection_has_single. rewrite Hsel.
  unfold mbind, StM_bind, read_array. rewrite Harr.
  destruct (filter_mord_length test_upper l objs h Hobjs) as (kept & -> & Hlen).
  cbn. by rewrite Hlen.
Qed.

Section SuggestFacts.

Variable Shortcuts_getShortcutsForCommand : Command → option Keys.
Variable Shortcuts_stringify : Keys → string.
Variable Atom_toLatex : AtomRef → AtomObj → string.
Variable markup_of : string → list string → string.

Local Abbreviation latexToMarkup := (latexToMarkup Atom_toLatex markup_of).
Local Abbreviation suggest_command :=
  (suggest_command Shortcuts_getShortcutsForCommand Shortcuts_stringify
     Atom_toLatex markup_of).
Local Abbreviation suggest_loop :=
  (suggest_loop Shortcuts_getShortcutsForCommand Shortcuts_stringify
     Atom_toLatex markup_of).
Local Abbreviation suggest :=
  (suggest Shortcuts_getShortcutsForCommand Shortcuts_stringify
     Atom_toLatex markup_of).

Lemma reads_atoms_toLatex b l : reads_below b (atoms_toLatex Atom_toLatex l).
Proof.
  induction l as [|a l IH]; cbn [atoms_toLatex]; [apply reads_ret|].
  apply reads_bind; [apply reads_read_atom | intros o].
  apply reads_bind; [apply IH | intros; apply reads_ret].
Qed.

Lemma latexToMarkup_snd dyn a h : snd (latexToMarkup dyn a h) = h.
Proof.
  unfold Commands.latexToMarkup, mbind, StM_bind, read_array.
  destruct a as [r|]; [|done].
  destruct (arrays h !! r) as [[|x l]|]; [done | | done].
  pose proof (proj1 (reads_atoms_toLatex 1 (x :: l)) h) as Hs.
  destruct (atoms_toLatex Atom_toLatex (x :: l) h) as [[t|e] h']; cbn in *; by subst.
Qed.

Lemma latexToMarkup_content dyn r1 r2 h1 h2 :
  atoms h1 = atoms h2 → arrays h1 !! r1 = arrays h2 !! r2 →
  fst (latexToMarkup dyn (Some r1) h1) = fst (latexToMarkup dyn (Some r2) h2).
Proof.
  intros Ha Hr.
  unfold Commands.latexToMarkup, mbind, StM_bind, read_array. rewrite Hr.
  destruct (arrays h2 !! r2) as [[|x l]|]; [done | | done].
  assert (Hag : agree 1 h1 h2) by (split; [done | intros r Hlt; lia]).
  pose proof (proj2 (reads_atoms_toLatex 1 (x :: l)) h1 h2 Hag) as Hf.
  destruct (atoms_toLatex Atom_toLatex (x :: l) h1) as [[t1|e1] h1'],
           (atoms_toLatex Atom_toLatex (x :: l) h2) as [[t2|e2] h2'];
    cbn in *; congruence.
Qed.

Lemma reads_latexToMarkup b dyn a :
  (∀ r, a = Some r → (r < b)%positive) → reads_below b (latexToMarkup dyn a).
Proof.
  intros Hlt. split; [intros h; apply latexToMarkup_snd|].
  intros h1 h2 (Ha & Hr). destruct a as [r|].
  - apply latexToMarkup_content; [done | apply Hr; by apply Hlt].
  - done.
Qed.

Lemma bind_markup_run {B : Type} dyn a (g : string → B) h :
  (m ← latexToMarkup dyn a; mret (g m)) h =
  (match fst (latexToMarkup dyn a h) with
   | Normal m => Normal (g m)
   | Throw e => Throw e
   end, h).
Proof.
  unfold mbind, StM_bind. pose proof (latexToMarkup_snd dyn a h) as Hs.
  destruct (latexToMarkup dyn a h) as [[m|e] h']; cbn in *; by subst.
Qed.

Lemma good_previous_markup {B : Type} b ctx dyn (g : string → B) :
  context_below b ctx →
  good b (a ← previousSingleCharOrDigits ctx;
          m ← latexToMarkup dyn a; mret (g m)).
Proof.
  intros Hctx h1 h2 V1 V2 (Ha & Hr).
  rewrite !(run_bind (previousSingleCharOrDigits ctx)).
  rewrite !previous_run. cbv zeta.
  assert (Hdone : ∀ a1 a2 (h1' h2' : Heap),
    fst (latexToMarkup dyn a1 h1') = fst (latexToMarkup dyn a2 h2') →
    frame b h1 h1' → heap_wf h1' → frame b h2 h2' → heap_wf h2' →
    ((m ← latexToMarkup dyn a1; mret (g m)) h1').1 =
    ((m ← latexToMarkup dyn a2; mret (g m)) h2').1 ∧
    frame b h1 ((m ← latexToMarkup dyn a1; mret (g m)) h1').2 ∧
    heap_wf ((m ← latexToMarkup dyn a1; mret (g m)) h1').2 ∧
    frame b h2 ((m ← latexToMarkup dyn a2; mret (g m)) h2').2 ∧
    heap_wf ((m ← latexToMarkup dyn a2; mret (g m)) h2').2).
  { intros a1 a2 h1' h2' Hf F1 W1 F2 W2. rewrite !bind_markup_run. cbn [fst snd].
    rewrite Hf. done. }
  assert (Hbefore :
    let run h :=
      match
        match before ctx with
        | None => (Normal None, h)
        | Some rb =>
            match arrays h !! rb with
            | None => (Throw "TypeError", h)
            | Some [] => (Normal None, h)
            | Some (x :: xs) =>
                match snd (digits_run (atoms h) (rev (x :: xs))) with
                | Normal _ =>
                    (Normal (Some (next_array h)),
                     mkHeap (atoms h)
                       (<[next_array h := digits_or_last (atoms h) x xs]> (arrays h))
                       (Pos.succ (next_array h)))
                | Throw e =>
                    (Throw e,
                     mkHeap (atoms h)
                       (<[next_array h := fst (digits_run (atoms h) (rev (x :: xs)))]>
                          (arrays h))
                       (Pos.succ (next_array h)))
                end
            end
        end
      with
      | (Normal a, st') => (m ← latexToMarkup dyn a; mret (g m)) st'
      | (Throw e, st') => (Throw e, st')
      end in
    (run h1).1 = (run h2).1 ∧ frame b h1 (run h1).2 ∧ heap_wf (run h1).2 ∧
    frame b h2 (run h2).2 ∧ heap_wf (run h2).2).
  { cbv zeta. destruct (before ctx) as [rb|] eqn:Eb.
    2:{ apply Hdone; auto using frame_refl; try apply V1; try apply V2. }
    rewrite (Hr rb) by (apply Hctx; auto).
    destruct (arrays h2 !! rb) as [[|x xs]|].
    - apply Hdone; auto using frame_refl; try apply V1; try apply V2.
    - assert (Hd : digits_run (atoms h1) (rev (x :: xs)) =
                   digits_run (atoms h2) (rev (x :: xs))) by (by rewrite Ha).
      assert (Hl : digits_or_last (atoms h1) x xs = digits_or_last (atoms h2) x xs)
        by (by rewrite Ha).
      rewrite Hd.
      destruct (digits_run (atoms h2) (rev (x :: xs))) as [t [[]|e]]; cbn [fst snd].
      + apply Hdone; auto using frame_alloc, wf_alloc; try apply wf_alloc;
          try apply V1; try apply V2.
        apply latexToMarkup_content; cbn; [done|].
        by rewrite !lookup_insert_eq, Hl.
      + split_and!; auto using frame_alloc, wf_alloc; try apply wf_alloc;
          try apply V1; try apply V2.
    - split_and!; auto using frame_refl; try apply V1; try apply V2. }
  cbv zeta in Hbefore.
  destruct (selection ctx) as [rs|] eqn:Es; [|exact Hbefore].
  rewrite (Hr rs) by (apply Hctx; auto).
  destruct (arrays h2 !! rs) as [[|y ys]|] eqn:E2.
  - exact Hbefore.
  - apply Hdone; auto using frame_refl; try apply V1; try apply V2.
    apply latexToMarkup_content; [done|]. apply Hr, Hctx; auto.
  - split_and!; auto using frame_refl; try apply V1; try apply V2.
Qed.

Lemma reads_ret_bind {A B : Type} b (x : A) (k : A → C B) :
  reads_below b (k x) → reads_below b (mret x ≫= k).
Proof. done. Qed.

Lemma good_suggest_command b ctx command :
  context_below b ctx →
  (∀ cond, condition command = Some cond → reads_below b (cond ctx)) →
  (∀ f, arg command = Some f → f = previousSingleCharOrDigits) →
  good b (suggest_command ctx command).
Proof.
  intros Hctx Hcond Harg. unfold Commands.suggest_command.
  apply good_bind.
  { apply good_of_reads. destruct (condition command) as [cond|];
      [by apply Hcond | apply reads_ret]. }
  intros [|]; [|apply good_of_reads, reads_ret].
  apply good_bind; [|intros; apply good_of_reads, reads_ret].
  destruct (dynamicLabel command) as [dyn|]; [|apply good_of_reads, reads_ret].
  destruct (arg command) as [f|] eqn:Ef.
  - rewrite (Harg f eq_refl). apply good_previous_markup.
    intros r Hr. apply Hctx. exact Hr.
  - apply good_of_reads, reads_ret_bind.
    apply reads_bind; [|intros; apply reads_ret].
    apply reads_latexToMarkup. intros r Hr. apply Hctx. by right.
Qed.

Lemma good_commands b ctx :
  context_below b ctx →
  Forall (λ command, good b (suggest_command ctx command)) COMMANDS.
Proof.
  intros Hctx.
  assert (Hsingle : ∀ test, reads_below b (selection_has_single test ctx)).
  { intros test. apply reads_selection_has_single. intros r Hr.
    apply Hctx. by right. }
  assert (Hsupsub : reads_below b (supsubCandidate ctx)).
  { apply reads_supsubCandidate. intros r Hr. apply Hctx. by left. }
  unfold COMMANDS.
  repeat (apply Forall_cons; split;
    [ apply good_suggest_command;
      [ done
      | cbn; intros cond Hc; inversion Hc; subst; clear Hc;
        first [ apply Hsingle | apply Hsupsub | apply reads_ret ]
      | cbn; intros f Hf; by inversion Hf ]
    | ]).
  apply Forall_nil_2.
Qed.

Lemma good_suggest_loop b ctx commands :
  Forall (λ command, good b (suggest_command ctx command)) commands →
  good b (suggest_loop ctx commands).
Proof.
  induction 1 as [|command commands Hc _ IH]; cbn [Commands.suggest_loop].
  - apply good_of_reads, reads_ret.
  - apply good_bind; [done | intros entry].
    apply good_bind; [done | intros entries]. apply good_of_reads, reads_ret.
Qed.

(** ** Which commands [suggest] offers *)

Lemma In_insert_by_utility (x y : Suggestion) (l : list Suggestion) :
  In y (insert_by_utility x l) ↔ y = x ∨ In y l.
Proof.
  induction l as [|z l IH]; cbn.
  - intuition congruence.
  - destruct (s_utility z <=? s_utility x)%Z; cbn; [intuition congruence|].
    rewrite IH. intuition congruence.
Qed.

Lemma In_sort_by_utility (y : Suggestion) (l : list Suggestion) :
  In y (sort_by_utility l) ↔ In y l.
Proof.
  unfold sort_by_utility. induction l as [|x l IH]; cbn; [done|].
  rewrite In_insert_by_utility, IH. intuition congruence.
Qed.

(** What one command adds to the list: itself when its condition
    holds, nothing otherwise. *)
Lemma suggest_command_entry ctx command h entry h' :
  suggest_command ctx command h = (Normal entry, h') →
  ∃ ok : bool,
    match condition command with
    | None => ok = true
    | Some cond => fst (cond ctx h) = Normal ok
    end ∧
    map s_selector entry = if ok then [selector command] else [].
Proof.
  unfold Commands.suggest_command, mbind, StM_bind. intros H.
  set (c := match condition command with
            | Some cond => cond ctx
            | None => mret true
            end) in H.
  assert (Hc : ∀ ok h1, c h = (Normal ok, h1) →
            match condition command with
            | None => ok = true
            | Some cond => fst (cond ctx h) = Normal ok
            end).
  { subst c. intros ok h1. destruct (condition command) as [cond|].
    - by intros ->.
    - by intros [= <- _]. }
  destruct (c h) as [[ok|e] h1]; [|done].
  exists ok. split; [by apply (Hc ok h1)|].
  destruct ok; [|by injection H as <- _].
  match type of H with
  | match ?m h1 with _ => _ end = _ => destruct (m h1) as [[lbl|e] h2]
  end; [|done].
  by injection H as <- _.
Qed.

Lemma suggest_loop_offers b ctx commands :
  Forall (λ command,
    good b (suggest_command ctx command) ∧
    ∀ cond, condition command = Some cond → reads_below b (cond ctx)) commands →
  ∀ h0 h res h',
    valid b h → agree b h h0 →
    suggest_loop ctx commands h = (Normal res, h') →
    ∀ s, In s (map s_selector res) ↔
         ∃ command, In command commands ∧ selector command = s
                    ∧ enabled ctx command h0.
Proof.
  induction 1 as [|command commands [Hgood Hreads] _ IH];
    intros h0 h res h' V Hag Hrun s.
  - injection Hrun as <- _. cbn. split; [done | by intros (c & [] & _)].
  - cbn [Commands.suggest_loop] in Hrun. unfold mbind, StM_bind in Hrun.
    destruct (suggest_command ctx command h) as [[entry|e] h1] eqn:E1; [|done].
    destruct (suggest_loop ctx commands h1) as [[entries|e] h2] eqn:E2; [|done].
    injection Hrun as <- _.
    destruct (Hgood h h V V) as (_ & Hf & Hw & _); [by split|].
    rewrite E1 in Hf, Hw. cbn [snd] in Hf, Hw.
    assert (V1 : valid b h1) by eauto using valid_frame.
    assert (Hag1 : agree b h1 h0) by eauto using agree_frames, frame_refl.
    rewrite map_app, in_app_iff, (IH h0 h1 entries h2 V1 Hag1 E2 s).
    destruct (suggest_command_entry _ _ _ _ _ E1) as (ok & Hok & ->).
    assert (Hen : ok = true ↔ enabled ctx command h0).
    { unfold enabled. destruct (condition command) as [cond|]; [|done].
      destruct (Hreads cond eq_refl) as [_ Hsame].
      rewrite <- (Hsame h h0 Hag), Hok. split; [by intros -> | by intros [= ->]]. }
    split.
    + intros [Hin|(c & Hc & Hs & He)].
      * destruct ok; [|done]. destruct Hin as [<-|[]].
        exists command. split_and!; [by left | done | by apply Hen].
      * exists c. split_and!; [by right | done | done].
    + intros (c & [<-|Hc] & Hs & He).
      * left. apply Hen in He. subst ok. by left.
      * right. by exists c.
Qed.

Lemma conditions_read b ctx :
  context_below b ctx →
  Forall (λ command,
    ∀ cond, condition command = Some cond → reads_below b (cond ctx)) COMMANDS.
Proof.
  intros Hctx.
  assert (Hsingle : ∀ test, reads_below b (selection_has_single test ctx)).
  { intros test. apply reads_selection_has_single. intros r Hr.
    apply Hctx. by right. }
  assert (Hsupsub : reads_below b (supsubCandidate ctx)).
  { apply reads_supsubCandidate. intros r Hr. apply Hctx. by left. }
  unfold COMMANDS.
  repeat (apply Forall_cons; split;
    [ cbn; intros cond Hc; inversion Hc; subst; clear Hc;
      first [ apply Hsingle | apply Hsupsub | apply reads_ret ]
    | ]).
  apply Forall_nil_2.
Qed.

(** [Blackboard] is the one command with its selector. *)
Lemma blackboard_command (command : CommandDesc) :
  In command COMMANDS → selector command = blackboard_selector →
  condition command = Some selectionIsSingleUppercaseChar.
Proof.
  unfold COMMANDS, blackboard_selector. cbn [In].
  intros H Hs. repeat (destruct H as [<-|H]; [try done; try discriminate Hs|]).
  done.
Qed.

(** When [suggest] returns, [Blackboard] is among the commands it offers
    exactly when one and only one atom of the selection is an uppercase
    letter; the other atoms of the selection are not looked at. *)
Lemma blackboard_offered_iff (parsemode environment modifiers : string)
  (parent : option AtomRef) (before after : option ArrRef) (r : ArrRef)
  (l : list AtomRef) (objs : list AtomObj) (h : Heap) (res : list Suggestion) :
  heap_wf h →
  context_allocated h before (Some r) after →
  arrays h !! r = Some l →
  Forall2 (λ a o, atoms h !! a = Some o) l objs →
  fst (suggest parsemode environment modifiers parent before (Some r) after h)
    = Normal res →
  (In blackboard_selector (map s_selector res)
   ↔ length (List.filter uppercase_mord objs) = 1%nat).
Proof.
  intros Hwf Halloc Harr Hobjs Hrun.
  set (b := next_array h).
  set (ctx := mkContext parsemode environment modifiers parent
                before (Some r) after).
  assert (Hctx : context_below b ctx).
  { intros x Hx. apply Hwf, Halloc. cbn in Hx. tauto. }
  assert (V : valid b h) by (split; [done | subst b; lia]).
  unfold Commands.suggest, mbind, StM_bind in Hrun. fold ctx in Hrun.
  destruct (suggest_loop ctx COMMANDS h) as [[entries|e] h1] eqn:E; [|done].
  cbn in Hrun. injection Hrun as <-.
  assert (Hall : Forall (λ command,
    good b (suggest_command ctx command) ∧
    ∀ cond, condition command = Some cond → reads_below b (cond ctx)) COMMANDS).
  { apply Forall_and. split; [by apply good_commands | by apply conditions_read]. }
  pose proof (suggest_loop_offers b ctx COMMANDS Hall h h entries h1 V
                ltac:(done) E blackboard_selector) as Hoff.
  assert (Hsort : In blackboard_selector (map s_selector (sort_by_utility entries))
                  ↔ In blackboard_selector (map s_selector entries)).
  { rewrite !in_map_iff. by setoid_rewrite In_sort_by_utility. }
  rewrite Hsort, Hoff.
  pose proof (uppercase_condition_counts ctx r l objs h eq_refl Harr Hobjs) as Hcond.
  split.
  - intros (command & Hin & Hs & He). unfold enabled in He.
    rewrite (blackboard_command command Hin Hs), Hcond in He.
    cbn in He. injection He as He. by apply Nat.eqb_eq.
  - intros Hone.
    exists (styled "Blackboard" "\mathbb{#0}" 500 selectionIsSingleUppercaseChar).
    split_and!; [unfold COMMANDS; cbn; tauto | done |].
    unfold enabled. cbn [condition styled]. rewrite Hcond. cbn.
    by rewrite Hone.
Qed.

(** C8.  [suggest] on a well-formed heap, with a context whose arrays are
    allocated: the atoms and every array that existed before the call are
    left as they were (the arrays [suggest] writes to are those it
    allocated itself), and a second call with the same arguments returns
    the same list, or throws the same error. *)
Theorem suggest_is_pure_lookup (parsemode environment modifiers : string)
  (parent : option AtomRef) (before selection after : option ArrRef) (h : Heap) :
  heap_wf h →
  context_allocated h before selection after →
  let run := suggest parsemode environment modifiers parent
               before selection after in
  let h' := snd (run h) in
  atoms h' = atoms h ∧
  (∀ r, is_Some (arrays h !! r) → arrays h' !! r = arrays h !! r) ∧
  fst (run h') = fst (run h).
Proof.
  intros Hwf Halloc run h'.
  set (b := next_array h).
  set (ctx := mkContext parsemode environment modifiers parent
                before selection after).
  assert (Hctx : context_below b ctx).
  { intros r Hr. apply Hwf, Halloc. cbn in Hr. tauto. }
  assert (Hgood : good b run).
  { subst run. unfold Commands.suggest. fold ctx.
    apply good_bind; [|intros; apply good_of_reads, reads_ret].
    by apply good_suggest_loop, good_commands. }
  assert (V : valid b h) by (split; [done | subst b; lia]).
  assert (Hag : agree b h h) by done.
  destruct (Hgood h h V V Hag) as (_ & Hf & Hwf' & _). fold h' in Hf, Hwf'.
  destruct Hf as (Ha & Hr & Hn).
  split_and!; [done | intros r Hs; by apply Hr, Hwf |].
  assert (V' : valid b h') by (split; [done | lia]).
  assert (Hag' : agree b h' h) by (split; [done | intros r Hlt; by apply Hr]).
  by destruct (Hgood h' h V' V Hag') as (Hres & _).
Qed.

(** C7, at the selection [A+]: the selection holds two atoms, one of
    them an uppercase letter, and [suggest] offers [Blackboard].  At the
    selection [AB], of two uppercase letters, the condition does not
    hold. *)
Theorem blackboard_offered_for_two_atoms :
  atoms heap_A_plus !! 1%positive = Some (mkAtomObj "mord" (Some "A")) ∧
  atoms heap_A_plus !! 2%positive = Some (mkAtomObj "mbin" (Some "+")) ∧
  arrays heap_A_plus !! 1%positive = Some [1%positive; 2%positive] ∧
  fst (selectionIsSingleUppercaseChar
         (mkContext "math" "" "" None None (Some 1%positive) None) heap_A_plus)
    = Normal true ∧
  (∃ l, fst (suggest "math" "" "" None None (Some 1%positive) None heap_A_plus)
         = Normal l ∧
       In blackboard_selector (map s_selector l)) ∧
  fst (selectionIsSingleUppercaseChar
         (mkContext "math" "" "" None None (Some 1%positive) None) heap_A_B)
    = Normal false.
Proof.
  split_and!; [done | done | done | done | | done].
  eexists. split; [vm_compute; reflexivity|].
  cbn. tauto.
Qed.

End SuggestFacts.

End CommandsFacts.


Module TexFacts.
Import Tex.

(** ** Strings *)

Lemma append_nil_l (t : string) : "" +:+ t = t.
Proof. reflexivity. Qed.

Lemma append_cons (c : ascii) (s t : string) :
  String c s +:+ t = String c (s +:+ t).
Proof. reflexivity. Qed.

Lemma append_nil_r (s : string) : s +:+ "" = s.
Proof. induction s as [|c s IH]; [done|]. by rewrite append_cons, IH. Qed.

Lemma append_assoc (s t u : string) : (s +:+ t) +:+ u = s +:+ t +:+ u.
Proof.
  induction s as [|c s IH]; [done|]. by rewrite !append_cons, IH.
Qed.

(** ** Reading back what [render] wrote *)

Lemma lex_word_letters (name : string) (acc : string) (d : nat) (tail : string) :
  string_forall is_letter name = true →
  lex (LWord acc) d (name +:+ tail) = lex (LWord (acc +:+ name)) d tail.
Proof.
  revert acc. induction name as [|c name IH]; intros acc Hl.
  - by rewrite append_nil_l, append_nil_r.
  - cbn in Hl. apply andb_prop in Hl as [Hc Hn].
    rewrite append_cons. cbn [lex]. rewrite Hc, IH by done.
    by rewrite append_assoc.
Qed.

Lemma lex_word_end (acc : string) (d : nat) (tail : string) :
  no_letter_first tail = true →
  lex (LWord acc) d tail = TCommand acc :: lex LNormal d tail.
Proof.
  destruct tail as [|c tail]; cbn; [done|].
  intros Hc. apply negb_true_iff in Hc. by rewrite Hc.
Qed.

Lemma letter_not_backslash c : is_letter c = true → Ascii.eqb c backslash = false.
Proof.
  intros Hl. destruct (Ascii.eqb c backslash) eqn:E; [|done].
  apply Ascii.eqb_eq in E. subst. discriminate.
Qed.

Lemma render_no_letter_first (ts : list Token) :
  starts_with_letter ts = false → no_letter_first (render ts) = true.
Proof.
  destruct ts as [|[name|c| | | | |] ts]; cbn; try done.
  intros ->. done.
Qed.

Lemma lex_render (ts : list Token) (d : nat) :
  forallb lexable ts = true →
  lex LNormal d (render ts) = ts ++ repeat TClose (depth_of d ts).
Proof.
  revert d. induction ts as [|t ts IH]; intros d Hl; [done|].
  cbn [forallb] in Hl. apply andb_prop in Hl as [Ht Hts].
  destruct t as [name|c| | | | |]; cbn [render lexable] in *.
  - (* a control sequence *)
    unfold lexable_name in Ht. rewrite append_cons. cbn [lex].
    rewrite Ascii.eqb_refl.
    destruct (is_word name) eqn:Hw.
    + (* a control word *)
      destruct name as [|c name]; [done|]. cbn [is_word string_forall] in Hw.
      apply andb_prop in Hw as [Hc Hn].
      rewrite append_cons. cbn [lex]. rewrite Hc.
      rewrite lex_word_letters by done. cbn [andb].
      change (String c "" +:+ name) with (String c name).
      destruct (starts_with_letter ts) eqn:Hs.
      * change (" " +:+ render ts) with (String " " (render ts)).
        cbn. rewrite IH by done. done.
      * rewrite append_nil_l. rewrite lex_word_end
          by (by apply render_no_letter_first).
        rewrite IH by done. done.
    + (* a control symbol *)
      cbn [orb] in Ht. destruct name as [|c [|]]; try done.
      apply negb_true_iff in Ht. rewrite append_cons, !append_nil_l.
      cbn. rewrite Ht. by rewrite IH.
  - (* a character *)
    unfold plain_char in Ht.
    destruct (lex_char c) as [[]|] eqn:Hc; try done.
    apply negb_true_iff in Ht. cbn [lex]. rewrite Ht, Hc.
    cbn [emit depth_after]. rewrite IH by done.
    assert (c0 = c) as ->.
    { unfold lex_char in Hc. repeat case_match; congruence. }
    done.
  - cbn. by rewrite IH.
  - cbn. by rewrite IH.
  - cbn. by rewrite IH.
  - cbn. by rewrite IH.
  - cbn. by rewrite IH.
Qed.

(** ** The tokens of the lexer *)

Lemma string_forall_app (p : ascii → bool) (s t : string) :
  string_forall p (s +:+ t) = string_forall p s && string_forall p t.
Proof.
  induction s as [|c s IH]; [done|].
  rewrite append_cons. cbn. by rewrite IH, andb_assoc.
Qed.

Lemma is_word_snoc (acc : string) (c : ascii) :
  is_word acc = true → is_letter c = true →
  is_word (acc +:+ String c EmptyString) = true.
Proof.
  intros Hacc Hc. destruct acc as [|a acc]; [done|].
  rewrite append_cons. cbn [is_word] in *.
  change (String a (acc +:+ String c "")) with (String a acc +:+ String c "").
  rewrite string_forall_app, Hacc. cbn. by rewrite Hc.
Qed.

Lemma lexed_closes (d : nat) : forallb lexed (repeat TClose d) = true.
Proof. induction d; [done|]. done. Qed.

Lemma lexed_lex_char (c : ascii) (t : Token) :
  Ascii.eqb c backslash = false → lex_char c = Some t → lexed t = true.
Proof.
  intros Hb Hc. unfold lex_char in Hc.
  repeat case_match; simplify_eq; try done.
  cbn. unfold plain_char, lex_char. rewrite Hb. by repeat case_match.
Qed.

Lemma lex_lexed (s : string) (st : LexState) (d : nat) :
  (∀ acc, st = LWord acc → is_word acc = true) →
  forallb lexed (lex st d s) = true.
Proof.
  revert st d. induction s as [|c s IH]; intros st d Hst.
  - cbn [lex]. rewrite forallb_app, lexed_closes, andb_true_r.
    destruct st as [| |acc]; try done.
    cbn. destruct acc; [done|]. unfold lexable_name.
    by rewrite (Hst _ eq_refl).
  - assert (Hnormal : forallb lexed
      (if Ascii.eqb c backslash then lex LBackslash d s
       else emit (lex_char c) (lex LNormal (depth_after d (lex_char c)) s)) = true).
    { destruct (Ascii.eqb c backslash) eqn:Hb; [by apply IH|].
      destruct (lex_char c) as [t|] eqn:Hc; cbn [emit]; [|by apply IH].
      cbn [forallb]. rewrite (lexed_lex_char c t) by done. by apply IH. }
    cbn [lex]. destruct st as [| |acc].
    + exact Hnormal.
    + destruct (is_letter c) eqn:Hl.
      * apply IH. intros acc [= <-]. cbn. by rewrite Hl.
      * cbn [forallb]. rewrite IH by done.
        cbn. unfold lexable_name. cbn. by rewrite Hl.
    + pose proof (Hst acc eq_refl) as Hacc. destruct (is_letter c) eqn:Hl.
      * apply IH. intros acc' [= <-]. by apply is_word_snoc.
      * cbn [forallb]. rewrite Hnormal, andb_true_r.
        cbn. destruct acc; [done|]. unfold lexable_name. by rewrite Hacc.
Qed.

Lemma tokenize_lexed (s : string) : forallb lexed (tokenize s) = true.
Proof. apply lex_lexed. intros acc. discriminate. Qed.

(** ** The shape of the serializer *)

Lemma atom_tokens_eq k v args sup sub :
  atom_tokens (mkAtom k v args sup sub) =
  body_tokens k v args ++ script_tokens TSup sup ++ script_tokens TSub sub.
Proof. destruct k; reflexivity. Qed.

Lemma clean_atom_eq k v args sup sub :
  clean_atom (mkAtom k v args sup sub) =
  match k with KUnknown | KError => false | _ => true end
  && cleans args && clean_script sup && clean_script sub.
Proof. reflexivity. Qed.

(** Induction on atoms, through their arguments and scripts. *)
Lemma Atom_ind' (P : Atom → Prop) :
  (∀ k v args sup sub,
     Forall (Forall P) args →
     (∀ s, sup = Some s → Forall P s) →
     (∀ s, sub = Some s → Forall P s) →
     P (mkAtom k v args sup sub)) →
  ∀ a, P a.
Proof.
  intros H. fix IH 1. intros [k v args sup sub].
  apply H.
  - induction args as [|l args IHa]; constructor; [|exact IHa].
    induction l as [|x l IHl]; constructor; [apply IH | exact IHl].
  - destruct sup as [s0|]; intros s Hs; [|discriminate].
    injection Hs as <-.
    induction s0 as [|x l IHl]; constructor; [apply IH | exact IHl].
  - destruct sub as [s0|]; intros s Hs; [|discriminate].
    injection Hs as <-.
    induction s0 as [|x l IHl]; constructor; [apply IH | exact IHl].
Qed.

Section Facts.

Variable symbols : string → option nat.

Local Abbreviation parse_list := (parse_list symbols []).
Local Abbreviation parse_primary := (parse_primary symbols []).
Local Abbreviation parse_arg := (parse_arg symbols []).
Local Abbreviation parse_args := (parse_args symbols []).
Local Abbreviation ok_atom := (ok_atom symbols).
Local Abbreviation ok_from := (ok_from symbols).
Local Abbreviation ok := (ok symbols).
Local Abbreviation oks := (oks symbols).
Local Abbreviation ok_script := (ok_script symbols).
Local Abbreviation mono_list := (Tex.mono_list symbols).
Local Abbreviation mono_primary := (Tex.mono_primary symbols).
Local Abbreviation mono_arg := (Tex.mono_arg symbols).
Local Abbreviation mono_args := (Tex.mono_args symbols).
Local Abbreviation reads_back := (Tex.reads_back symbols).
Local Abbreviation fine_atom := (Tex.fine_atom symbols).
Local Abbreviation ok_acc := (Tex.ok_acc symbols).
Local Abbreviation sound_acc := (Tex.sound_acc symbols).
Local Abbreviation sound_list := (Tex.sound_list symbols).
Local Abbreviation sound_primary := (Tex.sound_primary symbols).
Local Abbreviation sound_arg := (Tex.sound_arg symbols).
Local Abbreviation sound_args := (Tex.sound_args symbols).

Lemma ok_atom_eq k v args sup sub :
  ok_atom (mkAtom k v args sup sub) =
  match k with
  | KChar =>
      match v with
      | String c EmptyString => plain_char c
      | _ => false
      end && Nat.eqb (length args) 0
  | KCommand =>
      lexable_name v &&
      match symbols v with
      | Some n => Nat.eqb n (length args)
      | None => false
      end
  | KGroup => String.eqb v "" && Nat.eqb (length args) 1
  | KPlaceholder =>
      String.eqb v "" && Nat.eqb (length args) 0 && (is_some sup || is_some sub)
  | KAlign => String.eqb v "" && Nat.eqb (length args) 0
  | KUnknown | KError => false
  end
  && oks args && ok_script sup && ok_script sub.
Proof. reflexivity. Qed.

(** ** More fuel changes nothing *)

Lemma argument_ref_nil (ts : list Token) : argument_ref [] ts = None.
Proof.
  destruct ts as [|[| | | | | |] [|[| | | | | |] ts]]; try done.
  cbn. by destruct (Ascii.eqb c "#" && is_digit c0).
Qed.

(** ** One step of each parsing function *)

Lemma parse_list_S fuel top acc ts :
  parse_list (S fuel) top acc ts =
  match ts with
  | [] => Some (rev acc, [])
  | TClose :: rest =>
      if top then parse_list fuel top (leaf KError "}" :: acc) rest
      else Some (rev acc, rest)
  | TSup :: rest =>
      '(arg, rest') ← parse_arg fuel rest;
      match arg, acc with
      | None, _ => parse_list fuel top (leaf KError "^" :: acc) rest
      | Some s, [] =>
          parse_list fuel top [set_superscript s (leaf KPlaceholder "")] rest'
      | Some s, prev :: acc' =>
          match superscript prev with
          | Some _ => parse_list fuel top (leaf KError "^" :: acc) rest
          | None => parse_list fuel top (set_superscript s prev :: acc') rest'
          end
      end
  | TSub :: rest =>
      '(arg, rest') ← parse_arg fuel rest;
      match arg, acc with
      | None, _ => parse_list fuel top (leaf KError "_" :: acc) rest
      | Some s, [] =>
          parse_list fuel top [set_subscript s (leaf KPlaceholder "")] rest'
      | Some s, prev :: acc' =>
          match subscript prev with
          | Some _ => parse_list fuel top (leaf KError "_" :: acc) rest
          | None => parse_list fuel top (set_subscript s prev :: acc') rest'
          end
      end
  | _ =>
      '(a, rest) ← parse_primary fuel ts;
      parse_list fuel top (a :: acc) rest
  end.
Proof.
  destruct ts as [|[name|c| | | | |] ts]; try reflexivity.
  all: change (parse_list (S fuel) top acc ?l) with
    (match argument_ref [] l with
     | Some (l', rest) => parse_list fuel top (rev l' ++ acc) rest
     | None => '(a, rest) ← parse_primary fuel l;
               parse_list fuel top (a :: acc) rest
     end).
  all: by rewrite argument_ref_nil.
Qed.

Lemma parse_primary_S fuel ts :
  parse_primary (S fuel) ts =
  match ts with
  | TChar c :: rest => Some (leaf KChar (String c EmptyString), rest)
  | TAlign :: rest => Some (leaf KAlign "", rest)
  | TOpen :: rest =>
      '(body, rest') ← parse_list fuel false [] rest;
      Some (mkAtom KGroup "" [body] None None, rest')
  | TCommand name :: rest =>
      match symbols name with
      | None => Some (leaf KUnknown name, rest)
      | Some n =>
          if String.eqb name "" then Some (leaf KError "\", rest)
          else
            '(found, rest') ← parse_args fuel n rest;
            match found with
            | Some l => Some (mkAtom KCommand name l None None, rest')
            | None => Some (leaf KUnknown name, rest)
            end
      end
  | _ :: rest => Some (leaf KError "", rest)
  | [] => Some (leaf KError "", [])
  end.
Proof. reflexivity. Qed.

Lemma parse_arg_S fuel ts :
  parse_arg (S fuel) ts =
  match ts with
  | TOpen :: rest =>
      '(body, rest') ← parse_list fuel false [] rest;
      Some (Some body, rest')
  | TCommand _ :: _ =>
      '(a, rest') ← parse_primary fuel ts;
      Some (Some [a], rest')
  | TChar c :: rest => Some (Some [leaf KChar (String c EmptyString)], rest)
  | _ => Some (None, ts)
  end.
Proof.
  destruct ts as [|[name|c| | | | |] ts]; try reflexivity.
  change (parse_arg (S fuel) (TChar c :: ts)) with
    (match argument_ref [] (TChar c :: ts) with
     | Some (l, rest') => Some (Some l, rest')
     | None => Some (Some [leaf KChar (String c EmptyString)], ts)
     end).
  by rewrite argument_ref_nil.
Qed.

Lemma parse_args_S fuel n ts :
  parse_args (S fuel) n ts =
  match n with
  | O => Some (Some [], ts)
  | S n' =>
      '(arg, rest) ← parse_arg fuel ts;
      match arg with
      | None => Some (None, ts)
      | Some a =>
          '(more, rest') ← parse_args fuel n' rest;
          Some (match more with Some l => Some (a :: l) | None => None end,
                rest')
      end
  end.
Proof. reflexivity. Qed.

Lemma parse_mono (fuel : nat) :
  mono_list fuel ∧ mono_primary fuel ∧ mono_arg fuel ∧ mono_args fuel.
Proof.
  induction fuel as [|fuel (IHl & IHp & IHa & IHs)].
  { split_and!; intros ?; intros; discriminate. }
  split_and!.
  - intros top acc ts r F H HF. destruct F as [|F]; [lia|].
    assert (HF' : (fuel ≤ F)%nat) by lia.
    rewrite parse_list_S in *.
    assert (Hprim : ∀ ts',
      (parse_primary fuel ts' ≫= λ '(a, rest), parse_list fuel top (a :: acc) rest)
        = Some r →
      (parse_primary F ts' ≫= λ '(a, rest), parse_list F top (a :: acc) rest)
        = Some r).
    { intros ts' H'.
      destruct (parse_primary fuel ts') as [[a rest]|] eqn:E; [|done].
      rewrite (IHp _ _ F E HF'). cbn in *. by apply IHl. }
    destruct ts as [|[name|c| | | | |] ts]; try done; try (by apply Hprim).
    + destruct top; [by apply IHl | done].
    + destruct (parse_arg fuel ts) as [[arg rest]|] eqn:E; [|done].
      rewrite (IHa _ _ F E HF'). cbn in *.
      destruct arg as [s|]; [|by apply IHl].
      destruct acc as [|prev acc]; [by apply IHl|].
      destruct (superscript prev); by apply IHl.
    + destruct (parse_arg fuel ts) as [[arg rest]|] eqn:E; [|done].
      rewrite (IHa _ _ F E HF'). cbn in *.
      destruct arg as [s|]; [|by apply IHl].
      destruct acc as [|prev acc]; [by apply IHl|].
      destruct (subscript prev); by apply IHl.
  - intros ts r F H HF. destruct F as [|F]; [lia|].
    assert (HF' : (fuel ≤ F)%nat) by lia.
    rewrite parse_primary_S in *.
    destruct ts as [|[name|c| | | | |] ts]; try done.
    + destruct (symbols name) as [n|]; [|done].
      destruct (String.eqb name ""); [done|].
      destruct (parse_args fuel n ts) as [[found rest]|] eqn:E; [|done].
      by rewrite (IHs _ _ _ F E HF').
    + destruct (parse_list fuel false [] ts) as [[body rest]|] eqn:E; [|done].
      by rewrite (IHl _ _ _ _ F E HF').
  - intros ts r F H HF. destruct F as [|F]; [lia|].
    assert (HF' : (fuel ≤ F)%nat) by lia.
    rewrite parse_arg_S in *.
    destruct ts as [|[name|c| | | | |] ts]; try done.
    + destruct (parse_primary fuel (TCommand name :: ts)) as [[a rest]|] eqn:E;
        [|done].
      by rewrite (IHp _ _ F E HF').
    + destruct (parse_list fuel false [] ts) as [[body rest]|] eqn:E; [|done].
      by rewrite (IHl _ _ _ _ F E HF').
  - intros n ts r F H HF. destruct F as [|F]; [lia|].
    assert (HF' : (fuel ≤ F)%nat) by lia.
    rewrite parse_args_S in *.
    destruct n as [|n]; [done|].
    destruct (parse_arg fuel ts) as [[arg rest]|] eqn:E; [|done].
    rewrite (IHa _ _ F E HF'). cbn in *.
    destruct arg as [a|]; [|done].
    destruct (parse_args fuel n rest) as [[more rest']|] eqn:E'; [|done].
    by rewrite (IHs _ _ _ F E' HF').
Qed.

Lemma mono_list_any fuel F top acc ts r :
  parse_list fuel top acc ts = Some r → (fuel ≤ F)%nat →
  parse_list F top acc ts = Some r.
Proof. apply (parse_mono fuel). Qed.

(** ** Parsing what the serializer wrote, on tokens *)

Lemma reads_back_forest (l : list Atom) :
  Forall reads_back l →
  ∀ first fuel F top acc rest r,
    ok_from first l = true →
    (first = true → acc = []) →
    parse_list fuel top (rev l ++ acc) rest = Some r →
    (fuel + 4 * length (forest_tokens l) ≤ F)%nat →
    parse_list F top acc (forest_tokens l ++ rest) = Some r.
Proof.
  induction 1 as [|x l Hx Hl IH]; intros first fuel F top acc rest r Hok Hacc Hp HF.
  { cbn in *. eapply mono_list_any; [done | lia]. }
  cbn [Tex.ok_from] in Hok.
  apply andb_prop in Hok as [Hok Hrest]. apply andb_prop in Hok as [Hph Hok].
  cbn [forest_tokens] in *. rewrite length_app in HF. rewrite <- app_assoc.
  apply (Hx (fuel + 4 * length (forest_tokens l))%nat); [done | | | lia].
  - intros Hp'. rewrite Hp' in Hph. cbn in Hph. rewrite orb_false_r in Hph.
    by apply Hacc.
  - apply (IH false fuel); [done | done | | lia].
    cbn [rev] in Hp. by rewrite <- app_assoc in Hp.
Qed.

Lemma reads_back_group (l : list Atom) (F : nat) (rest : list Token) :
  Forall reads_back l → ok l = true →
  (1 + 4 * length (forest_tokens l) ≤ F)%nat →
  parse_list F false [] (forest_tokens l ++ TClose :: rest) = Some (l, rest).
Proof.
  intros Hl Hok HF. apply (reads_back_forest l Hl true 1); [done | done | | lia].
  rewrite parse_list_S. by rewrite app_nil_r, rev_involutive.
Qed.

Lemma length_group_tokens (l : list Atom) :
  length (group_tokens l) = (2 + length (forest_tokens l))%nat.
Proof. unfold group_tokens. cbn. rewrite length_app. cbn. lia. Qed.

Lemma reads_back_arg (l : list Atom) (F : nat) (rest : list Token) :
  Forall reads_back l → ok l = true →
  (2 + 4 * length (forest_tokens l) ≤ F)%nat →
  parse_arg F (group_tokens l ++ rest) = Some (Some l, rest).
Proof.
  intros Hl Hok HF. destruct F as [|F]; [lia|].
  unfold group_tokens. cbn [app]. rewrite parse_arg_S, <- app_assoc. cbn [app].
  rewrite reads_back_group by (done || lia). done.
Qed.

Lemma reads_back_args (ls : list (list Atom)) :
  Forall (Forall reads_back) ls → oks ls = true →
  ∀ F rest, (1 + 4 * length (groups_tokens ls) ≤ F)%nat →
    parse_args F (length ls) (groups_tokens ls ++ rest) = Some (Some ls, rest).
Proof.
  induction 1 as [|l ls Hl Hls IH]; intros Hok F rest HF.
  { destruct F; [lia|]. by rewrite parse_args_S. }
  cbn [Tex.oks] in Hok. apply andb_prop in Hok as [Hok Hoks].
  cbn [groups_tokens length] in *. rewrite length_app, length_group_tokens in HF.
  destruct F as [|F]; [lia|]. rewrite parse_args_S, <- app_assoc.
  rewrite reads_back_arg by (done || lia). cbn.
  rewrite IH by (done || lia). done.
Qed.

Lemma reads_back_sup s b fuel F top acc rest r :
  Forall reads_back s → ok s = true → superscript b = None →
  parse_list fuel top (set_superscript s b :: acc) rest = Some r →
  (fuel + 4 * length (script_tokens TSup (Some s)) ≤ F)%nat →
  parse_list F top (b :: acc) (script_tokens TSup (Some s) ++ rest) = Some r.
Proof.
  intros Hs Hok Hb Hp HF. cbn [script_tokens length] in *.
  rewrite length_group_tokens in HF.
  destruct F as [|F]; [lia|]. cbn [app]. rewrite parse_list_S.
  rewrite reads_back_arg by (done || lia). cbn. rewrite Hb.
  eapply mono_list_any; [done | lia].
Qed.

Lemma reads_back_sub s b fuel F top acc rest r :
  Forall reads_back s → ok s = true → subscript b = None →
  parse_list fuel top (set_subscript s b :: acc) rest = Some r →
  (fuel + 4 * length (script_tokens TSub (Some s)) ≤ F)%nat →
  parse_list F top (b :: acc) (script_tokens TSub (Some s) ++ rest) = Some r.
Proof.
  intros Hs Hok Hb Hp HF. cbn [script_tokens length] in *.
  rewrite length_group_tokens in HF.
  destruct F as [|F]; [lia|]. cbn [app]. rewrite parse_list_S.
  rewrite reads_back_arg by (done || lia). cbn. rewrite Hb.
  eapply mono_list_any; [done | lia].
Qed.

Lemma reads_back_sup_first s fuel F top rest r :
  Forall reads_back s → ok s = true →
  parse_list fuel top [set_superscript s (leaf KPlaceholder "")] rest = Some r →
  (fuel + 4 * length (script_tokens TSup (Some s)) ≤ F)%nat →
  parse_list F top [] (script_tokens TSup (Some s) ++ rest) = Some r.
Proof.
  intros Hs Hok Hp HF. cbn [script_tokens length] in *.
  rewrite length_group_tokens in HF.
  destruct F as [|F]; [lia|]. cbn [app]. rewrite parse_list_S.
  rewrite reads_back_arg by (done || lia). cbn.
  eapply mono_list_any; [done | lia].
Qed.

Lemma reads_back_sub_first s fuel F top rest r :
  Forall reads_back s → ok s = true →
  parse_list fuel top [set_subscript s (leaf KPlaceholder "")] rest = Some r →
  (fuel + 4 * length (script_tokens TSub (Some s)) ≤ F)%nat →
  parse_list F top [] (script_tokens TSub (Some s) ++ rest) = Some r.
Proof.
  intros Hs Hok Hp HF. cbn [script_tokens length] in *.
  rewrite length_group_tokens in HF.
  destruct F as [|F]; [lia|]. cbn [app]. rewrite parse_list_S.
  rewrite reads_back_arg by (done || lia). cbn.
  eapply mono_list_any; [done | lia].
Qed.

(** The scripts of an atom that is already on the list. *)
Lemma reads_back_scripts k v args sup sub fuel F top acc rest r :
  (∀ s, sup = Some s → Forall reads_back s) →
  (∀ s, sub = Some s → Forall reads_back s) →
  ok_script sup = true → ok_script sub = true →
  parse_list fuel top (mkAtom k v args sup sub :: acc) rest = Some r →
  (fuel + 4 * length (script_tokens TSup sup ++ script_tokens TSub sub) ≤ F)%nat →
  parse_list F top (mkAtom k v args None None :: acc)
    (script_tokens TSup sup ++ script_tokens TSub sub ++ rest) = Some r.
Proof.
  intros Hsup Hsub Hoksup Hoksub Hp HF. rewrite length_app in HF.
  destruct sup as [s|].
  - apply (reads_back_sup s _ (fuel + 4 * length (script_tokens TSub sub))%nat);
      [by apply Hsup | done | done | | lia].
    destruct sub as [s'|].
    + apply (reads_back_sub s' _ fuel); [by apply Hsub | done | done | done | lia].
    + cbn [script_tokens app]. eapply mono_list_any; [done | lia].
  - cbn [script_tokens app] in *. destruct sub as [s'|].
    + apply (reads_back_sub s' _ fuel); [by apply Hsub | done | done | done | lia].
    + eapply mono_list_any; [done | lia].
Qed.

Lemma lexable_name_nonempty name : lexable_name name = true → String.eqb name "" = false.
Proof. by destruct name. Qed.

Ltac pstep := cbv beta iota; cbn [mbind option_bind app].

Theorem reads_back_atom (a : Atom) : reads_back a.
Proof.
  induction a as [k v args sup sub IHargs IHsup IHsub] using Atom_ind'.
  intros fuel F top acc rest r Hok Hph Hp HF.
  rewrite ok_atom_eq in Hok. rewrite atom_tokens_eq in *.
  apply andb_prop in Hok as [Hok Hoksub]. apply andb_prop in Hok as [Hok Hoksup].
  apply andb_prop in Hok as [Hk Hoks].
  rewrite !length_app in HF.
  assert (Hfuel : (1 ≤ fuel)%nat) by (destruct fuel; [done | lia]).
  assert (Hscr : ∀ F',
    (fuel + 4 * (length (script_tokens TSup sup)
                 + length (script_tokens TSub sub)) ≤ F')%nat →
    parse_list F' top (mkAtom k v args None None :: acc)
      (script_tokens TSup sup ++ script_tokens TSub sub ++ rest) = Some r).
  { intros F' HF'. apply (reads_back_scripts k v args sup sub fuel); try done.
    rewrite length_app. lia. }
  rewrite <- !app_assoc.
  destruct k; try done.
  - (* a character *)
    apply andb_prop in Hk as [Hv Hargs].
    destruct v as [|c [|]]; try done.
    destruct args; [|done]. cbn [body_tokens list_ascii_of_string map app length] in *.
    destruct F as [|F]; [lia|]. rewrite parse_list_S.
    destruct F as [|F]; [lia|]. rewrite parse_primary_S. pstep.
    apply Hscr. lia.
  - (* a command *)
    apply andb_prop in Hk as [Hname Hsym].
    destruct (symbols v) as [n|] eqn:Es; [|done].
    apply Nat.eqb_eq in Hsym. subst n.
    cbn [body_tokens app length] in *.
    destruct F as [|F]; [lia|]. rewrite parse_list_S.
    destruct F as [|F]; [lia|]. rewrite parse_primary_S.
    rewrite Es, (lexable_name_nonempty _ Hname).
    rewrite reads_back_args by (done || lia). pstep.
    apply Hscr. lia.
  - (* a group *)
    apply andb_prop in Hk as [Hv Hargs]. apply String.eqb_eq in Hv. subst v.
    destruct args as [|body [|]]; try done.
    cbn [body_tokens groups_tokens] in *. rewrite app_nil_r in *.
    rewrite length_group_tokens in HF.
    cbn [Tex.oks] in Hoks. rewrite andb_true_r in Hoks.
    apply Forall_cons in IHargs as [IHbody _].
    unfold group_tokens. cbn [app]. rewrite <- !app_assoc. cbn [app].
    destruct F as [|F]; [lia|]. rewrite parse_list_S.
    destruct F as [|F]; [lia|]. rewrite parse_primary_S.
    rewrite reads_back_group by (done || lia). pstep.
    apply Hscr. lia.
  - (* a placeholder *)
    apply andb_prop in Hk as [Hk Hsome]. apply andb_prop in Hk as [Hv Hargs].
    apply String.eqb_eq in Hv. subst v. destruct args; [|done].
    rewrite (Hph eq_refl) in *. cbn [body_tokens app length] in *.
    destruct sup as [s|].
    + apply (reads_back_sup_first s (fuel + 4 * length (script_tokens TSub sub))%nat);
        [by apply IHsup | done | | lia].
      destruct sub as [s'|].
      * apply (reads_back_sub s' _ fuel);
          [by apply IHsub | done | done | done | lia].
      * cbn [script_tokens app]. eapply mono_list_any; [done | lia].
    + destruct sub as [s'|]; [|done]. cbn [script_tokens app] in *.
      apply (reads_back_sub_first s' fuel);
        [by apply IHsub | done | done | cbn [script_tokens length] in *; lia].
  - (* an alignment mark *)
    apply andb_prop in Hk as [Hv Hargs]. apply String.eqb_eq in Hv. subst v.
    destruct args; [|done]. cbn [body_tokens app length] in *.
    destruct F as [|F]; [lia|]. rewrite parse_list_S.
    destruct F as [|F]; [lia|]. rewrite parse_primary_S. pstep.
    apply Hscr. lia.
Qed.

Lemma reads_back_forest_all (l : list Atom) : Forall reads_back l.
Proof. apply Forall_forall. intros a _. apply reads_back_atom. Qed.

Corollary parseTokens_forest_tokens (l : list Atom) :
  ok l = true → parseTokens symbols [] (forest_tokens l) = l.
Proof.
  intros Hok. unfold parseTokens, parse_fuel.
  rewrite <- (app_nil_r (forest_tokens l)) at 2.
  rewrite (reads_back_forest l (reads_back_forest_all l) true 1 _ true [] [] (l, []));
    [done | done | done | | lia].
  rewrite parse_list_S. by rewrite app_nil_r, rev_involutive.
Qed.

(** ** The tokens of a well-formed tree *)

Lemma depth_of_app d ts1 ts2 :
  depth_of d (ts1 ++ ts2) = depth_of (depth_of d ts1) ts2.
Proof. apply fold_left_app. Qed.

Lemma fine_nil : fine_tokens [].
Proof. done. Qed.

Lemma fine_app ts1 ts2 : fine_tokens ts1 → fine_tokens ts2 → fine_tokens (ts1 ++ ts2).
Proof.
  intros [Hl1 Hd1] [Hl2 Hd2]. split.
  - rewrite forallb_app. by rewrite Hl1, Hl2.
  - intros d. by rewrite depth_of_app, Hd1, Hd2.
Qed.

Lemma fine_group (ts : list Token) : fine_tokens ts → fine_tokens (TOpen :: ts ++ [TClose]).
Proof.
  intros [Hl Hd]. split.
  - cbn. rewrite forallb_app. by rewrite Hl.
  - intros d. change (TOpen :: ts ++ [TClose]) with ([TOpen] ++ ts ++ [TClose]).
    rewrite !depth_of_app. cbn. by rewrite Hd.
Qed.

Lemma fine_forest (l : list Atom) :
  Forall fine_atom l → ∀ first, ok_from first l = true → fine_tokens (forest_tokens l).
Proof.
  induction 1 as [|x l Hx Hl IH]; intros first Hok; [apply fine_nil|].
  cbn [Tex.ok_from] in Hok.
  apply andb_prop in Hok as [Hok Hrest]. apply andb_prop in Hok as [_ Hok].
  cbn [forest_tokens]. apply fine_app; [by apply Hx | by apply (IH false)].
Qed.

Lemma fine_groups (ls : list (list Atom)) :
  Forall (Forall fine_atom) ls → oks ls = true → fine_tokens (groups_tokens ls).
Proof.
  induction 1 as [|l ls Hl Hls IH]; intros Hok; [apply fine_nil|].
  cbn [Tex.oks] in Hok. apply andb_prop in Hok as [Hok Hoks].
  cbn [groups_tokens]. apply fine_app; [|by apply IH].
  apply fine_group. by apply (fine_forest l Hl true).
Qed.

Lemma fine_script (marker : Token) (s : option (list Atom)) :
  (marker = TSup ∨ marker = TSub) →
  (∀ l, s = Some l → Forall fine_atom l) → ok_script s = true →
  fine_tokens (script_tokens marker s).
Proof.
  intros Hm Hs Hok. destruct s as [l|]; [|apply fine_nil].
  cbn [script_tokens]. change (marker :: group_tokens l) with ([marker] ++ group_tokens l).
  apply fine_app.
  - by destruct Hm as [-> | ->].
  - apply fine_group. by apply (fine_forest l (Hs l eq_refl) true).
Qed.

Lemma fine_atom_all (a : Atom) : fine_atom a.
Proof.
  induction a as [k v args sup sub IHargs IHsup IHsub] using Atom_ind'.
  intros Hok. rewrite ok_atom_eq in Hok. rewrite atom_tokens_eq.
  apply andb_prop in Hok as [Hok Hoksub]. apply andb_prop in Hok as [Hok Hoksup].
  apply andb_prop in Hok as [Hk Hoks].
  apply fine_app; [|apply fine_app; apply fine_script; auto].
  destruct k; try done.
  - apply andb_prop in Hk as [Hv _]. destruct v as [|c [|]]; try done.
    split; [by cbn; rewrite Hv | done].
  - apply andb_prop in Hk as [Hname _]. cbn [body_tokens].
    change (TCommand v :: groups_tokens args) with ([TCommand v] ++ groups_tokens args).
    apply fine_app; [|by apply fine_groups].
    split; [by cbn; rewrite Hname | done].
  - by apply fine_groups.
Qed.

Lemma fine_forest_tokens (l : list Atom) : ok l = true → fine_tokens (forest_tokens l).
Proof.
  intros Hok. apply (fine_forest l) with (first := true); [|done].
  apply Forall_forall. intros a _. apply fine_atom_all.
Qed.

(** Writing a well-formed tree and reading it back gives the tree. *)
Theorem parse_toLatex (l : list Atom) :
  ok l = true → parseTokens symbols [] (tokenize (toLatex l)) = l.
Proof.
  intros Hok. destruct (fine_forest_tokens l Hok) as [Hlex Hdepth].
  unfold tokenize, toLatex. rewrite lex_render by done.
  rewrite Hdepth. cbn [repeat]. rewrite app_nil_r.
  by apply parseTokens_forest_tokens.
Qed.

(** ** What the parser builds *)

Lemma ok_from_snoc first l a :
  ok_from first (l ++ [a]) =
  ok_from first l && ok_atom a
  && (match l with [] => first | _ => false end || negb (is_placeholder a)).
Proof.
  revert first. induction l as [|x l IH]; intros first.
  - cbn. destruct first, (is_placeholder a), (ok_atom a); done.
  - cbn [app Tex.ok_from]. rewrite IH.
    destruct l; cbn;
      destruct (first || negb (is_placeholder x)), (ok_atom x),
        (ok_atom a), (is_placeholder a); cbn; try done;
      try (by rewrite ?andb_true_r, ?andb_false_r).
Qed.

Lemma ok_rev acc : ok (rev acc) = ok_acc acc.
Proof.
  induction acc as [|a acc IH]; [done|].
  cbn [rev ok_acc]. unfold Tex.ok in *. rewrite ok_from_snoc, IH.
  destruct acc as [|b acc]; cbn [rev].
  - cbn. by rewrite !andb_true_r.
  - destruct (rev acc ++ [b]) eqn:E; [by destruct (rev acc)|].
    generalize (ok_acc (b :: acc)). intros x.
    destruct x, (ok_atom a), (is_placeholder a); done.
Qed.

Lemma clean_app l1 l2 : clean (l1 ++ l2) = clean l1 && clean l2.
Proof.
  induction l1 as [|x l1 IH]; [done|]. cbn. by rewrite IH, andb_assoc.
Qed.

Lemma clean_rev l : clean (rev l) = clean l.
Proof.
  induction l as [|x l IH]; [done|]. cbn. rewrite clean_app, IH. cbn.
  rewrite andb_true_r. apply andb_comm.
Qed.

Lemma sound_acc_error v acc : sound_acc (leaf KError v :: acc).
Proof. intros H. done. Qed.

Lemma sound_acc_cons a acc :
  (clean_atom a = true → ok_atom a = true ∧ is_placeholder a = false) →
  sound_acc acc → sound_acc (a :: acc).
Proof.
  intros Ha Hacc H. cbn in H. apply andb_prop in H as [Hca Hcl].
  destruct (Ha Hca) as [Hok Hph]. cbn [ok_acc]. rewrite Hok, Hph, (Hacc Hcl).
  by destruct acc.
Qed.

Lemma sound_acc_sup s prev acc :
  superscript prev = None →
  (clean s = true → ok s = true) →
  sound_acc (prev :: acc) → sound_acc (set_superscript s prev :: acc).
Proof.
  intros Hsup Hs Hacc H. destruct prev as [k v args sup sub]. cbn in Hsup. subst sup.
  cbn [clean] in H. apply andb_prop in H as [Hca Hcl].
  unfold set_superscript in *. cbn [Tex.kind Tex.value Tex.args Tex.subscript] in *.
  rewrite clean_atom_eq in Hca.
  apply andb_prop in Hca as [Hca Hcsub]. apply andb_prop in Hca as [Hca Hcs].
  assert (Hprev : clean (mkAtom k v args None sub :: acc) = true).
  { cbn [clean]. rewrite clean_atom_eq, Hca, Hcsub, Hcl. done. }
  specialize (Hacc Hprev). cbn [ok_acc] in *.
  apply andb_prop in Hacc as [Hacc Hrest]. apply andb_prop in Hacc as [Hok Hph].
  rewrite Hrest, andb_true_r.
  replace (is_placeholder (mkAtom k v args (Some s) sub))
    with (is_placeholder (mkAtom k v args None sub)) by done.
  rewrite Hph, andb_true_r.
  rewrite ok_atom_eq in *.
  apply andb_prop in Hok as [Hok Hoksub]. apply andb_prop in Hok as [Hok _].
  apply andb_prop in Hok as [Hk Hoks].
  rewrite Hoks, Hoksub. cbn [Tex.ok_script]. rewrite (Hs Hcs), !andb_true_r.
  destruct k; try done. cbn. apply andb_prop in Hk as [Hk _]. by rewrite Hk.
Qed.

Lemma sound_acc_sub s prev acc :
  subscript prev = None →
  (clean s = true → ok s = true) →
  sound_acc (prev :: acc) → sound_acc (set_subscript s prev :: acc).
Proof.
  intros Hsub Hs Hacc H. destruct prev as [k v args sup sub]. cbn in Hsub. subst sub.
  cbn [clean] in H. apply andb_prop in H as [Hca Hcl].
  unfold set_subscript in *. cbn [Tex.kind Tex.value Tex.args Tex.superscript] in *.
  rewrite clean_atom_eq in Hca.
  apply andb_prop in Hca as [Hca Hcs]. apply andb_prop in Hca as [Hca Hcsup].
  assert (Hprev : clean (mkAtom k v args sup None :: acc) = true).
  { cbn [clean]. rewrite clean_atom_eq, Hca, Hcsup, Hcl. done. }
  specialize (Hacc Hprev). cbn [ok_acc] in *.
  apply andb_prop in Hacc as [Hacc Hrest]. apply andb_prop in Hacc as [Hok Hph].
  rewrite Hrest, andb_true_r.
  replace (is_placeholder (mkAtom k v args sup (Some s)))
    with (is_placeholder (mkAtom k v args sup None)) by done.
  rewrite Hph, andb_true_r.
  rewrite ok_atom_eq in *.
  apply andb_prop in Hok as [Hok _]. apply andb_prop in Hok as [Hok Hoksup].
  apply andb_prop in Hok as [Hk Hoks].
  rewrite Hoks, Hoksup. cbn [Tex.ok_script]. rewrite (Hs Hcs), !andb_true_r.
  destruct k; try done. cbn. apply andb_prop in Hk as [Hk _].
  rewrite Hk. cbn. apply orb_true_r.
Qed.

Lemma sound_acc_sup_first s :
  (clean s = true → ok s = true) →
  sound_acc [set_superscript s (leaf KPlaceholder "")].
Proof.
  intros Hs H. cbn in H. rewrite !andb_true_r in H.
  change (clean s = true) in H. cbn [ok_acc]. rewrite !andb_true_r.
  unfold set_superscript, leaf. cbn [kind value args subscript].
  rewrite ok_atom_eq. cbn. rewrite !andb_true_r. by apply Hs.
Qed.

Lemma sound_acc_sub_first s :
  (clean s = true → ok s = true) →
  sound_acc [set_subscript s (leaf KPlaceholder "")].
Proof.
  intros Hs H. cbn in H. rewrite !andb_true_r in H.
  change (clean s = true) in H. cbn [ok_acc]. rewrite !andb_true_r.
  unfold set_subscript, leaf. cbn [kind value args superscript].
  rewrite ok_atom_eq. cbn. by apply Hs.
Qed.

Lemma parse_sound (fuel : nat) :
  sound_list fuel ∧ sound_primary fuel ∧ sound_arg fuel ∧ sound_args fuel.
Proof.
  induction fuel as [|fuel (IHl & IHp & IHa & IHs)].
  { split_and!; intros ?; intros; discriminate. }
  split_and!.
  - intros top acc ts l rest Hts Hacc H. rewrite parse_list_S in H.
    assert (Hend : clean (rev acc) = true → ok (rev acc) = true).
    { intros Hc. rewrite ok_rev. apply Hacc. by rewrite <- clean_rev. }
    assert (Hprim : ∀ ts', forallb lexed ts' = true →
      (parse_primary fuel ts' ≫= λ '(a, rest), parse_list fuel top (a :: acc) rest)
        = Some (l, rest) →
      (clean l = true → ok l = true) ∧ forallb lexed rest = true).
    { intros ts' Hts' H'.
      destruct (parse_primary fuel ts') as [[a rest']|] eqn:E; [|done].
      destruct (IHp _ _ _ Hts' E) as [Ha Hrest'].
      refine (IHl _ _ _ _ _ _ _ H'); [done | by apply sound_acc_cons]. }
    destruct ts as [|[name|c| | | | |] ts]; try exact (Hprim _ Hts H).
    + injection H as <- <-. split; [by apply Hend | done].
    + cbn [forallb] in Hts. destruct top.
      * refine (IHl _ _ _ _ _ _ _ H); [done | apply sound_acc_error].
      * injection H as <- <-. split; [by apply Hend | done].
    + cbn [forallb] in Hts.
      destruct (parse_arg fuel ts) as [[arg rest']|] eqn:E; [|done].
      destruct (IHa _ _ _ Hts E) as [Harg Hrest']. cbn in H.
      destruct arg as [s|].
      2:{ refine (IHl _ _ _ _ _ _ _ H); [done | apply sound_acc_error]. }
      destruct acc as [|prev acc].
      { refine (IHl _ _ _ _ _ _ _ H); [done |].
        apply sound_acc_sup_first. by apply Harg. }
      destruct (superscript prev) eqn:Hsup.
      * refine (IHl _ _ _ _ _ _ _ H); [done | apply sound_acc_error].
      * refine (IHl _ _ _ _ _ _ _ H); [done |].
        apply sound_acc_sup; [done | by apply Harg | done].
    + cbn [forallb] in Hts.
      destruct (parse_arg fuel ts) as [[arg rest']|] eqn:E; [|done].
      destruct (IHa _ _ _ Hts E) as [Harg Hrest']. cbn in H.
      destruct arg as [s|].
      2:{ refine (IHl _ _ _ _ _ _ _ H); [done | apply sound_acc_error]. }
      destruct acc as [|prev acc].
      { refine (IHl _ _ _ _ _ _ _ H); [done |].
        apply sound_acc_sub_first. by apply Harg. }
      destruct (subscript prev) eqn:Hsub.
      * refine (IHl _ _ _ _ _ _ _ H); [done | apply sound_acc_error].
      * refine (IHl _ _ _ _ _ _ _ H); [done |].
        apply sound_acc_sub; [done | by apply Harg | done].
  - intros ts a rest Hts H. rewrite parse_primary_S in H.
    destruct ts as [|[name|c| | | | |] ts]; cbn [forallb] in Hts;
      try (injection H as <- <-; split; [done | by apply andb_prop in Hts as [_ ?]]).
    + by injection H as <- <-.
    + apply andb_prop in Hts as [Hname Hts].
      destruct (symbols name) as [n|] eqn:Es.
      2:{ injection H as <- <-. done. }
      destruct (String.eqb name "") eqn:En.
      { injection H as <- <-. done. }
      destruct (parse_args fuel n ts) as [[found rest']|] eqn:E; [|done].
      destruct (IHs _ _ _ _ Hts E) as [Hfound Hrest']. cbn in H.
      destruct found as [ls|].
      2:{ injection H as <- <-. done. }
      injection H as <- <-. split; [|done].
      destruct (Hfound ls eq_refl) as [Hlen Hoks].
      rewrite clean_atom_eq, ok_atom_eq. cbn. rewrite !andb_true_r.
      intros Hc. split; [|done]. rewrite (Hoks Hc), Es, andb_true_r.
      subst n. rewrite Nat.eqb_refl, andb_true_r.
      destruct name; [done|]. exact Hname.
    + apply andb_prop in Hts as [Hc Hts]. injection H as <- <-.
      split; [|done]. intros _. split; [|done].
      unfold leaf. rewrite ok_atom_eq. cbn in *. by rewrite Hc.
    + apply andb_prop in Hts as [_ Hts].
      destruct (parse_list fuel false [] ts) as [[body rest']|] eqn:E; [|done].
      destruct (IHl false [] ts body rest' Hts) as [Hbody Hrest']; [done | done |].
      injection H as <- <-. split; [|done].
      rewrite clean_atom_eq, ok_atom_eq. cbn. rewrite !andb_true_r.
      intros Hc. split; [|done]. by apply Hbody.
  - intros ts arg rest Hts H. rewrite parse_arg_S in H.
    destruct ts as [|[name|c| | | | |] ts];
      try (injection H as <- <-; split; [done | done]).
    + destruct (parse_primary fuel (TCommand name :: ts)) as [[a rest']|] eqn:E;
        [|done].
      destruct (IHp _ _ _ Hts E) as [Ha Hrest']. injection H as <- <-.
      split; [|done]. intros s [= <-] Hc. cbn in Hc. rewrite andb_true_r in Hc.
      destruct (Ha Hc) as [Hok _]. unfold Tex.ok. cbn. by rewrite Hok.
    + cbn [forallb] in Hts. apply andb_prop in Hts as [Hc Hts].
      injection H as <- <-. split; [|done]. intros s [= <-] _.
      unfold Tex.ok, leaf. cbn [Tex.ok_from]. rewrite ok_atom_eq. cbn in *.
      by rewrite Hc.
    + cbn [forallb] in Hts. apply andb_prop in Hts as [_ Hts].
      destruct (parse_list fuel false [] ts) as [[body rest']|] eqn:E; [|done].
      destruct (IHl false [] ts body rest' Hts) as [Hbody Hrest']; [done | done |].
      injection H as <- <-. split; [|done]. by intros s [= <-].
  - intros n ts found rest Hts H. rewrite parse_args_S in H.
    destruct n as [|n].
    { injection H as <- <-. split; [|done]. by intros ls [= <-]. }
    destruct (parse_arg fuel ts) as [[arg rest']|] eqn:E; [|done].
    destruct (IHa _ _ _ Hts E) as [Harg Hrest']. cbn in H.
    destruct arg as [a|].
    2:{ injection H as <- <-. done. }
    destruct (parse_args fuel n rest') as [[more rest'']|] eqn:E'; [|done].
    destruct (IHs _ _ _ _ Hrest' E') as [Hmore Hrest'']. cbn in H.
    injection H as <- <-. split; [|done].
    intros ls Hls. destruct more as [more|]; [|done]. injection Hls as <-.
    destruct (Hmore more eq_refl) as [Hlen Hoks]. split; [by cbn; rewrite Hlen|].
    cbn. intros Hc. apply andb_prop in Hc as [Hca Hcm].
    by rewrite (Harg a eq_refl Hca), (Hoks Hcm).
Qed.

(** Accepted input is read into a well-formed tree. *)
Theorem parseTokens_ok (ts : list Token) :
  forallb lexed ts = true →
  clean (parseTokens symbols [] ts) = true →
  ok (parseTokens symbols [] ts) = true.
Proof.
  intros Hts. unfold parseTokens.
  destruct (parse_list (parse_fuel ts) true [] ts) as [[l rest]|] eqn:E; [|done].
  by apply (proj1 (parse_sound (parse_fuel ts)) true [] ts l rest Hts).
Qed.

(** Reading, writing and reading again changes nothing, when the first
    reading has no error and no unknown command. *)
Lemma parse_serialize_parse (s : string) :
  let parse s := parseTokens symbols [] (tokenize s) in
  clean (parse s) = true → parse (toLatex (parse s)) = parse s.
Proof.
  intros parse Hclean. apply parse_toLatex.
  apply parseTokens_ok; [apply tokenize_lexed | exact Hclean].
Qed.

End Facts.

(** ** The parser returns: the fuel of [parseTokens] is enough *)

Section Total.

Variable symbols : string → option nat.
Variable arguments : list (list Atom).

Local Abbreviation parse_list := (Tex.parse_list symbols arguments).
Local Abbreviation parse_primary := (Tex.parse_primary symbols arguments).
Local Abbreviation parse_arg := (Tex.parse_arg symbols arguments).
Local Abbreviation parse_args := (Tex.parse_args symbols arguments).
Local Abbreviation total_list := (Tex.total_list symbols arguments).
Local Abbreviation total_primary := (Tex.total_primary symbols arguments).
Local Abbreviation total_arg := (Tex.total_arg symbols arguments).
Local Abbreviation total_args := (Tex.total_args symbols arguments).

Lemma argument_ref_length ts l rest :
  argument_ref arguments ts = Some (l, rest) → (S (length rest) < length ts)%nat.
Proof.
  destruct ts as [|[name|h| | | | |] [|[name'|d| | | | |] ts]]; try done.
  cbn. destruct (Ascii.eqb h "#" && is_digit d); [|done].
  destruct (arguments !! _); [|done]. intros [= <- <-]. lia.
Qed.

Lemma parse_total (fuel : nat) :
  total_list fuel ∧ total_primary fuel ∧ total_arg fuel ∧ total_args fuel.
Proof.
  induction fuel as [|fuel (IHl & IHp & IHa & IHs)].
  { split_and!; intros ?; intros; lia. }
  assert (Hlist : ∀ top acc ts n, (length ts ≤ n)%nat → (4 * n + 2 ≤ fuel)%nat →
    ∃ l rest, parse_list fuel top acc ts = Some (l, rest)
              ∧ (length rest ≤ S n)%nat).
  { intros top acc ts n Hn Hf. destruct (IHl top acc ts) as (l & rest & E & Hr);
      [lia|]. exists l, rest. split; [done | lia]. }
  split_and!.
  - intros top acc ts Hf.
    assert (Hprim : ∀ t ts', ts = t :: ts' →
      ∃ l rest,
        (parse_primary fuel ts ≫= λ '(a, rest), parse_list fuel top (a :: acc) rest)
          = Some (l, rest) ∧ (length rest ≤ length ts)%nat).
    { intros t ts' ->. cbn [length] in Hf.
      destruct (IHp (t :: ts')) as (a & rest & E & _ & Hr); [cbn [length]; lia|].
      specialize (Hr ltac:(done)). cbn [length] in Hr. rewrite E. cbn.
      destruct (Hlist top (a :: acc) rest (length ts')) as (l & r & E' & Hl);
        [lia | lia |]. exists l, r. split; [done | cbn [length]; lia]. }
    assert (Href : ∀ t ts', ts = t :: ts' →
      ∃ l rest,
        match argument_ref arguments ts with
        | Some (l, rest) => parse_list fuel top (rev l ++ acc) rest
        | None => parse_primary fuel ts
                    ≫= λ '(a, rest), parse_list fuel top (a :: acc) rest
        end = Some (l, rest) ∧ (length rest ≤ length ts)%nat).
    { intros t ts' Ets.
      destruct (argument_ref arguments ts) as [[l0 rest0]|] eqn:Er;
        [|by eapply Hprim].
      apply argument_ref_length in Er. subst ts. cbn [length] in *.
      destruct (Hlist top (rev l0 ++ acc) rest0 (length ts')) as (l & r & E' & Hl);
        [lia | lia |]. exists l, r. split; [done | lia]. }
    destruct ts as [|[name|c| | | | |] ts];
      try (exact (Href _ _ eq_refl)).
    + eexists _, _. split; [reflexivity | done].
    + cbn [length] in Hf.
      change (parse_list (S fuel) top acc (TClose :: ts)) with
        (if top then parse_list fuel top (leaf KError "}" :: acc) ts
         else Some (rev acc, ts)).
      destruct top.
      * destruct (Hlist true (leaf KError "}" :: acc) ts (length ts))
          as (l & r & E & Hl); [lia | lia |]. exists l, r. by rewrite E.
      * eexists _, _. split; [reflexivity | cbn [length]; lia].
    + cbn [length] in Hf.
      change (parse_list (S fuel) top acc (TSup :: ts)) with
        (parse_arg fuel ts ≫= λ '(arg, rest'),
          match arg, acc with
          | None, _ => parse_list fuel top (leaf KError "^" :: acc) ts
          | Some s, [] =>
              parse_list fuel top [set_superscript s (leaf KPlaceholder "")] rest'
          | Some s, prev :: acc' =>
              match superscript prev with
              | Some _ => parse_list fuel top (leaf KError "^" :: acc) ts
              | None => parse_list fuel top (set_superscript s prev :: acc') rest'
              end
          end).
      destruct (IHa ts) as (arg & rest' & E & Hr & _); [lia|]. rewrite E. cbn.
      assert (Hgo : ∀ acc' ts', (length ts' ≤ length ts)%nat →
        ∃ l rest, parse_list fuel top acc' ts' = Some (l, rest)
                  ∧ (length rest ≤ length (TSup :: ts))%nat).
      { intros acc' ts' Hts'. by apply (Hlist top acc' ts' (length ts)); [|lia]. }
      destruct arg as [s|]; [|by apply Hgo].
      destruct acc as [|prev acc]; [by apply Hgo|].
      destruct (superscript prev); by apply Hgo.
    + cbn [length] in Hf.
      change (parse_list (S fuel) top acc (TSub :: ts)) with
        (parse_arg fuel ts ≫= λ '(arg, rest'),
          match arg, acc with
          | None, _ => parse_list fuel top (leaf KError "_" :: acc) ts
          | Some s, [] =>
              parse_list fuel top [set_subscript s (leaf KPlaceholder "")] rest'
          | Some s, prev :: acc' =>
              match subscript prev with
              | Some _ => parse_list fuel top (leaf KError "_" :: acc) ts
              | None => parse_list fuel top (set_subscript s prev :: acc') rest'
              end
          end).
      destruct (IHa ts) as (arg & rest' & E & Hr & _); [lia|]. rewrite E. cbn.
      assert (Hgo : ∀ acc' ts', (length ts' ≤ length ts)%nat →
        ∃ l rest, parse_list fuel top acc' ts' = Some (l, rest)
                  ∧ (length rest ≤ length (TSub :: ts))%nat).
      { intros acc' ts' Hts'. by apply (Hlist top acc' ts' (length ts)); [|lia]. }
      destruct arg as [s|]; [|by apply Hgo].
      destruct acc as [|prev acc]; [by apply Hgo|].
      destruct (subscript prev); by apply Hgo.
  - intros ts Hf.
    destruct ts as [|[name|c| | | | |] ts]; cbn [length] in Hf;
      try (eexists _, _; split; [reflexivity | cbn [length]; split; [lia|]; intros _; lia]).
    + eexists _, _. split; [reflexivity | done].
    + change (parse_primary (S fuel) (TCommand name :: ts)) with
        (match symbols name with
         | None => Some (leaf KUnknown name, ts)
         | Some n =>
             if String.eqb name "" then Some (leaf KError "\", ts)
             else
               parse_args fuel n ts ≫= λ '(found, rest'),
               match found with
               | Some l => Some (mkAtom KCommand name l None None, rest')
               | None => Some (leaf KUnknown name, ts)
               end
         end).
      destruct (symbols name) as [n|];
        [|eexists _, _; split; [reflexivity | cbn [length]; split; [lia|]; intros _; lia]].
      destruct (String.eqb name "");
        [eexists _, _; split; [reflexivity | cbn [length]; split; [lia|]; intros _; lia]|].
      destruct (IHs n ts) as (found & rest' & E & Hr); [lia|]. rewrite E. cbn.
      destruct found; eexists _, _;
        (split; [reflexivity | cbn [length]; split; [lia|]; intros _; lia]).
    + change (parse_primary (S fuel) (TOpen :: ts)) with
        (parse_list fuel false [] ts ≫= λ '(body, rest'),
           Some (mkAtom KGroup "" [body] None None, rest')).
      destruct (IHl false [] ts) as (l & rest' & E & Hr); [lia|]. rewrite E. cbn.
      eexists _, _. split; [reflexivity | cbn [length]; split; [lia|]; intros _; lia].
  - intros ts Hf.
    destruct ts as [|[name|c| | | | |] ts]; cbn [length] in Hf;
      try (eexists _, _; split; [reflexivity | split; [done|]; by intros [? [=]]]).
    + change (parse_arg (S fuel) (TCommand name :: ts)) with
        (parse_primary fuel (TCommand name :: ts) ≫= λ '(a, rest'),
           Some (Some [a], rest')).
      destruct (IHp (TCommand name :: ts)) as (a & rest' & E & Hr & Hr');
        [cbn [length]; lia|]. rewrite E. cbn.
      eexists _, _. split; [reflexivity|]. split; [done|]. intros _. by apply Hr'.
    + change (parse_arg (S fuel) (TChar c :: ts)) with
        (match argument_ref arguments (TChar c :: ts) with
         | Some (l, rest') => Some (Some l, rest')
         | None => Some (Some [leaf KChar (String c EmptyString)], ts)
         end).
      destruct (argument_ref arguments (TChar c :: ts)) as [[l rest']|] eqn:Er.
      * apply argument_ref_length in Er. cbn [length] in Er.
        eexists _, _. split; [reflexivity|]. cbn [length]. split; [lia|].
        intros _; lia.
      * eexists _, _. split; [reflexivity|]. cbn [length]. split; [lia|].
        intros _; lia.
    + change (parse_arg (S fuel) (TOpen :: ts)) with
        (parse_list fuel false [] ts ≫= λ '(body, rest'), Some (Some body, rest')).
      destruct (IHl false [] ts) as (l & rest' & E & Hr); [lia|]. rewrite E. cbn.
      eexists _, _. split; [reflexivity|]. cbn [length]. split; [lia|].
      intros _; lia.
  - intros n ts Hf. destruct n as [|n].
    { eexists _, _. split; [reflexivity | done]. }
    change (parse_args (S fuel) (S n) ts) with
      (parse_arg fuel ts ≫= λ '(arg, rest),
         match arg with
         | None => Some (None, ts)
         | Some a =>
             parse_args fuel n rest ≫= λ '(more, rest'),
             Some (match more with Some l => Some (a :: l) | None => None end,
                   rest')
         end).
    destruct (IHa ts) as (arg & rest & E & Hr & Hr'); [lia|]. rewrite E. cbn.
    destruct arg as [a|]; [|eexists _, _; split; [reflexivity | done]].
    specialize (Hr' ltac:(done)).
    destruct (IHs n rest) as (more & rest' & E' & Hr''); [lia|]. rewrite E'. cbn.
    eexists _, _. split; [reflexivity | lia].
Qed.

(** The fuel [parseTokens] gives is enough: the parser returns. *)
Lemma parseTokens_returns (ts : list Token) :
  ∃ rest, Tex.parse_list symbols arguments (parse_fuel ts) true [] ts
          = Some (parseTokens symbols arguments ts, rest).
Proof.
  destruct (proj1 (parse_total (parse_fuel ts)) true [] ts) as (l & rest & E & _).
  { unfold parse_fuel. lia. }
  exists rest. unfold parseTokens. by rewrite E.
Qed.

End Total.

End TexFacts.

(** * The scenarios of the specification, on the model of the collaborators *)

Module SpecModelFacts.

(** ** Inline shortcuts *)

Lemma make_config_lookup (user : gmap string JsValue) (k : string) :
  k ≠ "spacesBehavesLikeTab" →
  make_config user !! k = user !! k.
Proof.
  intros Hk. unfold make_config, default_config.
  rewrite lookup_union, lookup_singleton_ne by done.
  by destruct (user !! k).
Qed.

Lemma matchEndOf_whole (cfg : gmap string JsValue) (key v : string) :
  key ≠ "" →
  SpecModel.lookup_shortcut cfg key = Some v →
  SpecModel.matchEndOf key cfg = Some (mkShortcutMatch key v).
Proof.
  intros Hk Hl. destruct key as [|c key]; [done|].
  cbn [SpecModel.matchEndOf]. by rewrite Hl.
Qed.

(** The match is the longest suffix of the text that has a shortcut. *)
Lemma matchEndOf_longest (cfg : gmap string JsValue) (text : string)
  (sc : ShortcutMatch) :
  SpecModel.matchEndOf text cfg = Some sc →
  SpecModel.lookup_shortcut cfg (sm_match sc) = Some (substitute sc) ∧
  ∃ pre, text = pre +:+ sm_match sc ∧
    ∀ pre1 pre2, pre = pre1 +:+ pre2 → pre2 ≠ "" →
      SpecModel.lookup_shortcut cfg (pre2 +:+ sm_match sc) = None.
Proof.
  induction text as [|c text IH]; [done|].
  cbn [SpecModel.matchEndOf].
  destruct (SpecModel.lookup_shortcut cfg (String c text)) as [v|] eqn:El.
  - intros [= <-]. cbn [sm_match substitute]. split; [done|].
    exists "". split; [done|]. intros [|a pre1] [|b pre2]; done.
  - intros H. destruct (IH H) as (Hl & pre & -> & Hlong). split; [done|].
    exists (String c pre). split; [done|].
    intros pre1 pre2 Hpre Hne. destruct pre1 as [|a pre1].
    + change ("" +:+ pre2) with pre2 in Hpre. subst pre2. exact El.
    + change (String a pre1 +:+ pre2) with (String a (pre1 +:+ pre2)) in Hpre.
      injection Hpre as _ Hpre. by apply (Hlong pre1).
Qed.


(** The shortcut [pi], with the default configuration and with a
    configuration that has a shortcut of its own for [pi], without and
    with the flag. *)
Lemma pi_shortcut_examples :
  SpecModel.matchEndOf "xpi" (make_config ∅)
    = Some (mkShortcutMatch "pi" "\pi") ∧
  SpecModel.matchEndOf "xpi" (make_config SpecModel.config_Pi)
    = Some (mkShortcutMatch "pi" "\Pi") ∧
  SpecModel.matchEndOf "xoo"
    (make_config (<["overrideDefaultInlineShortcuts" := JsBool true]>
                    SpecModel.config_Pi))
    = None ∧
  SpecModel.matchEndOf "xoo" (make_config SpecModel.config_Pi)
    = Some (mkShortcutMatch "oo" "\infty").
Proof. split_and!; by vm_compute. Qed.

(** ** Typing [p] then [i] *)

(** The scenario of the specification: after [p] and [i] the field holds
    the one atom of the Greek letter; two snapshots were taken, the
    empty field before [p] and the literal text before the substitution;
    one undo brings the literal text back. *)
Lemma typing_pi :
  mathlist SpecModel.field_pi
    = SpecModel.mathlist_of [Tex.mkAtom Tex.KCommand "pi" [] None None] ∧
  root_toLatex (mathlist SpecModel.field_pi) = "\pi" ∧
  um_stack (undoManager SpecModel.field_pi)
    = [SpecModel.empty_mathlist;
       SpecModel.mathlist_of [Tex.leaf Tex.KChar "p"; Tex.leaf Tex.KChar "i"]] ∧
  root_toLatex (mathlist (snd (perform (Selector "undo") SpecModel.field_pi)))
    = "pi".
Proof. split_and!; by vm_compute. Qed.

(** [i] typed after [p], in the empty field. *)
Lemma typed_char_inline_shortcut_example :
  mathlist (snd (undo_ (snd (_onTypedText_char "i" (None, false)
                               SpecModel.field_p))))
    = insert (JsString "i") JsUndefined (mathlist SpecModel.field_p) ∧
  root_toLatex (mathlist (snd (_onTypedText_char "i" (None, false)
                                 SpecModel.field_p))) = "\pi" ∧
  root_toLatex (insert (JsString "i") JsUndefined (mathlist SpecModel.field_p))
    = "pi".
Proof.
  split_and!; [|by vm_compute..].
  apply (typed_char_inline_shortcut "i" (None, false) SpecModel.field_p
           SpecModel.shortcut_pi);
    [vm_compute; reflexivity | vm_compute; reflexivity | vm_compute; lia].
Qed.

(** ** What the substitution removes *)

(** C1.  [i] typed after [p] in math mode, where [pi] is the shortcut
    that matches, on the math list of the specification, whose [delete]
    removes one atom for each unit of its count: the character is
    inserted, then the call [delete(-match.length - 1)] removes three
    items, [i], [p] and the item that stands before [p] when there is
    one, and the Greek letter is inserted.  So the letter takes the
    place of [p] and [i] alone only when nothing stands before [p].  One
    undo brings back the literal text, with [p] and [i] after what was
    there. *)
Theorem inline_shortcut_removes_one_more (earlier : list Tex.Atom)
  (later : list SpecModel.Item) (err : bool) (locals : option string * bool)
  (st : @MathField SpecModel.Mathlist) :
  mathlist st
    = SpecModel.mkMathlist
        (SpecModel.Math (Tex.leaf Tex.KChar "p")
         :: map SpecModel.Math earlier) [] later err →
  Shortcuts_matchEndOf
    (extractGroupStringBeforeInsertionPoint (mathlist st) +:+ "i") (config st)
    = Some SpecModel.shortcut_pi →
  (0 < maximumDepth (undoManager st))%nat →
  let st' := snd (_onTypedText_char "i" locals st) in
  mathlist st'
    = SpecModel.mkMathlist
        (SpecModel.Math (Tex.mkAtom Tex.KCommand "pi" [] None None)
         :: map SpecModel.Math (drop 1 earlier)) [] later err ∧
  mathlist (snd (undo_ st'))
    = SpecModel.mkMathlist
        (SpecModel.Math (Tex.leaf Tex.KChar "i")
         :: SpecModel.Math (Tex.leaf Tex.KChar "p")
         :: map SpecModel.Math earlier) [] later err.
Proof.
  intros Hml Hsc Hd st'.
  assert (Hmode : parseMode (mathlist st) = "math") by (by rewrite Hml).
  destruct (typed_char_inline_shortcut "i" locals st SpecModel.shortcut_pi
              Hmode Hsc Hd) as (Hst & _ & _ & Hundo).
  fold st' in Hst, Hundo.
  assert (Htyped : insert (JsString "i") JsUndefined (mathlist st)
            = SpecModel.mkMathlist
                (SpecModel.Math (Tex.leaf Tex.KChar "i")
                 :: SpecModel.Math (Tex.leaf Tex.KChar "p")
                 :: map SpecModel.Math earlier)
                [] later err)
    by (rewrite Hml; vm_compute; reflexivity).
  rewrite Htyped in Hst, Hundo. split; [|exact Hundo].
  rewrite Hst. destruct earlier as [|x [|y earlier]]; vm_compute; reflexivity.
Qed.

(** The witness of C1: [i] typed after [x] and [p].  The field then
    holds the Greek letter alone, and one undo brings [xpi] back. *)
Lemma inline_shortcut_removes_one_more_witness :
  mathlist Examples.field_xp
    = SpecModel.mkMathlist
        [SpecModel.Math (Tex.leaf Tex.KChar "p");
         SpecModel.Math (Tex.leaf Tex.KChar "x")] [] [] false ∧
  Shortcuts_matchEndOf
    (extractGroupStringBeforeInsertionPoint (mathlist Examples.field_xp) +:+ "i")
    (config Examples.field_xp) = Some SpecModel.shortcut_pi ∧
  (0 < maximumDepth (undoManager Examples.field_xp))%nat ∧
  root_toLatex (mathlist (snd (_onTypedText_char "i" (None, false)
                                 Examples.field_xp))) = "\pi" ∧
  root_toLatex
    (mathlist (snd (undo_ (snd (_onTypedText_char "i" (None, false)
                                  Examples.field_xp))))) = "xpi" ∧
  root_toLatex (mathlist (snd (typedText "xpi" (SpecModel.new_field ∅))))
    = "\pi".
Proof.
  assert (H1 : mathlist Examples.field_xp
            = SpecModel.mkMathlist
                [SpecModel.Math (Tex.leaf Tex.KChar "p");
                 SpecModel.Math (Tex.leaf Tex.KChar "x")] [] [] false)
    by (vm_compute; reflexivity).
  assert (H2 : Shortcuts_matchEndOf
    (extractGroupStringBeforeInsertionPoint (mathlist Examples.field_xp) +:+ "i")
    (config Examples.field_xp) = Some SpecModel.shortcut_pi)
    by (vm_compute; reflexivity).
  assert (H3 : (0 < maximumDepth (undoManager Examples.field_xp))%nat)
    by (vm_compute; lia).
  destruct (inline_shortcut_removes_one_more [Tex.leaf Tex.KChar "x"] [] false
              (None, false) Examples.field_xp H1 H2 H3) as [Hml Hundo].
  split_and!; [exact H1 | exact H2 | exact H3 | | |].
  - rewrite Hml. vm_compute. reflexivity.
  - rewrite Hundo. vm_compute. reflexivity.
  - vm_compute. reflexivity.
Defined.

(** ** The round trip through [latex] *)

Lemma math_atoms_app (l1 l2 : list SpecModel.Item) :
  SpecModel.math_atoms (l1 ++ l2)
  = SpecModel.math_atoms l1 ++ SpecModel.math_atoms l2.
Proof.
  induction l1 as [|[a|c s] l1 IH]; cbn; [done | by rewrite IH | done].
Qed.

Lemma math_atoms_map (l : list Tex.Atom) :
  SpecModel.math_atoms (map SpecModel.Math l) = l.
Proof. induction l as [|a l IH]; cbn; [done | by rewrite IH]. Qed.

Lemma split_placeholder_items (earlier : list SpecModel.Item)
  (l : list Tex.Atom) b p a :
  SpecModel.split_placeholder earlier l = Some (b, p, a) →
  rev b ++ p :: a = rev earlier ++ map SpecModel.Math l.
Proof.
  revert earlier. induction l as [|x l IH]; intros earlier; [done|].
  cbn [SpecModel.split_placeholder].
  destruct (Tex.is_placeholder x).
  - by intros [= <- <- <-].
  - intros H. rewrite (IH _ H). cbn [rev map]. by rewrite <- app_assoc.
Qed.

(** What the field holds after its content is replaced by the text
    [s]. *)
Lemma insert_replaceAll (s : string) (ml : SpecModel.Mathlist) :
  SpecModel.root_toLatex
    (SpecModel.insert (JsString s)
       (JsObject [("insertionMode", JsString "replaceAll");
                  ("format", JsString "latex")]) ml)
  = SpecModel.serialize (SpecModel.parse s).
Proof.
  unfold SpecModel.insert, SpecModel.option_string.
  cbn [js_get assoc_get String.eqb Ascii.eqb Bool.eqb andb].
  fold (SpecModel.parse s).
  unfold SpecModel.root_toLatex, SpecModel.items, SpecModel.serialize.
  destruct (SpecModel.split_placeholder [] (SpecModel.parse s))
    as [[[b p] a]|] eqn:E.
  - cbn [SpecModel.ml_before SpecModel.ml_selection SpecModel.ml_after].
    rewrite !app_nil_r. cbn [app].
    rewrite (split_placeholder_items _ _ _ _ _ E). cbn [rev app].
    by rewrite math_atoms_map.
  - cbn [SpecModel.ml_before SpecModel.ml_selection SpecModel.ml_after].
    rewrite !app_nil_r, rev_involutive. by rewrite math_atoms_map.
Qed.

Lemma latex_sets (s : string) (st : MathField) :
  s ≠ "" →
  ∃ st1, latex (JsString s) st
           = (Normal (SpecModel.serialize (SpecModel.parse s)), st1) ∧
         root_toLatex (mathlist st1) = SpecModel.serialize (SpecModel.parse s).
Proof.
  intros Hs.
  destruct (latex_sets_content (JsString s) st) as (st1 & Hrun & Hml).
  { cbn. by apply negb_true_iff, String.eqb_neq. }
  exists st1. rewrite Hrun, Hml.
  change (root_toLatex ?m) with (SpecModel.root_toLatex m).
  change (insert ?a ?b ?c) with (SpecModel.insert a b c).
  by rewrite insert_replaceAll.
Qed.

(** C4.  A LaTeX text read without an unknown command and without a
    malformed piece: the parser returns on it and on what the serializer
    writes; writing what was read and reading it again gives the same
    tree, which is written the same way; and the string [latex] returns
    when the text is set, set again, is returned again. *)
Theorem latex_round_trip (s : string) (st : MathField) :
  s ≠ "" →
  Tex.clean (SpecModel.parse s) = true →
  let out := SpecModel.serialize (SpecModel.parse s) in
  (∀ text, ∃ rest,
     Tex.parse_list SpecModel.symbols []
       (Tex.parse_fuel (Tex.tokenize text)) true [] (Tex.tokenize text)
     = Some (SpecModel.parse text, rest)) ∧
  SpecModel.parse out = SpecModel.parse s ∧
  SpecModel.serialize (SpecModel.parse out) = out ∧
  ∃ st1 st2, latex (JsString s) st = (Normal out, st1) ∧
             latex (JsString out) st1 = (Normal out, st2).
Proof.
  intros Hs Hclean out.
  assert (Hparse : SpecModel.parse out = SpecModel.parse s).
  { by apply (TexFacts.parse_serialize_parse SpecModel.symbols s). }
  split_and!; [ | done | by rewrite Hparse |].
  { intros text. apply TexFacts.parseTokens_returns. }
  destruct (latex_sets s st Hs) as (st1 & Hrun1 & Hml1).
  exists st1. destruct (decide (out = "")) as [Hout|Hout].
  - exists st1. split; [done|]. rewrite Hout.
    assert (Hget : latex (JsString "") st1
                   = (Normal (root_toLatex (mathlist st1)), st1))
      by reflexivity.
    rewrite Hget, Hml1. fold out. by rewrite Hout.
  - destruct (latex_sets out st1 Hout) as (st2 & Hrun2 & _).
    exists st2. split; [done|]. rewrite Hrun2. by rewrite Hparse.
Qed.

(** ** The command [Blackboard] on a selected [A] *)

(** The scenario of the specification: with the atom [A] selected, the
    selector of [Blackboard] puts [A] in the argument of the command. *)
Lemma blackboard_of_selected_A :
  mathlist SpecModel.field_A_selected
    = SpecModel.mkMathlist [] [SpecModel.Math (Tex.leaf Tex.KChar "A")] [] false ∧
  mathlist (snd (perform Commands.blackboard_selector SpecModel.field_A_selected))
    = SpecModel.mathlist_of
        [Tex.mkAtom Tex.KCommand "mathbb" [[Tex.leaf Tex.KChar "A"]] None None] ∧
  root_toLatex
    (mathlist (snd (perform Commands.blackboard_selector
                      SpecModel.field_A_selected)))
    = "\mathbb{A}".
Proof. split_and!; by vm_compute. Qed.

(** ** The properties of [MathField], at the fields of the model *)

(** The witness of C3: a selector nobody implements. *)
Lemma perform_unknown_selector_witness :
  SpecModel.mathlist_method (selector_of (Selector "frobnicate")) = None ∧
  @own_method SpecModel.Mathlist (list Tex.Atom) _ _
    (selector_of (Selector "frobnicate")) = None ∧
  perform (Selector "frobnicate") SpecModel.field_pi
    = (Normal false, SpecModel.field_pi).
Proof.
  split_and!; [reflexivity | reflexivity |].
  exact (perform_unknown_selector (Selector "frobnicate") SpecModel.field_pi
           eq_refl eq_refl).
Defined.

(** The witness of C4: the text of a fraction and a power. *)
Lemma latex_round_trip_witness :
  "\frac12+x^2" ≠ "" ∧
  Tex.clean (SpecModel.parse "\frac12+x^2") = true ∧
  SpecModel.serialize (SpecModel.parse "\frac12+x^2") = "\frac{1}{2}+x^{2}" ∧
  ∃ st1 st2,
    latex (JsString "\frac12+x^2") (SpecModel.new_field ∅)
      = (Normal (SpecModel.serialize (SpecModel.parse "\frac12+x^2")), st1) ∧
    latex (JsString (SpecModel.serialize (SpecModel.parse "\frac12+x^2"))) st1
      = (Normal (SpecModel.serialize (SpecModel.parse "\frac12+x^2")), st2).
Proof.
  assert (H1 : "\frac12+x^2" ≠ "") by discriminate.
  assert (H2 : Tex.clean (SpecModel.parse "\frac12+x^2") = true)
    by (vm_compute; reflexivity).
  split_and!; [exact H1 | exact H2 | vm_compute; reflexivity |].
  exact (proj2 (proj2 (proj2
    (latex_round_trip "\frac12+x^2" (SpecModel.new_field ∅) H1 H2)))).
Defined.

(** The witness of C6: [deletePreviousChar] after [p] is typed. *)
Lemma perform_delete_family_snapshot_witness :
  includes delete_family (selector_of (Selector "deletePreviousChar")) = true ∧
  SpecModel.mathlist_method (selector_of (Selector "deletePreviousChar"))
    = Some SpecModel.deletePreviousChar_method ∧
  (0 < maximumDepth (undoManager SpecModel.field_p))%nat ∧
  mathlist (snd (perform (Selector "deletePreviousChar") SpecModel.field_p))
    = SpecModel.empty_mathlist ∧
  mathlist (snd (undo_ (snd (perform (Selector "deletePreviousChar")
                               SpecModel.field_p))))
    = mathlist SpecModel.field_p.
Proof.
  assert (H1 : includes delete_family
                 (selector_of (Selector "deletePreviousChar")) = true)
    by reflexivity.
  assert (H2 : mathlist_method (selector_of (Selector "deletePreviousChar"))
               = Some SpecModel.deletePreviousChar_method)
    by reflexivity.
  assert (H3 : (0 < maximumDepth (undoManager SpecModel.field_p))%nat)
    by (vm_compute; lia).
  split_and!; [exact H1 | exact H2 | exact H3 | vm_compute; reflexivity |].
  exact (proj1 (proj2 (proj2 (proj2
    (perform_delete_family_snapshot (Selector "deletePreviousChar")
       SpecModel.deletePreviousChar_method SpecModel.field_p H1 H2 H3))))).
Defined.

(** The witness of C9: a character typed in command mode. *)
Lemma typed_char_outside_math_mode_witness :
  parseMode (mathlist SpecModel.field_command) ≠ "math" ∧
  (parseMode (mathlist SpecModel.field_command) = "command" →
   undoManager (snd (_onTypedText_char "p" (None, false) SpecModel.field_command))
     = undoManager SpecModel.field_command ∧
   ∃ evs,
     trace (snd (_onTypedText_char "p" (None, false) SpecModel.field_command))
       = trace SpecModel.field_command ++ evs ∧
     forallb command_mode_event evs = true).
Proof.
  assert (H1 : parseMode (mathlist SpecModel.field_command) ≠ "math")
    by (vm_compute; discriminate).
  split; [exact H1|].
  exact (proj1 (proj2 (proj2
    (typed_char_outside_math_mode "p" (None, false) SpecModel.field_command
       H1)))).
Defined.

(** The witness of C10: [latex] with the empty string, on the field that
    holds the Greek letter. *)
Lemma latex_falsy_is_getter_witness :
  truthy (JsString "") = false ∧
  latex (JsString "") SpecModel.field_pi
    = (Normal (root_toLatex (mathlist SpecModel.field_pi)), SpecModel.field_pi).
Proof.
  split; [reflexivity|].
  exact (latex_falsy_is_getter (JsString "") SpecModel.field_pi eq_refl).
Defined.

(** ** The command bar, at the selection [A+] *)

(** The witness of C8: [suggest] at the selection [A+]. *)
Lemma suggest_is_pure_lookup_witness :
  Commands.heap_wf Commands.heap_A_plus ∧
  Commands.context_allocated Commands.heap_A_plus None (Some 1%positive) None ∧
  Commands.atoms
    (snd (Commands.suggest Commands.no_shortcut Commands.stringify_keys
            Commands.value_toLatex Commands.template_markup
            "math" "" "" None None (Some 1%positive) None Commands.heap_A_plus))
    = Commands.atoms Commands.heap_A_plus.
Proof.
  assert (H1 : Commands.heap_wf Commands.heap_A_plus).
  { intros r [l Hl]. cbn in Hl. apply lookup_singleton_Some in Hl as [<- _].
    reflexivity. }
  assert (H2 : Commands.context_allocated Commands.heap_A_plus
                 None (Some 1%positive) None).
  { intros r [Hr|[Hr|Hr]]; [discriminate | | discriminate].
    injection Hr as <-. by eexists. }
  split_and!; [exact H1 | exact H2 |].
  exact (proj1
    (CommandsFacts.suggest_is_pure_lookup Commands.no_shortcut
       Commands.stringify_keys Commands.value_toLatex Commands.template_markup
       "math" "" "" None None (Some 1%positive) None Commands.heap_A_plus
       H1 H2)).
Defined.

End SpecModelFacts.

(** * Properties of the handlers and of the public API *)

Section MathFieldHandlersProperties.

Context {ML Frag : Type} `{!Collaborators ML Frag} `{!CommandBar ML}.

Local Abbreviation M := (StM (@MathField ML)).

Ltac mcbv :=
  cbv beta iota zeta delta
    [mbind mret StM_bind StM_ret gets modify throw when_ fst snd
     set_config set_mathlist set_undoManager set_suggestionIndex
     set_pasteInProgress set_keystrokeCaptionVisible set_commandBarVisible
     set_hasCaret set_isSelected set_dom set_trace set_blurred
     set_popover set_commandBar_shown set_field_innerHTML set_textarea_focused
     config mathlist undoManager suggestionIndex pasteInProgress
     keystrokeCaptionVisible commandBarVisible blurred hasCaret isSelected
     dom trace textarea_focused popover_visible popover_innerHTML
     commandBar_shown field_innerHTML].

Ltac case_if :=
  match goal with
  | |- context [if ?b then _ else _] => destruct b eqn:?
  end.

(** ** Pasted text *)

(** X2.  The text typed after a paste is inserted as a whole, by one call
    of [insert]: no shortcut is looked up, no undo snapshot is taken, the
    paste mark is cleared and the popover is hidden. *)
Theorem typed_text_after_paste (text : string) (st : MathField) :
  let ml0 := decorateCommandStringAroundInsertionPoint false (mathlist st) in
  let run := (_onPaste;; _onTypedText text) st in
  fst run = Normal tt ∧
  mathlist (snd run) = insert (JsString text) JsUndefined ml0 ∧
  undoManager (snd run) = undoManager st ∧
  pasteInProgress (snd run) = false ∧
  popover_visible (dom (snd run)) = false ∧
  trace (snd run) = trace st ++
    [EvMathlist "decorateCommandStringAroundInsertionPoint";
     EvMathlist "insert"; EvRender].
Proof.
  intros ml0 run. subst ml0 run.
  destruct st as [cfg ml um si p k cb b hc sel d t].
  unfold _onPaste, _onTypedText, on_mathlist, log. mcbv.
  rewrite render_result. mcbv.
  unfold _showPopoverWithLatex, _hidePopover. mcbv.
  destruct cb; mcbv; by rewrite <- !app_assoc.
Qed.

(** ** The popover after a typed character *)

Lemma chars_single (c : ascii) :
  chars (String c EmptyString) = [String c EmptyString].
Proof.
  unfold chars. cbn [code_points Nat.ltb Nat.leb andb flush app].
  by destruct (Nat.eqb (utf8_width c) 1).
Qed.

(** X3.  After one character is typed (not pasted), the popover is
    displayed exactly when the character was typed in command mode and
    the command it extends has a suggestion; the popover then shows the
    first suggestion. *)
Theorem popover_after_typed_char (c : ascii) (st : MathField) :
  pasteInProgress st = false →
  let ml0 := decorateCommandStringAroundInsertionPoint false (mathlist st) in
  let command :=
    extractCommandStringAroundInsertionPoint (removeSuggestion ml0)
    +:+ String c EmptyString in
  let st' := snd (_onTypedText (String c EmptyString) st) in
  (popover_visible (dom st') = true ↔
   parseMode ml0 = "command" ∧
   ∃ first others, Definitions_suggest command = first :: others ∧ first ≠ "") ∧
  (∀ first others,
     parseMode ml0 = "command" →
     Definitions_suggest command = first :: others → first ≠ "" →
     popover_innerHTML (dom st')
     = popover_template first (Nat.ltb 1 (length (first :: others)))).
Proof.
  intros Hp ml0 command st'. subst ml0 command st'.
  destruct st as [cfg ml um si p k cb b hc sel d t]. cbn [pasteInProgress] in Hp.
  subst p.
  unfold _onTypedText, on_mathlist, log. mcbv.
  rewrite chars_single. cbn [_onTypedText_loop].
  unfold _onTypedText_char, _showKeystroke, _hidePopover, on_mathlist,
    undoManager_snapshot, log. mcbv.
  set (ml0 := decorateCommandStringAroundInsertionPoint false ml).
  destruct (String.eqb (parseMode ml0) "command") eqn:Ecmd.
  - apply String.eqb_eq in Ecmd.
    assert (Hmath : String.eqb (parseMode ml0) "math" = false)
      by (by rewrite Ecmd).
    destruct k; mcbv; rewrite ?Hmath; mcbv; rewrite ?Ecmd;
      change (String.eqb "command" "command") with true; mcbv.
    all: set (command := extractCommandStringAroundInsertionPoint
                           (removeSuggestion ml0) +:+ String c EmptyString).
    all: destruct (Definitions_suggest command) as [|first others] eqn:Es; mcbv.
    all: repeat (case_if; mcbv).
    all: rewrite ?render_result; mcbv.
    all: unfold _showPopoverWithLatex, _showPopover, _hidePopover; mcbv.
    all: repeat (case_if; mcbv).
    all: try match goal with
         | H : String.eqb ?f "" = true |- _ => apply String.eqb_eq in H
         | H : String.eqb ?f "" = false |- _ => apply String.eqb_neq in H
         end.
    all: split; [split;
           [ intros Hv; first [discriminate Hv | split; [done|]; eauto]
           | intros (_ & f & o & Hf & Hne);
             first [discriminate Hf | injection Hf as <- <-; done] ]
         | intros f o _ Hf Hne;
           first [discriminate Hf | injection Hf as <- <-; done] ].
  - assert (Hne : parseMode ml0 ≠ "command") by (by apply String.eqb_neq).
    destruct k; mcbv; rewrite ?Ecmd; mcbv.
    all: repeat (case_if; mcbv).
    all: repeat match goal with
         | |- context [match ?x with Some _ => _ | None => _ end] =>
             destruct x eqn:?; mcbv
         end.
    all: rewrite ?Ecmd; mcbv.
    all: rewrite ?render_result; mcbv.
    all: unfold _showPopoverWithLatex, _hidePopover; mcbv.
    all: repeat (case_if; mcbv).
    all: split; [split; [done | by intros [? _]] | by intros f o ?].
Qed.

End MathFieldHandlersProperties.

Section MathFieldApiProperties.

Context {ML Frag : Type} `{!Collaborators ML Frag} `{!CommandBar ML}.

Variable Shortcuts_matchKeystroke : string → string → option Command.
Variable toSpeakableText : ML → string.
Variable anchor_is_command : ML → bool.
Variable setTimeout_updatePopoverPosition : StM (@MathField ML) unit.

Local Abbreviation M := (StM (@MathField ML)).
Local Abbreviation text := (text toSpeakableText).
Local Abbreviation _updatePopoverPosition :=
  (_updatePopoverPosition anchor_is_command setTimeout_updatePopoverPosition).
Local Abbreviation _onBlur :=
  (_onBlur anchor_is_command setTimeout_updatePopoverPosition).
Local Abbreviation _onFocus :=
  (_onFocus anchor_is_command setTimeout_updatePopoverPosition).
Local Abbreviation _onKeystroke := (_onKeystroke Shortcuts_matchKeystroke).
Local Abbreviation keystroke := (keystroke Shortcuts_matchKeystroke).

Ltac mcbv :=
  cbv beta iota zeta delta
    [mbind mret StM_bind StM_ret gets modify throw when_ fst snd
     set_config set_mathlist set_undoManager set_suggestionIndex
     set_pasteInProgress set_keystrokeCaptionVisible set_commandBarVisible
     set_hasCaret set_isSelected set_dom set_trace set_blurred
     set_popover set_commandBar_shown set_field_innerHTML set_textarea_focused
     config mathlist undoManager suggestionIndex pasteInProgress
     keystrokeCaptionVisible commandBarVisible blurred hasCaret isSelected
     dom trace textarea_focused popover_visible popover_innerHTML
     commandBar_shown field_innerHTML].

Ltac mred := repeat progress (mcbv; cbn [negb andb orb]).

Ltac case_if :=
  match goal with
  | |- context [if ?b then _ else _] => destruct b eqn:?
  end.

(** ** Insertion through [perform] *)

(** X4.  The selector [insert], when the math list has no method of that
    name: [perform] returns true and renders, and takes no undo
    snapshot; the text is inserted when it is a string that is not
    empty, and the math list is left as it is otherwise. *)
Theorem perform_insert (args : list JsValue) (st : MathField) :
  mathlist_method "insert_" = None →
  let run := perform (SelectorWithArgs "insert" args) st in
  fst run = Normal true ∧
  undoManager (snd run) = undoManager st ∧
  mathlist (snd run) =
    match arg 0 args with
    | JsString l =>
        if String.eqb l "" then mathlist st
        else insert (JsString l) (insert_options (arg 1 args)) (mathlist st)
    | _ => mathlist st
    end ∧
  ∃ evs, trace (snd run) = trace st ++ evs ++ [EvRender].
Proof.
  intros Hnone run. subst run. unfold perform. cbn [selector_of args_of].
  change ("insert" +:+ "_") with "insert_". rewrite Hnone.
  change (own_method "insert_")
    with (Some (λ args : list JsValue, insert_ (arg 0 args) (arg 1 args))).
  destruct st as [cfg ml um si p k cb b hc sel d t].
  unfold includes; cbn [existsb String.eqb Ascii.eqb Bool.eqb orb andb].
  unfold insert_, scrollIntoView_, on_mathlist, log, insert_options.
  destruct (arg 0 args) as [| |bo|z| |l|props]; mcbv.
  all: try (rewrite render_result; mcbv; split_and!; [done..|]; by exists []).
  destruct l as [|a l]; cbn [String.length Nat.ltb Nat.leb String.eqb]; mcbv.
  - rewrite render_result; mcbv. split_and!; [done..|]. by exists [].
  - rewrite render_result; mcbv. split_and!; [done..|].
    exists [EvMathlist "insert"]. by rewrite <- !app_assoc.
Qed.

(** ** The next suggestion *)

(** X5.  [nextSuggestion_] on a field whose suggestion index is at
    least -1: it returns, the index grows by one, and the suggestion
    shown is the one at the index modulo the number of suggestions; with
    no suggestion at all the command is marked as an error and the
    popover is hidden. *)
Theorem nextSuggestion_cycles (st : MathField) :
  (-1 ≤ suggestionIndex st)%Z →
  let ml1 := removeSuggestion
               (positionInsertionPointAfterCommitedCommand (mathlist st)) in
  let command := extractCommandStringAroundInsertionPoint ml1 in
  let suggestions := Definitions_suggest command in
  let i := Z.to_nat (suggestionIndex st + 1) in
  let st' := snd (nextSuggestion_ st) in
  fst (nextSuggestion_ st) = Normal tt ∧
  suggestionIndex st' = (suggestionIndex st + 1)%Z ∧
  match suggestions with
  | [] =>
      mathlist st' = decorateCommandStringAroundInsertionPoint true ml1 ∧
      popover_visible (dom st') = false
  | _ :: _ =>
      ∃ m, suggestions !! (i mod length suggestions)%nat = Some m ∧
        mathlist st' =
          (if Nat.eqb (js_length command) (js_length m) then ml1
           else insertSuggestion m
                  (Z.of_nat (js_length command)
                   - Z.of_nat (js_length m))%Z ml1) ∧
        (m ≠ "" →
         popover_visible (dom st') = true ∧
         popover_innerHTML (dom st')
         = popover_template m (Nat.ltb 1 (length suggestions)))
  end.
Proof.
  intros Hi ml1 command suggestions i st'. subst st'.
  destruct st as [cfg ml um si p k cb b hc sel d t].
  cbn [suggestionIndex mathlist] in *.
  unfold nextSuggestion_, _updateSuggestion, on_mathlist, log. mcbv.
  fold ml1. fold command. fold suggestions.
  destruct suggestions as [|s0 rest] eqn:Es.
  - cbn [length Nat.eqb]. unfold _hidePopover. mcbv.
    destruct cb; mcbv; rewrite render_result; mcbv; done.
  - set (n := length (s0 :: rest)).
    assert (Hn : (0 < n)%nat) by (subst n; cbn; lia).
    replace (Nat.eqb n 0) with false by (symmetry; apply Nat.eqb_neq; lia).
    mcbv.
    assert (Hrem : Z.rem (si + 1) (Z.of_nat n)
                   = Z.of_nat (i mod n)).
    { rewrite Z.rem_mod_nonneg by lia. subst i.
      rewrite Nat2Z.inj_mod, Z2Nat.id by lia. done. }
    rewrite Hrem.
    replace (Z.of_nat (i mod n) <? 0)%Z with false
      by (symmetry; apply Z.ltb_ge; lia).
    rewrite Nat2Z.id.
    assert (Hlt : (i mod n < n)%nat) by (apply Nat.mod_upper_bound; lia).
    assert (is_Some ((s0 :: rest) !! (i mod n)%nat)) as [m Hm]
      by (apply lookup_lt_is_Some_2; exact Hlt).
    rewrite Hm. mcbv.
    assert (Hl : (Z.of_nat (js_length command) - Z.of_nat (js_length m)
                  =? 0)%Z
                 = Nat.eqb (js_length command) (js_length m)).
    { destruct (Nat.eqb_spec (js_length command) (js_length m)) as [E|E].
      - apply Z.eqb_eq. lia.
      - apply Z.eqb_neq. lia. }
    rewrite Hl.
    unfold _showPopoverWithLatex, _showPopover, _hidePopover.
    destruct (Nat.eqb (js_length command) (js_length m)) eqn:Elen;
      cbn [negb]; mcbv.
    all: destruct (String.eqb_spec m "") as [Em|Em]; mcbv.
    all: repeat (case_if; mcbv).
    all: rewrite render_result; mcbv.
    all: split; [done|]; split; [done|]; exists m; rewrite Elen.
    all: split; [done|]; split; [done|].
    all: first [by intros ? | by intros _].
Qed.

(** ** Losing the focus *)

(** X6.  [_onBlur] on a field that is not blurred and whose configuration
    has no [onBlur] handler: it returns with the field blurred, the
    popover and the command bar hidden, the field rendered once and the
    content, the undo stack and [commandBarVisible] as they were; a
    second [_onBlur] does nothing. *)
Theorem onBlur_hides (st : MathField) :
  blurred st = false →
  truthy (default JsUndefined (config st !! "onBlur")) = false →
  let st' := snd (_onBlur st) in
  fst (_onBlur st) = Normal tt ∧
  blurred st' = true ∧
  popover_visible (dom st') = false ∧
  commandBar_shown (dom st') = false ∧
  mathlist st' = mathlist st ∧
  undoManager st' = undoManager st ∧
  commandBarVisible st' = commandBarVisible st ∧
  trace st' = trace st ++ [EvRender] ∧
  _onBlur st' = (Normal tt, st').
Proof.
  intros Hb Hh st'. subst st'.
  destruct st as [cfg ml um si p k cb b hc sel d t].
  cbn [blurred config] in Hb, Hh. subst b.
  unfold _onBlur, _updatePopoverPosition, _updateCommandBar, call_handler,
    _hidePopover.
  destruct d as [tf pv ph cs fh]. cbn [truthy]. mred.
  destruct pv; mred.
  - destruct cb; mred; rewrite render_result; mred; rewrite Hh; mred; done.
  - rewrite render_result; mred. rewrite Hh. mred. done.
Qed.

(** ** Keystrokes *)

Lemma bind_throws {A B : Type} (m : M A) (k : A → M B) (st : MathField) :
  (∀ a st1, ∃ e, fst (k a st1) = Throw e) →
  ∃ e, fst ((m ≫= k) st) = Throw e.
Proof.
  intros Hk. unfold mbind, StM_bind.
  destruct (m st) as [[a|e] st1]; [apply Hk | by exists e].
Qed.

(** X7.  A keystroke whose shortcut is a selector that neither the math
    list nor the field implements: [_onKeystroke] inserts the shortcut
    itself in the math list, with the error mark of the command removed
    first, renders once, takes no undo snapshot, and returns false with
    the default action of the event prevented and its propagation
    stopped. *)
Theorem onKeystroke_unknown_selector (keys : string) (e : KeyEvent)
  (command : Command) (st : MathField) :
  Shortcuts_matchKeystroke (parseMode (mathlist st)) keys = Some command →
  truthy (command_value command) = true →
  mathlist_method (selector_of command) = None →
  own_method (selector_of command) = None →
  let run := _onKeystroke keys (Some e) st in
  fst run = Normal (false, Some (mkKeyEvent true true)) ∧
  mathlist (snd run)
    = insert (command_value command) JsUndefined
        (decorateCommandStringAroundInsertionPoint false (mathlist st)) ∧
  undoManager (snd run) = undoManager st ∧
  trace (snd run)
    = trace st
      ++ [EvMathlist "decorateCommandStringAroundInsertionPoint"]
      ++ (if keystrokeCaptionVisible st then [EvShowKeystroke keys] else [])
      ++ [EvMathlist "insert"; EvRender].
Proof.
  intros Hs Ht Hm Ho run. subst run.
  destruct st as [cfg ml um si p k cb b hc sel d t]. cbn [mathlist] in Hs.
  unfold _onKeystroke, no_command, perform, _showKeystroke, on_mathlist, log,
    scrollIntoView_.
  mcbv. rewrite Hs, Ht, Hm, Ho. cbn [negb]. mcbv.
  destruct k; mcbv; rewrite render_result; mcbv.
  all: split_and!; try done.
  all: by rewrite <- !app_assoc.
Qed.

(** X8.  The public method [keystroke] passes no event to
    [_onKeystroke]: it returns, with the field as it was, exactly when
    no shortcut matches the keys; when one matches, the method ends with
    an exception. *)
Theorem keystroke_without_event (keys : string) (st : MathField) :
  let none :=
    no_command (Shortcuts_matchKeystroke (parseMode (mathlist st)) keys) in
  (none = true → keystroke keys st = (Normal tt, st)) ∧
  (none = false → ∃ e, fst (keystroke keys st) = Throw e).
Proof.
  intros none. subst none. unfold keystroke.
  destruct st as [cfg ml um si p k cb b hc sel d t]. cbn [mathlist].
  destruct (Shortcuts_matchKeystroke (parseMode ml) keys)
    as [command|] eqn:Hs.
  - split; intros Hn.
    + unfold _onKeystroke. mcbv. rewrite Hs, Hn. done.
    + assert (Ht : ∃ e, fst (_onKeystroke keys None
                   (mkMathField cfg ml um si p k cb b hc sel d t)) = Throw e).
      { unfold _onKeystroke. unfold mbind at 1. unfold StM_bind at 1.
        unfold gets at 1. cbv beta iota. cbn [mathlist].
        rewrite Hs, Hn.
        repeat (apply bind_throws; intros ? ?). by exists "TypeError". }
      destruct Ht as [e He]. exists e. unfold mbind, StM_bind.
      destruct (_onKeystroke keys None _) as [[a|e'] st1]; cbn in *; congruence.
  - split; intros Hn; [|discriminate Hn].
    unfold _onKeystroke. mcbv. by rewrite Hs.
Qed.

(** ** Reading the content *)

(** X9.  [text] never changes the field.  With no format, or a falsy
    one, or the format [latex], it returns what [latex] returns when it
    is called without a text; with a format that is neither [latex] nor
    [spoken] it returns the empty string. *)
Theorem text_formats (format : JsValue) (st : MathField) :
  snd (text format st) = st ∧
  (truthy format = false ∨ format = JsString "latex" →
   text format st = latex JsUndefined st) ∧
  (truthy format = true → format ≠ JsString "latex" →
   format ≠ JsString "spoken" → fst (text format st) = Normal "").
Proof.
  assert (Hl : latex JsUndefined st = (Normal (root_toLatex (mathlist st)), st))
    by reflexivity.
  rewrite Hl. unfold text.
  destruct format as [| |[]|z| |f|props]; cbn [truthy].
  7: { destruct (String.eqb_spec f "") as [->|Hne]; cbn [negb].
       - by split_and!; [| |intros [=]].
       - destruct (String.eqb_spec f "latex") as [->|Hf]; [done|].
         destruct (String.eqb_spec f "spoken") as [->|Hs];
           (split_and!; [done | by intros [[=]|[=]] | done]). }
  5: destruct (Z.eqb z 0); cbn [negb].
  all: split_and!; first [done | by intros [[=]|[=]] | by intros [=]].
Qed.

(** ** The selection, from the public API *)

(** X10.  [clearSelection] calls the method [delete_] of the math list as
    [perform] does for the selector [delete]: the content is the same
    after both, but [clearSelection] takes no undo snapshot and leaves
    the markup of the field as it is, where [perform] takes a snapshot
    of the content before the call. *)
Theorem clearSelection_no_snapshot
  (m : list JsValue → ML → Completion unit * ML) (st : MathField) :
  mathlist_method "delete_" = Some m →
  let st1 := snd (clearSelection st) in
  let st2 := snd (perform (Selector "delete") st) in
  mathlist st1 = mathlist st2 ∧
  undoManager st1 = undoManager st ∧
  field_innerHTML (dom st1) = field_innerHTML (dom st) ∧
  undoManager st2 = um_snapshot (undoManager st) (mathlist st).
Proof.
  intros Hm st1 st2. subst st1 st2.
  unfold clearSelection, mathlist_call, perform.
  cbn [selector_of args_of]. change ("delete" +:+ "_") with "delete_".
  rewrite Hm.
  destruct st as [cfg ml um si p k cb b hc sel d t].
  unfold call_mathlist, undoManager_snapshot, log, includes,
    delete_family, scrollIntoView_.
  cbn [existsb String.eqb Ascii.eqb Bool.eqb orb andb]. mred.
  destruct (m [] ml) as [[[]|e] ml'] eqn:Hml; mred.
  - rewrite render_result. mred. done.
  - done.
Qed.

(** ** Completing a command *)

(** X11.  The selector [complete], when the math list has no method of
    that name: [perform] returns true, takes one undo snapshot, of the
    content as it was, and leaves the popover hidden; when there is no
    command around the insertion point the content is not changed. *)
Theorem perform_complete (st : MathField) :
  mathlist_method "complete_" = None →
  let st1 := snd (perform (Selector "complete") st) in
  fst (perform (Selector "complete") st) = Normal true ∧
  undoManager st1 = um_snapshot (undoManager st) (mathlist st) ∧
  popover_visible (dom st1) = false ∧
  (extractCommandStringAroundInsertionPoint (mathlist st) = "" →
   mathlist st1 = mathlist st) ∧
  ∃ evs, trace st1 = trace st ++ [EvSnapshot] ++ evs ++ [EvRender] ∧
         (∀ e, e ∈ evs → ∃ method, e = EvMathlist method).
Proof.
  intros Hnone st1. subst st1. unfold perform. cbn [selector_of args_of].
  change ("complete" +:+ "_") with "complete_". rewrite Hnone.
  change (own_method "complete_") with (Some (λ _ : list JsValue, complete_)).
  destruct st as [cfg ml um si p k cb b hc sel [tf pv ph cs fh] t].
  unfold includes; cbn [existsb String.eqb Ascii.eqb Bool.eqb orb andb].
  unfold complete_, undoManager_snapshot, _hidePopover, scrollIntoView_,
    on_mathlist, log. mred.
  destruct cb; mred.
  all: destruct (String.eqb_spec (extractCommandStringAroundInsertionPoint ml) "")
    as [He|He]; mred.
  all: try (destruct (Definitions_matchFunction "math" _) as [?|]; mred).
  all: try (destruct (Definitions_matchSymbol "math" _) as [?|]; mred).
  all: try (destruct (parse_latex (extractCommandStringAroundInsertionPoint ml)
                        "math") as [?|]; mred).
  all: rewrite render_result; mred.
  all: split_and!; try done.
  all: try (exists []; split;
            [by rewrite <- !app_assoc | by intros e Hin; inversion Hin]).
  all: eexists [_]; (split; [by rewrite <- !app_assoc|]).
  all: intros e Hin; apply list_elem_of_singleton in Hin as ->; by eexists.
Qed.

End MathFieldApiProperties.

Section CommandBarInvariant.

Context {ML Frag : Type} `{!Collaborators ML Frag} `{!CommandBar ML}.

Variable Shortcuts_matchKeystroke : string → string → option Command.
Variable anchor_is_command : ML → bool.
Variable setTimeout_updatePopoverPosition : StM (@MathField ML) unit.

Local Abbreviation M := (StM (@MathField ML)).
Local Abbreviation _onBlur :=
  (_onBlur anchor_is_command setTimeout_updatePopoverPosition).
Local Abbreviation _onFocus :=
  (_onFocus anchor_is_command setTimeout_updatePopoverPosition).
Local Abbreviation _onKeystroke := (_onKeystroke Shortcuts_matchKeystroke).

Ltac mcbv :=
  cbv beta iota zeta delta
    [mbind mret StM_bind StM_ret gets modify throw when_ fst snd
     set_config set_mathlist set_undoManager set_suggestionIndex
     set_pasteInProgress set_keystrokeCaptionVisible set_commandBarVisible
     set_hasCaret set_isSelected set_dom set_trace set_blurred
     set_popover set_commandBar_shown set_field_innerHTML set_textarea_focused
     config mathlist undoManager suggestionIndex pasteInProgress
     keystrokeCaptionVisible commandBarVisible blurred hasCaret isSelected
     dom trace textarea_focused popover_visible popover_innerHTML
     commandBar_shown field_innerHTML bar_consistent].

Ltac mred := repeat progress (mcbv; cbn [negb andb orb]).

Lemma keeps_ret {A : Type} (a : A) : @keeps_bar ML _ (mret a : M A).
Proof. by intros st. Qed.

Lemma keeps_throw {A : Type} (e : string) : @keeps_bar ML _ (throw e : M A).
Proof. by intros st. Qed.

Lemma keeps_gets {A : Type} (f : @MathField ML → A) : @keeps_bar ML _ (gets f).
Proof. by intros st. Qed.

Lemma keeps_bind {A B : Type} (m : M A) (k : A → M B) :
  keeps_bar m → (∀ a, @keeps_bar ML _ (k a)) → @keeps_bar ML _ (m ≫= k).
Proof.
  intros Hm Hk st Hst. specialize (Hm st Hst).
  unfold mbind, StM_bind. destruct (m st) as [[a|e] st1]; cbn [snd] in *.
  - by apply Hk.
  - done.
Qed.

Lemma keeps_when (b : bool) (m : M unit) : @keeps_bar ML _ m → @keeps_bar ML _ (when_ b m).
Proof. intros Hm. destruct b; [done | apply keeps_ret]. Qed.

Lemma keeps_modify (f : @MathField ML → @MathField ML) :
  (∀ st, commandBar_shown (dom (f st)) = commandBar_shown (dom st) ∧
         commandBarVisible (f st) = commandBarVisible st) →
  @keeps_bar ML _ (modify f).
Proof.
  intros Hf st Hst. unfold bar_consistent, modify. cbn [snd].
  destruct (Hf st) as [-> ->]. exact Hst.
Qed.

Lemma keeps_log (e : Event) : @keeps_bar ML _ (log e).
Proof. by apply keeps_modify. Qed.

Lemma keeps_on_mathlist (method : string) (f : ML → ML) :
  @keeps_bar ML _ (on_mathlist method f).
Proof.
  apply keeps_bind; [apply keeps_log | intros _]. by apply keeps_modify.
Qed.

Lemma keeps_snapshot : @keeps_bar ML _ undoManager_snapshot.
Proof.
  apply keeps_bind; [apply keeps_log | intros _]. by apply keeps_modify.
Qed.

Lemma keeps_undo : @keeps_bar ML _ undoManager_undo.
Proof.
  apply keeps_bind; [apply keeps_log | intros _]. apply keeps_modify.
  intros st. by destruct (um_undo (undoManager st) (mathlist st)).
Qed.

Lemma keeps_redo : @keeps_bar ML _ undoManager_redo.
Proof.
  apply keeps_bind; [apply keeps_log | intros _]. apply keeps_modify.
  intros st. by destruct (um_redo (undoManager st) (mathlist st)).
Qed.

Lemma keeps_call_mathlist (selector : string)
  (m : list JsValue → ML → Completion unit * ML) (args : list JsValue) :
  @keeps_bar ML _ (call_mathlist selector m args).
Proof.
  apply keeps_bind; [apply keeps_log | intros _].
  intros st Hst. by destruct (m args (mathlist st)).
Qed.

Lemma keeps_render : @keeps_bar ML _ _render.
Proof. intros st Hst. rewrite render_result. exact Hst. Qed.

Lemma keeps_hidePopover : @keeps_bar ML _ _hidePopover.
Proof.
  intros [cfg ml um si p k cb b hc sel [tf pv ph cs fh] t].
  unfold _hidePopover. mred. by destruct cb.
Qed.

Lemma keeps_showPopover (markup : string) : @keeps_bar ML _ (_showPopover markup).
Proof.
  intros [cfg ml um si p k cb b hc sel [tf pv ph cs fh] t].
  unfold _showPopover. mred. by destruct cs.
Qed.

Lemma keeps_call {A : Type} (c : Completion A) : @keeps_bar ML _ (call c).
Proof. by intros st. Qed.

Lemma keeps_for_each {A : Type} (l : list A) (body : A → M unit) :
  (∀ a, @keeps_bar ML _ (body a)) → @keeps_bar ML _ (for_each l body).
Proof.
  intros Hbody. induction l as [|a l IH]; cbn [for_each].
  - apply keeps_ret.
  - apply keeps_bind; [apply Hbody | intros _; exact IH].
Qed.

(** The buttons of the command bar: the call of [Commands.suggest],
    which may throw, and the loop that follows. *)
Lemma keeps_buttons (ml : ML) :
  @keeps_bar ML _
    (commands ← call (fst (Commands.suggest getShortcutsForCommand stringify
                             toLatex_of template_markup_of
                             (parseMode ml) "" "" (mathlist_parent ml)
                             (extractGroupBeforeSelection ml)
                             (extractContents ml)
                             (extractGroupAfterSelection ml)
                             (atoms_heap ml)));
     for_each commands _makeButton).
Proof.
  apply keeps_bind; [apply keeps_call | intros commands].
  apply keeps_for_each. intros s. apply keeps_log.
Qed.

(** [_updateCommandBar] sets up the invariant, whatever the state, and
    whether [Commands.suggest] returns or throws. *)
Lemma updateCommandBar_consistent (st : @MathField ML) :
  bar_consistent (snd (_updateCommandBar st)).
Proof.
  destruct st as [cfg ml um si p k cb b hc sel [tf pv ph cs fh] t].
  unfold _updateCommandBar.
  unfold mbind at 1 2, StM_bind at 1 2, gets at 1 2.
  cbn [blurred commandBarVisible].
  destruct b, cb; cbn [negb andb]; try done.
  unfold mbind at 1 2 3 4, StM_bind at 1 2 3 4, log, modify, gets at 1.
  cbn [set_trace set_dom set_commandBar_shown mathlist dom trace config
       undoManager suggestionIndex pasteInProgress keystrokeCaptionVisible
       commandBarVisible blurred hasCaret isSelected textarea_focused
       popover_visible popover_innerHTML field_innerHTML].
  apply keeps_buttons. done.
Qed.

Lemma keeps_updateCommandBar : @keeps_bar ML _ _updateCommandBar.
Proof. intros st _. apply updateCommandBar_consistent. Qed.

Create HintDb keeps.

#[local] Hint Resolve keeps_ret keeps_throw keeps_gets keeps_when keeps_log
  keeps_on_mathlist keeps_snapshot keeps_undo keeps_redo keeps_call_mathlist
  keeps_render keeps_hidePopover keeps_showPopover keeps_updateCommandBar
  : keeps.

Ltac keeps :=
  repeat first
    [ solve [auto with keeps]
    | apply keeps_bind; [|intros ?]
    | apply keeps_when
    | apply keeps_modify; by intros []
    | match goal with
      | |- keeps_bar (if ?b then _ else _) => destruct b
      | |- keeps_bar (match ?x with _ => _ end) => destruct x
      end ].

Lemma keeps_showPopoverWithLatex (latex : option string) (arrows : bool) :
  @keeps_bar ML _ (_showPopoverWithLatex latex arrows).
Proof. unfold _showPopoverWithLatex. keeps. Qed.

Lemma keeps_showKeystroke (keystroke : string) :
  @keeps_bar ML _ (_showKeystroke keystroke).
Proof. unfold _showKeystroke. keeps. Qed.

Lemma keeps_focus : @keeps_bar ML _ focus.
Proof. unfold focus, hasFocus. keeps. Qed.

Lemma toggleCommandBar_consistent (st : @MathField ML) :
  bar_consistent (snd (toggleCommandBar_ st)).
Proof.
  destruct st as [cfg ml um si p k cb b hc sel [tf pv ph cs fh] t].
  unfold toggleCommandBar_, focus, hasFocus, log.
  destruct cb, tf; mred; try rewrite render_result; mred;
    exact (updateCommandBar_consistent _).
Qed.

Lemma keeps_toggleCommandBar : @keeps_bar ML _ toggleCommandBar_.
Proof. intros st _. apply toggleCommandBar_consistent. Qed.

Lemma keeps_toggleKeystrokeCaption : @keeps_bar ML _ toggleKeystrokeCaption_.
Proof. unfold toggleKeystrokeCaption_. keeps. Qed.

Lemma keeps_insert_ (latex options : JsValue) :
  @keeps_bar ML _ (insert_ latex options).
Proof. unfold insert_. keeps. Qed.

Lemma keeps_enterCommandMode : @keeps_bar ML _ enterCommandMode_.
Proof. unfold enterCommandMode_. keeps. Qed.

Lemma keeps_complete : @keeps_bar ML _ complete_.
Proof. unfold complete_. keeps. Qed.

#[local] Hint Resolve keeps_showPopoverWithLatex keeps_showKeystroke
  keeps_focus keeps_toggleCommandBar keeps_toggleKeystrokeCaption
  keeps_insert_ keeps_enterCommandMode keeps_complete : keeps.

Lemma keeps_updateSuggestion : @keeps_bar ML _ _updateSuggestion.
Proof. unfold _updateSuggestion. keeps. Qed.

#[local] Hint Resolve keeps_updateSuggestion : keeps.

Lemma keeps_nextSuggestion : @keeps_bar ML _ nextSuggestion_.
Proof. unfold nextSuggestion_. keeps. Qed.

Lemma keeps_previousSuggestion : @keeps_bar ML _ previousSuggestion_.
Proof. unfold previousSuggestion_. keeps. Qed.

Lemma keeps_inherited (selector : string) (m : list JsValue → M unit)
  (args : list JsValue) :
  inherited_method selector = Some m → @keeps_bar ML _ (m args).
Proof.
  unfold inherited_method. intros Hm.
  repeat (case_match; simplify_eq); auto with keeps.
Qed.

Lemma keeps_own_method (selector : string) (m : list JsValue → M unit)
  (args : list JsValue) :
  own_method selector = Some m → @keeps_bar ML _ (m args).
Proof.
  unfold own_method. intros Hm.
  repeat (case_match; [simplify_eq|]);
    try (unfold undo_, redo_, scrollIntoView_, scrollToStart_, scrollToEnd_,
           copyToClipboard_, cutToClipboard_, pasteFromClipboard_;
         auto using keeps_nextSuggestion, keeps_previousSuggestion with keeps).
  by apply keeps_inherited with (selector := selector).
Qed.

Lemma keeps_perform (command : Command) : @keeps_bar ML _ (perform command).
Proof.
  unfold perform.
  apply keeps_bind; [|intros ?; keeps].
  destruct (mathlist_method (selector_of command)) as [m|]; [keeps|].
  destruct (own_method (selector_of command)) as [m|] eqn:Hm; [|keeps].
  apply keeps_bind; [keeps | intros _].
  apply keeps_bind; [|intros ?; keeps].
  by apply keeps_own_method with (selector := selector_of command).
Qed.

Lemma keeps_onTypedText_char (c : string) (locals : option string * bool) :
  @keeps_bar ML _ (_onTypedText_char c locals).
Proof. unfold _onTypedText_char. destruct locals. keeps. Qed.

Lemma keeps_onTypedText_loop (cs : list string)
  (locals : option string * bool) :
  @keeps_bar ML _ (_onTypedText_loop cs locals).
Proof.
  revert locals. induction cs as [|c cs IH]; intros locals; cbn.
  - apply keeps_ret.
  - apply keeps_bind; [apply keeps_onTypedText_char | intros ?; apply IH].
Qed.

Lemma keeps_onTypedText (text : string) : @keeps_bar ML _ (_onTypedText text).
Proof.
  unfold _onTypedText.
  apply keeps_bind; [keeps | intros _].
  apply keeps_bind; [keeps | intros pasting].
  apply keeps_bind; [|intros ?; keeps].
  destruct pasting; [keeps | apply keeps_onTypedText_loop].
Qed.

Lemma keeps_latex (text : JsValue) : @keeps_bar ML _ (latex text).
Proof. unfold latex. keeps. Qed.

Lemma keeps_call_handler (name : string) : @keeps_bar ML _ (call_handler name).
Proof. unfold call_handler. keeps. Qed.

Lemma keeps_updatePopoverPosition :
  @keeps_bar ML _
    (_updatePopoverPosition anchor_is_command setTimeout_updatePopoverPosition
       JsUndefined).
Proof. unfold _updatePopoverPosition. cbn [truthy andb]. keeps. Qed.

#[local] Hint Resolve keeps_call_handler keeps_updatePopoverPosition
  keeps_perform : keeps.

Lemma keeps_onFocus : @keeps_bar ML _ _onFocus.
Proof. unfold _onFocus. keeps. Qed.

Lemma keeps_onBlur : @keeps_bar ML _ _onBlur.
Proof. unfold _onBlur. keeps. Qed.

Lemma keeps_onKeystroke (keys : string) (evt : option KeyEvent) :
  @keeps_bar ML _ (_onKeystroke keys evt).
Proof. unfold _onKeystroke. keeps. Qed.


End CommandBarInvariant.

Module CommandsMoreFacts.
Import Commands CommandsFacts.

Local Abbreviation C := (StM Heap).

(** ** The array [previousSingleCharOrDigits] builds *)

Lemma rev_is_reverse {A : Type} (l : list A) : rev l = reverse l.
Proof. by rewrite rev_alt. Qed.

Lemma digits_run_spec (h : Heap) (l : list AtomRef) :
  Forall (λ a, is_Some (atoms h !! a)) l →
  snd (digits_run (atoms h) l) = Normal tt ∧
  ∃ rest, l = rev (fst (digits_run (atoms h) l)) ++ rest ∧
    Forall (λ a, is_digit_atom h a = true) (fst (digits_run (atoms h) l)) ∧
    ∀ p, head rest = Some p → is_digit_atom h p = false.
Proof.
  induction 1 as [|a l [o Ho] _ IH]; cbn [digits_run].
  - split; [done|]. exists []. by split_and!.
  - rewrite Ho.
    destruct (String.eqb (atom_type o) "mord" && test_digit_or_dot (atom_value o))
      eqn:Hd.
    + destruct IH as (Hn & rest & Hl & Hall & Hp).
      destruct (digits_run (atoms h) l) as [t c]. cbn [fst snd] in *.
      split; [done|]. exists rest. split_and!; [| | done].
      * rewrite rev_app_distr. cbn. by rewrite <- Hl.
      * apply Forall_app. split; [done|]. apply Forall_singleton.
        unfold is_digit_atom. by rewrite Ho.
    + split; [done|]. exists (a :: l). split_and!; [done | done |].
      intros p [= <-]. unfold is_digit_atom. by rewrite Ho.
Qed.

Lemma head_rev_last {A : Type} (x : A) (xs : list A) :
  head (rev (x :: xs)) = Some (List.last (x :: xs) x).
Proof.
  destruct (exists_last (l := x :: xs) ltac:(done)) as (pre & y & Hl).
  rewrite Hl, rev_app_distr, last_last. done.
Qed.

(** X13.  [previousSingleCharOrDigits] with no atom selected and a
    [before] that is not empty returns a new array and leaves the atoms
    and every other array as they are, [before] too.  The new array is
    the end of [before]: its digits and dots of type [mord], as many as
    there are at the end, or, when the last atom is not one of them,
    that last atom alone. *)
Theorem previous_digits_or_last (ctx : Context) (rb : ArrRef) (x : AtomRef)
  (xs : list AtomRef) (h : Heap) :
  heap_wf h →
  match selection ctx with
  | None => True
  | Some rs => arrays h !! rs = Some []
  end →
  before ctx = Some rb →
  arrays h !! rb = Some (x :: xs) →
  Forall (λ a, is_Some (atoms h !! a)) (x :: xs) →
  let r := next_array h in
  let h' := snd (previousSingleCharOrDigits ctx h) in
  fst (previousSingleCharOrDigits ctx h) = Normal (Some r) ∧
  arrays h !! r = None ∧
  atoms h' = atoms h ∧
  (∀ r', r' ≠ r → arrays h' !! r' = arrays h !! r') ∧
  ∃ pre l,
    x :: xs = pre ++ l ∧ arrays h' !! r = Some l ∧ l ≠ [] ∧
    ((Forall (λ a, is_digit_atom h a = true) l ∧
      ∀ p, last pre = Some p → is_digit_atom h p = false)
     ∨ (l = [List.last (x :: xs) x] ∧
        is_digit_atom h (List.last (x :: xs) x) = false)).
Proof.
  intros Hwf Hsel Hbef Hrb Hall r h'. subst h'.
  assert (Hfresh : arrays h !! r = None).
  { destruct (arrays h !! r) eqn:E; [|done].
    assert (r < next_array h)%positive by (apply Hwf; eauto). subst r. lia. }
  assert (Hall' : Forall (λ a, is_Some (atoms h !! a)) (rev (x :: xs))).
  { rewrite Forall_forall in *. intros a Ha. apply Hall.
    rewrite rev_is_reverse in Ha. by apply elem_of_reverse. }
  destruct (digits_run_spec h (rev (x :: xs)) Hall')
    as (Hn & rest & Hl & Hd & Hp).
  assert (Hrun : previousSingleCharOrDigits ctx h =
            (Normal (Some r),
             mkHeap (atoms h) (<[r := digits_or_last (atoms h) x xs]> (arrays h))
               (Pos.succ r))).
  { rewrite previous_run. rewrite Hbef, Hrb. cbn zeta. rewrite Hn.
    destruct (selection ctx) as [rs|]; [|done]. by rewrite Hsel. }
  rewrite Hrun. cbn [fst snd atoms arrays].
  split_and!; [done | done | done | |].
  { intros r' Hr'. by rewrite lookup_insert_ne. }
  assert (Hx : x :: xs = rev rest ++ fst (digits_run (atoms h) (rev (x :: xs)))).
  { rewrite <- (rev_involutive (x :: xs)), Hl at 1.
    by rewrite rev_app_distr, rev_involutive. }
  unfold digits_or_last.
  destruct (fst (digits_run (atoms h) (rev (x :: xs)))) as [|t0 t] eqn:Et.
  - exists (removelast (x :: xs)), [List.last (x :: xs) x].
    split_and!; [by apply app_removelast_last | apply lookup_insert_eq | done |].
    right. split; [done|]. apply Hp. cbn [rev app] in Hl. rewrite <- Hl.
    apply head_rev_last.
  - exists (rev rest), (t0 :: t).
    split_and!; [done | apply lookup_insert_eq | done |].
    left. split; [done|]. intros p Hlast. apply Hp.
    by rewrite rev_is_reverse, last_reverse in Hlast.
Qed.

(** ** The order of the suggestions *)

Lemma insert_by_utility_sorted (x : Suggestion) (l : list Suggestion) :
  StronglySorted utility_order l →
  StronglySorted utility_order (insert_by_utility x l).
Proof.
  induction 1 as [|y l Hs IH Hy]; cbn [insert_by_utility].
  - repeat constructor.
  - destruct (Z.leb_spec (s_utility y) (s_utility x)) as [Hle|Hlt].
    + constructor; [by constructor|]. constructor; [done|].
      eapply Forall_impl; [exact Hy|]. unfold utility_order. intros z Hz. lia.
    + constructor; [done|]. rewrite Forall_forall. intros z Hz.
      apply list_elem_of_In, In_insert_by_utility in Hz as [->|Hz].
      * unfold utility_order. lia.
      * rewrite Forall_forall in Hy. by apply Hy, list_elem_of_In.
Qed.

Lemma sort_by_utility_sorted (l : list Suggestion) :
  StronglySorted utility_order (sort_by_utility l).
Proof.
  unfold sort_by_utility. induction l as [|x l IH]; cbn [foldr].
  - constructor.
  - by apply insert_by_utility_sorted.
Qed.

Section MoreSuggestFacts.

Variable Shortcuts_getShortcutsForCommand : Command → option Keys.
Variable Shortcuts_stringify : Keys → string.
Variable Atom_toLatex : AtomRef → AtomObj → string.
Variable markup_of : string → list string → string.

Local Abbreviation suggest_command :=
  (suggest_command Shortcuts_getShortcutsForCommand Shortcuts_stringify
     Atom_toLatex markup_of).
Local Abbreviation suggest_loop :=
  (suggest_loop Shortcuts_getShortcutsForCommand Shortcuts_stringify
     Atom_toLatex markup_of).
Local Abbreviation suggest :=
  (suggest Shortcuts_getShortcutsForCommand Shortcuts_stringify
     Atom_toLatex markup_of).

(** X14.  The list [suggest] returns is in the order of decreasing
    utility. *)
Theorem suggest_sorted (parsemode environment modifiers : string)
  (parent : option AtomRef) (before selection after : option ArrRef)
  (h : Heap) (res : list Suggestion) :
  fst (suggest parsemode environment modifiers parent before selection after h)
    = Normal res →
  StronglySorted utility_order res.
Proof.
  unfold Commands.suggest, mbind, StM_bind.
  destruct (Commands.suggest_loop _ _ _ _ _ _ h) as [[entries|e] h1]; [|done].
  intros [= <-]. apply sort_by_utility_sorted.
Qed.

(** The selectors of the table that one command only has, with the
    condition of that command. *)
Lemma selector_condition (command : CommandDesc) :
  In command COMMANDS →
  (selector command = Selector "moveToPreviousChar" → condition command = None) ∧
  (selector command = Selector "moveToNextChar" → condition command = None) ∧
  (selector command = Selector "deletePreviousChar" → condition command = None) ∧
  (selector command = Selector "moveToNextPlaceholder" →
   condition command = Some notInCommandMode) ∧
  (selector command = Selector "enterCommandMode" →
   condition command = Some notInCommandMode) ∧
  (selector command = Selector "complete" →
   condition command = Some inCommandMode) ∧
  (selector command = SelectorWithArgs "copyToClipboard" [] →
   condition command = Some selectionIsNotEmpty).
Proof.
  unfold COMMANDS. cbn [In].
  intros H. repeat (destruct H as [<-|H]; [by split_and!|]). done.
Qed.

(** X15.  When [suggest] returns, on a well-formed heap with the arrays
    of the context allocated: the commands to move left and right and to
    delete backwards are always offered; [complete] is offered exactly
    in command mode; [enterCommandMode] and [moveToNextPlaceholder]
    exactly when there is no selection and the mode is not the command
    mode; [copyToClipboard] exactly when the selection is not [null]. *)
Theorem suggest_offers (parsemode environment modifiers : string)
  (parent : option AtomRef) (before selection after : option ArrRef)
  (h : Heap) (res : list Suggestion) :
  heap_wf h →
  context_allocated h before selection after →
  fst (suggest parsemode environment modifiers parent before selection after h)
    = Normal res →
  let offered s := In s (map s_selector res) in
  offered (Selector "moveToPreviousChar") ∧
  offered (Selector "moveToNextChar") ∧
  offered (Selector "deletePreviousChar") ∧
  (offered (Selector "complete") ↔ parsemode = "command") ∧
  (offered (Selector "enterCommandMode")
   ↔ selection = None ∧ parsemode ≠ "command") ∧
  (offered (Selector "moveToNextPlaceholder")
   ↔ selection = None ∧ parsemode ≠ "command") ∧
  (offered (SelectorWithArgs "copyToClipboard" []) ↔ selection ≠ None).
Proof.
  intros Hwf Halloc Hrun offered.
  set (b := next_array h).
  set (ctx := mkContext parsemode environment modifiers parent
                before selection after).
  assert (Hctx : context_below b ctx).
  { intros x Hx. apply Hwf, Halloc. cbn in Hx. tauto. }
  assert (V : valid b h) by (split; [done | subst b; lia]).
  unfold Commands.suggest, mbind, StM_bind in Hrun. fold ctx in Hrun.
  destruct (suggest_loop ctx COMMANDS h) as [[entries|e] h1] eqn:E; [|done].
  cbn in Hrun. injection Hrun as <-.
  assert (Hall : Forall (λ command,
    good b (suggest_command ctx command) ∧
    ∀ cond, condition command = Some cond → reads_below b (cond ctx)) COMMANDS).
  { apply Forall_and. split; [by apply good_commands | by apply conditions_read]. }
  assert (Hoff : ∀ s, offered s ↔
            ∃ command, In command COMMANDS ∧ selector command = s
                       ∧ enabled ctx command h).
  { intros s. subst offered. cbv beta.
    rewrite <- (suggest_loop_offers _ _ _ _ b ctx COMMANDS Hall h h entries h1 V
                  ltac:(done) E s).
    rewrite !in_map_iff. by setoid_rewrite In_sort_by_utility. }
  assert (Hnot : (negb (bool_decide (is_Some selection))
                  && negb (String.eqb parsemode "command") = true)
                 ↔ selection = None ∧ parsemode ≠ "command").
  { rewrite andb_true_iff, !negb_true_iff, bool_decide_eq_false.
    rewrite <- not_true_iff_false, String.eqb_eq.
    destruct selection; split; intros [H1 H2]; split; try done.
    exfalso. apply H1. by eexists. }
  split_and!.
  - apply Hoff. exists (glyph "&#x21e0" "Left" "moveToPreviousChar" 1004 None).
    split_and!; [unfold COMMANDS; cbn [In]; tauto | done | done].
  - apply Hoff. exists (glyph "&#x21e2" "Right" "moveToNextChar" 1003 None).
    split_and!; [unfold COMMANDS; cbn [In]; tauto | done | done].
  - apply Hoff. exists (glyph "&#x232b" "Backspace" "deletePreviousChar" 1001 None).
    split_and!; [unfold COMMANDS; cbn [In]; tauto | done | done].
  - rewrite Hoff. split.
    + intros (command & Hc & Hs & He).
      destruct (selector_condition command Hc) as (_ & _ & _ & _ & _ & H6 & _).
      unfold enabled in He. rewrite (H6 Hs) in He. cbn in He.
      injection He as He. by apply String.eqb_eq.
    + intros ->. eexists (mkCommandDesc "Complete" None None
        (Some (KeyString "Return")) (Selector "complete") 800
        (Some inCommandMode) None None).
      split_and!; [unfold COMMANDS; cbn [In]; tauto | done | done].
  - rewrite Hoff, <- Hnot. split.
    + intros (command & Hc & Hs & He).
      destruct (selector_condition command Hc) as (_ & _ & _ & _ & H5 & _).
      unfold enabled in He. rewrite (H5 Hs) in He. cbn in He.
      by injection He as He.
    + intros He. eexists (mkCommandDesc "Command" None None
        (Some (KeyString "\")) (Selector "enterCommandMode") 800
        (Some notInCommandMode) None None).
      split_and!; [unfold COMMANDS; cbn [In]; tauto | done |].
      unfold enabled. cbn. by rewrite He.
  - rewrite Hoff, <- Hnot. split.
    + intros (command & Hc & Hs & He).
      destruct (selector_condition command Hc) as (_ & _ & _ & H4 & _).
      unfold enabled in He. rewrite (H4 Hs) in He. cbn in He.
      by injection He as He.
    + intros He.
      exists (glyph "&#x21e5" "Tab" "moveToNextPlaceholder" 1002
                (Some notInCommandMode)).
      split_and!; [unfold COMMANDS; cbn [In]; tauto | done |].
      unfold enabled. cbn. by rewrite He.
  - rewrite Hoff. split.
    + intros (command & Hc & Hs & He).
      destruct (selector_condition command Hc) as (_ & _ & _ & _ & _ & _ & H7).
      unfold enabled in He. rewrite (H7 Hs) in He. cbn in He.
      injection He as He. apply bool_decide_eq_true in He as [r ->]. done.
    + intros He. eexists (mkCommandDesc "Copy as LaTeX" None None
        (Some (KeyList ["mac:Meta-KeyC"; "!mac:Ctrl-KeyC"]))
        (SelectorWithArgs "copyToClipboard" []) 900
        (Some selectionIsNotEmpty) None None).
      split_and!; [unfold COMMANDS; cbn [In]; tauto | done |].
      unfold enabled. cbn. destruct selection; [|done].
      by rewrite bool_decide_eq_true_2.
Qed.

(** X16.  [suggest] with no selection and a [before] that is an empty
    array, at the root or with no parent: the condition of the command
    [Superscript] reads the type of the atom before the insertion
    point, there is none, and [suggest] throws a TypeError; the heap is
    as it was. *)
Theorem suggest_empty_before (parsemode environment modifiers : string)
  (parent : option AtomRef) (r : ArrRef) (after : option ArrRef) (h : Heap) :
  arrays h !! r = Some [] →
  parent_is_root h parent = true →
  suggest parsemode environment modifiers parent (Some r) None after h
    = (Throw "TypeError", h).
Proof.
  intros Hr Hroot.
  assert (Hsup : supsubCandidate
            (mkContext parsemode environment modifiers parent (Some r) None after) h
            = (Throw "TypeError", h)).
  { unfold supsubCandidate, parent_is_root in *. cbn [before Commands.parent].
    unfold mbind, StM_bind, read_atom, read_array, mret, StM_ret, throw.
    destruct parent as [p|].
    - destruct (atoms h !! p) as [o|]; [|done]. rewrite Hroot, Hr. done.
    - by rewrite Hr. }
  unfold Commands.suggest, COMMANDS. cbn [Commands.suggest_loop].
  unfold Commands.suggest_command, glyph, styled.
  cbn [condition dynamicLabel shortcut selector label cls ariaLabel utility
       Commands.arg].
  unfold selectionIsSingleUppercaseChar, selectionIsSingleUppercaseCharOrDigit,
    selectionIsSingleAlphaChar, selection_has_single, selectionIsNotEmpty,
    notInCommandMode.
  cbn [selection Commands.parsemode].
  unfold mbind, StM_bind, mret, StM_ret.
  destruct (String.eqb parsemode "command");
    cbn -[supsubCandidate]; by rewrite Hsup.
Qed.

End MoreSuggestFacts.

End CommandsMoreFacts.

Module PointerFacts.
Import Pointer.

Section ElementFacts.

Variable Num : Type.
Variable sub mul add : Num → Num → Num.
Variable max3 : Num → Num → Num → Num.
Variable leb : Num → Num → bool.
Variable zero infinity : Num.

Local Abbreviation Element := (Element Num).

Lemma Element_ind' (P : Element → Prop) :
  (∀ c i r ch, Forall P ch → P (mkElement Num c i r ch)) → ∀ el, P el.
Proof.
  intros H. fix IH 1. intros [c i r ch]. apply H.
  induction ch as [|child ch IHch]; constructor; [apply IH | exact IHch].
Qed.

Lemma find_app' {A : Type} (f : A → bool) (l1 l2 : list A) :
  List.find f (l1 ++ l2)
  = match List.find f l1 with Some a => Some a | None => List.find f l2 end.
Proof.
  induction l1 as [|a l1 IH]; cbn; [done|]. by destruct (f a).
Qed.

(** X17.  [_findElementWithCaret] returns the first element, in document
    order, among the element and those inside it, whose classes include
    [ML__caret]; and nothing when there is none. *)
Theorem findElementWithCaret_first (el : Element) :
  _findElementWithCaret Num el = List.find (is_caret Num) (descendants Num el).
Proof.
  induction el as [c i r ch IH] using Element_ind'.
  cbn [_findElementWithCaret descendants List.find Pointer.children].
  destruct (is_caret Num (mkElement Num c i r ch)); [done|].
  enough (Hloop : ∀ result,
    (fix each (l : list Element) (result : option Element) : option Element :=
       match l with
       | [] => result
       | child :: rest =>
           each rest match result with
                     | Some r0 => Some r0
                     | None => _findElementWithCaret Num child
                     end
       end) ch result
    = match result with
      | Some r0 => Some r0
      | None =>
          List.find (is_caret Num)
            ((fix each (l : list Element) : list Element :=
                match l with
                | [] => []
                | child :: rest => descendants Num child ++ each rest
                end) ch)
      end) by apply Hloop.
  induction IH as [|child ch Hchild _ IHch]; intros result.
  - by destruct result.
  - rewrite IHch, find_app', <- Hchild. by destruct result.
Qed.

(** The order of the numbers: any two compare, the comparison is
    transitive, and no number is above infinity; so it is of the numbers
    of JavaScript other than NaN. *)
Hypothesis leb_total : ∀ a b, leb a b = true ∨ leb b a = true.
Hypothesis leb_trans : ∀ a b c, leb a b = true → leb b c = true → leb a c = true.
Hypothesis leb_infinity : ∀ a, leb a infinity = true.

Local Abbreviation nearestElementFromPoint :=
  (nearestElementFromPoint Num sub mul add max3 leb zero infinity).
Local Abbreviation square_distance := (square_distance Num sub mul add max3 zero).
Local Abbreviation nearest_among :=
  (nearest_among Num sub mul add max3 leb zero infinity).
Local Abbreviation searched := (searched Num leb).

Lemma nearest_among_more (res : Nearest Num) (seen more : list Element)
  (x y : Num) :
  nearest_among res seen x y →
  (∀ e', In e' more → has_atom_id Num e' = false) →
  nearest_among res (seen ++ more) x y.
Proof.
  unfold Pointer.nearest_among. intros H Hmore.
  destruct (element Num res) as [e|].
  - destruct H as (Hin & Hid & Hd & Hmin). split_and!; [|done|done|].
    + apply in_or_app. by left.
    + intros e' [He'|He']%in_app_or Hid'; [by apply Hmin|].
      rewrite (Hmore e' He') in Hid'. done.
  - destruct H as (Hd & Hnone). split; [done|].
    intros e' [He'|He']%in_app_or; [by apply Hnone | by apply Hmore].
Qed.

Lemma closer_nearest (nearest result : Nearest Num) (seen more : list Element)
  (x y : Num) :
  nearest_among result seen x y →
  nearest_among nearest more x y →
  nearest_among (closer Num leb nearest result) (seen ++ more) x y.
Proof.
  unfold closer. intros Hres Hnear.
  destruct (element Num nearest) as [e|] eqn:Ee.
  - assert (Hn := Hnear). unfold Pointer.nearest_among in Hn. rewrite Ee in Hn.
    destruct Hn as (Hin & Hid & Hd & Hmin).
    destruct (leb (distance Num nearest) (distance Num result)) eqn:Hle.
    + unfold Pointer.nearest_among. rewrite Ee.
      split_and!; [apply in_or_app; by right | done | done |].
      intros e' [He'|He']%in_app_or Hid'; [|by apply Hmin].
      unfold Pointer.nearest_among in Hres.
      destruct (element Num result) as [e0|].
      * destruct Hres as (_ & _ & _ & Hmin0).
        eapply leb_trans; [exact Hle | by apply Hmin0].
      * destruct Hres as (_ & Hnone). rewrite (Hnone e' He') in Hid'. done.
    + assert (Hge : leb (distance Num result) (distance Num nearest) = true).
      { destruct (leb_total (distance Num result) (distance Num nearest)) as [H|H];
          [done | congruence]. }
      unfold Pointer.nearest_among in *.
      destruct (element Num result) as [e0|].
      * destruct Hres as (Hin0 & Hid0 & Hd0 & Hmin0).
        split_and!; [apply in_or_app; by left | done | done |].
        intros e' [He'|He']%in_app_or Hid'; [by apply Hmin0|].
        eapply leb_trans; [exact Hge | by apply Hmin].
      * destruct Hres as (Hd0 & _). rewrite Hd0, leb_infinity in Hle. done.
  - apply nearest_among_more; [done|].
    unfold Pointer.nearest_among in Hnear. rewrite Ee in Hnear. by destruct Hnear.
Qed.

(** X18.  [nearestElementFromPoint], when the numbers compare as those of
    JavaScript other than NaN do: the element it returns is one of the
    elements the search visits, has an atom, and is returned with the
    square of its distance to the point, which is no more than that of
    any other visited element that has an atom; it returns no element,
    and an infinite distance, exactly when no visited element has an
    atom. *)
Theorem nearest_is_nearest (el : Element) (x y : Num) :
  let res := nearestElementFromPoint el x y in
  match element Num res with
  | Some e =>
      In e (searched el x) ∧ has_atom_id Num e = true ∧
      distance Num res = square_distance e x y ∧
      ∀ e', In e' (searched el x) → has_atom_id Num e' = true →
            leb (distance Num res) (square_distance e' x y) = true
  | None =>
      distance Num res = infinity ∧
      ∀ e', In e' (searched el x) → has_atom_id Num e' = false
  end.
Proof.
  intros res. subst res.
  change (nearest_among (nearestElementFromPoint el x y) (searched el x) x y).
  induction el as [c i r ch IH] using Element_ind'.
  set (el := mkElement Num c i r ch).
  set (own := if has_atom_id Num el
              then mkNearest Num (Some el) (square_distance el x y)
              else mkNearest Num None infinity).
  assert (Hown : nearest_among own [el] x y).
  { subst own. unfold Pointer.nearest_among.
    destruct (has_atom_id Num el) eqn:Hid; cbn [element distance].
    - split_and!; [by left | done | done |].
      intros e' [<-|[]] _.
      by destruct (leb_total (square_distance el x y) (square_distance el x y)).
    - split; [done|]. by intros e' [<-|[]]. }
  assert (Hloop : ∀ result seen,
    nearest_among result seen x y →
    nearest_among
      ((fix each (l : list Element) (result : Nearest Num) : Nearest Num :=
          match l with
          | [] => result
          | child :: rest =>
              each rest (closer Num leb (nearestElementFromPoint child x y) result)
          end) ch result)
      (seen ++ (fix each (l : list Element) : list Element :=
                  match l with
                  | [] => []
                  | child :: rest => searched child x ++ each rest
                  end) ch) x y).
  { clear Hown. induction IH as [|child ch Hchild _ IHch]; intros result seen Hres.
    - by rewrite app_nil_r.
    - rewrite app_assoc. apply IHch. by apply closer_nearest. }
  unfold Pointer.square_distance in own. subst own el.
  cbn [Pointer.nearestElementFromPoint Pointer.searched Pointer.children
       Pointer.rect].
  destruct (has_atom_id Num (mkElement Num c i r ch)) eqn:Hid.
  - destruct (leb (left Num r) x && leb x (right Num r)).
    + exact (Hloop _ [_] Hown).
    + exact Hown.
  - exact (Hloop _ [_] Hown).
Qed.

End ElementFacts.

End PointerFacts.

(** * The properties at the fields of the model *)

Module ExamplesFacts.

(** [p] typed in command mode: the popover shows the command of the
    Greek letter. *)
Lemma popover_after_typed_char_witness :
  pasteInProgress SpecModel.field_command = false ∧
  popover_visible (dom (snd (_onTypedText "p" SpecModel.field_command))) = true ∧
  popover_innerHTML (dom (snd (_onTypedText "p" SpecModel.field_command)))
    = "\pi".
Proof.
  assert (H1 : pasteInProgress SpecModel.field_command = false) by reflexivity.
  pose proof (popover_after_typed_char "p"%char SpecModel.field_command H1)
    as [Hvis Hhtml].
  split_and!; [exact H1 | |].
  - apply Hvis. split; [vm_compute; reflexivity|].
    exists "\pi", []. split; [vm_compute; reflexivity | discriminate].
  - apply (Hhtml "\pi" []);
      [vm_compute; reflexivity | vm_compute; reflexivity | discriminate].
Defined.

(** [insert] of the letter [x] in the empty field. *)
Lemma perform_insert_witness :
  SpecModel.mathlist_method "insert_" = None ∧
  fst (perform (SelectorWithArgs "insert" [JsString "x"]) (SpecModel.new_field ∅))
    = Normal true ∧
  undoManager
    (snd (perform (SelectorWithArgs "insert" [JsString "x"])
            (SpecModel.new_field ∅)))
    = undoManager (SpecModel.new_field ∅).
Proof.
  assert (H1 : SpecModel.mathlist_method "insert_" = None) by reflexivity.
  pose proof (perform_insert [JsString "x"] (SpecModel.new_field ∅) H1)
    as (Hr & Hum & _).
  split_and!; [exact H1 | exact Hr | exact Hum].
Defined.

(** The next suggestion, in command mode with nothing typed yet. *)
Lemma nextSuggestion_cycles_witness :
  (-1 ≤ suggestionIndex SpecModel.field_command)%Z ∧
  fst (nextSuggestion_ SpecModel.field_command) = Normal tt ∧
  suggestionIndex (snd (nextSuggestion_ SpecModel.field_command)) = 1%Z.
Proof.
  assert (H1 : (-1 ≤ suggestionIndex SpecModel.field_command)%Z)
    by (vm_compute; discriminate).
  pose proof (nextSuggestion_cycles SpecModel.field_command H1)
    as (Hr & Hi & _).
  split_and!; [exact H1 | exact Hr | exact Hi].
Defined.


(** The empty field loses the focus. *)
Lemma onBlur_hides_witness :
  blurred (SpecModel.new_field ∅) = false ∧
  truthy (default JsUndefined (config (SpecModel.new_field ∅) !! "onBlur"))
    = false ∧
  blurred (snd (_onBlur Examples.anchor_is_command Examples.deferred
                  (SpecModel.new_field ∅))) = true.
Proof.
  assert (H1 : blurred (SpecModel.new_field ∅) = false) by reflexivity.
  assert (H2 : truthy (default JsUndefined
                         (config (SpecModel.new_field ∅) !! "onBlur")) = false)
    by (vm_compute; reflexivity).
  pose proof (onBlur_hides Examples.anchor_is_command Examples.deferred
                (SpecModel.new_field ∅) H1 H2) as (_ & Hb & _).
  split_and!; [exact H1 | exact H2 | exact Hb].
Defined.

(** A keystroke for a selector that nothing implements. *)
Lemma onKeystroke_unknown_selector_witness :
  Examples.matchKeystroke (parseMode (mathlist SpecModel.field_pi)) "Ctrl-KeyF"
    = Some (Selector "frobnicate") ∧
  truthy (command_value (Selector "frobnicate")) = true ∧
  SpecModel.mathlist_method (selector_of (Selector "frobnicate")) = None ∧
  @own_method SpecModel.Mathlist (list Tex.Atom) _ _
    (selector_of (Selector "frobnicate")) = None ∧
  fst (_onKeystroke Examples.matchKeystroke "Ctrl-KeyF"
         (Some (mkKeyEvent false false)) SpecModel.field_pi)
    = Normal (false, Some (mkKeyEvent true true)).
Proof.
  assert (H1 : Examples.matchKeystroke (parseMode (mathlist SpecModel.field_pi))
                 "Ctrl-KeyF" = Some (Selector "frobnicate")) by reflexivity.
  assert (H2 : truthy (command_value (Selector "frobnicate")) = true)
    by reflexivity.
  assert (H3 : mathlist_method (selector_of (Selector "frobnicate")) = None)
    by reflexivity.
  assert (H4 : @own_method SpecModel.Mathlist (list Tex.Atom) _ _
                 (selector_of (Selector "frobnicate")) = None) by reflexivity.
  pose proof (onKeystroke_unknown_selector Examples.matchKeystroke "Ctrl-KeyF"
                (mkKeyEvent false false) (Selector "frobnicate")
                SpecModel.field_pi H1 H2 H3 H4) as (Hr & _).
  split_and!; [exact H1 | exact H2 | exact H3 | exact H4 | exact Hr].
Defined.

(** The selected [A] is cleared. *)
Lemma clearSelection_no_snapshot_witness :
  SpecModel.mathlist_method "delete_" = Some Examples.delete_method ∧
  mathlist (snd (clearSelection SpecModel.field_A_selected))
    = mathlist (snd (perform (Selector "delete") SpecModel.field_A_selected)) ∧
  undoManager (snd (clearSelection SpecModel.field_A_selected))
    = undoManager SpecModel.field_A_selected.
Proof.
  assert (H1 : SpecModel.mathlist_method "delete_" = Some Examples.delete_method)
    by reflexivity.
  pose proof (clearSelection_no_snapshot Examples.delete_method
                SpecModel.field_A_selected H1) as (Hm & Hum & _).
  split_and!; [exact H1 | exact Hm | exact Hum].
Defined.

(** [complete] in command mode. *)
Lemma perform_complete_witness :
  SpecModel.mathlist_method "complete_" = None ∧
  fst (perform (Selector "complete") SpecModel.field_command) = Normal true ∧
  popover_visible (dom (snd (perform (Selector "complete")
                               SpecModel.field_command))) = false.
Proof.
  assert (H1 : SpecModel.mathlist_method "complete_" = None) by reflexivity.
  pose proof (perform_complete SpecModel.field_command H1) as (Hr & _ & Hp & _).
  split_and!; [exact H1 | exact Hr | exact Hp].
Defined.

(** ** The command bar *)

(** After [x12], the argument of the superscript is [12]. *)
Lemma previous_digits_or_last_witness :
  Commands.heap_wf Examples.heap_x12 ∧
  Commands.arrays Examples.heap_x12 !! 1%positive
    = Some [1%positive; 2%positive; 3%positive] ∧
  Forall (λ a, is_Some (Commands.atoms Examples.heap_x12 !! a))
    [1%positive; 2%positive; 3%positive] ∧
  fst (Commands.previousSingleCharOrDigits Examples.context_x12
         Examples.heap_x12) = Normal (Some 2%positive) ∧
  Commands.arrays
    (snd (Commands.previousSingleCharOrDigits Examples.context_x12
            Examples.heap_x12)) !! 2%positive
    = Some [2%positive; 3%positive].
Proof.
  assert (H1 : Commands.heap_wf Examples.heap_x12).
  { intros r [l Hl]. cbn in Hl. apply lookup_singleton_Some in Hl as [<- _].
    reflexivity. }
  assert (H2 : Commands.arrays Examples.heap_x12 !! 1%positive
               = Some [1%positive; 2%positive; 3%positive]) by reflexivity.
  assert (H3 : Forall (λ a, is_Some (Commands.atoms Examples.heap_x12 !! a))
                 [1%positive; 2%positive; 3%positive]).
  { repeat constructor; by eexists. }
  pose proof (CommandsMoreFacts.previous_digits_or_last Examples.context_x12
                1%positive 1%positive [2%positive; 3%positive]
                Examples.heap_x12 H1 I eq_refl H2 H3) as (Hr & _).
  split_and!; [exact H1 | exact H2 | exact H3 | exact Hr |].
  vm_compute. reflexivity.
Defined.

(** The suggestions at the selection [A+] are in order. *)
Lemma suggest_sorted_witness :
  fst (Commands.suggest Commands.no_shortcut Commands.stringify_keys
         Commands.value_toLatex Commands.template_markup
         "math" "" "" None None (Some 1%positive) None Commands.heap_A_plus)
    = Normal Examples.suggestions_A_plus ∧
  StronglySorted utility_order Examples.suggestions_A_plus.
Proof.
  assert (H1 : fst (Commands.suggest Commands.no_shortcut Commands.stringify_keys
                 Commands.value_toLatex Commands.template_markup
                 "math" "" "" None None (Some 1%positive) None
                 Commands.heap_A_plus) = Normal Examples.suggestions_A_plus)
    by (vm_compute; reflexivity).
  split; [exact H1|].
  exact (CommandsMoreFacts.suggest_sorted _ _ _ _ _ _ _ _ _ _ _ _ _ H1).
Defined.

(** At the selection [A+], the selection can be copied, and neither
    [complete] nor [enterCommandMode] is offered. *)
Lemma suggest_offers_witness :
  Commands.heap_wf Commands.heap_A_plus ∧
  Commands.context_allocated Commands.heap_A_plus None (Some 1%positive) None ∧
  fst (Commands.suggest Commands.no_shortcut Commands.stringify_keys
         Commands.value_toLatex Commands.template_markup
         "math" "" "" None None (Some 1%positive) None Commands.heap_A_plus)
    = Normal Examples.suggestions_A_plus ∧
  In (SelectorWithArgs "copyToClipboard" [])
    (map Commands.s_selector Examples.suggestions_A_plus) ∧
  ¬ In (Selector "complete")
      (map Commands.s_selector Examples.suggestions_A_plus).
Proof.
  assert (H1 : Commands.heap_wf Commands.heap_A_plus).
  { intros r [l Hl]. cbn in Hl. apply lookup_singleton_Some in Hl as [<- _].
    reflexivity. }
  assert (H2 : Commands.context_allocated Commands.heap_A_plus
                 None (Some 1%positive) None).
  { intros r [Hr|[Hr|Hr]]; [discriminate | | discriminate].
    injection Hr as <-. by eexists. }
  assert (H3 : fst (Commands.suggest Commands.no_shortcut Commands.stringify_keys
                 Commands.value_toLatex Commands.template_markup
                 "math" "" "" None None (Some 1%positive) None
                 Commands.heap_A_plus) = Normal Examples.suggestions_A_plus)
    by (vm_compute; reflexivity).
  pose proof (CommandsMoreFacts.suggest_offers _ _ _ _ _ _ _ _ _ _ _ _ _
                H1 H2 H3) as (_ & _ & _ & Hc & _ & _ & Hcopy).
  split_and!; [exact H1 | exact H2 | exact H3 | |].
  - apply Hcopy. discriminate.
  - intros Hin. apply Hc in Hin. discriminate Hin.
Defined.

(** With nothing before the insertion point, [suggest] throws. *)
Lemma suggest_empty_before_witness :
  Commands.arrays Examples.heap_nothing_before !! 1%positive = Some [] ∧
  parent_is_root Examples.heap_nothing_before None = true ∧
  Commands.suggest Commands.no_shortcut Commands.stringify_keys
    Commands.value_toLatex Commands.template_markup
    "math" "" "" None (Some 1%positive) None None Examples.heap_nothing_before
  = (Throw "TypeError", Examples.heap_nothing_before).
Proof.
  assert (H1 : Commands.arrays Examples.heap_nothing_before !! 1%positive
               = Some []) by reflexivity.
  assert (H2 : parent_is_root Examples.heap_nothing_before None = true)
    by reflexivity.
  split_and!; [exact H1 | exact H2 |].
  exact (CommandsMoreFacts.suggest_empty_before _ _ _ _ "math" "" "" None
           1%positive None Examples.heap_nothing_before H1 H2).
Defined.

(** ** The elements *)

(** The point above the second atom of two: the second atom is the
    nearest. *)
Lemma nearest_is_nearest_witness :
  (∀ a b, Pointer.ext_leb a b = true ∨ Pointer.ext_leb b a = true) ∧
  (∀ a b c, Pointer.ext_leb a b = true → Pointer.ext_leb b c = true →
            Pointer.ext_leb a c = true) ∧
  (∀ a, Pointer.ext_leb a Pointer.Inf = true) ∧
  ∃ e, Pointer.element _
         (Pointer.nearestElementFromPoint Pointer.ExtZ
            (Pointer.ext2 Z.sub) (Pointer.ext2 Z.mul) (Pointer.ext2 Z.add)
            Pointer.ext_max3 Pointer.ext_leb (Pointer.Fin 0) Pointer.Inf
            Pointer.two_atoms (Pointer.Fin 15) (Pointer.Fin (-5))) = Some e ∧
       Pointer.data_atom_id _ e = Some "2" ∧
       Pointer.has_atom_id _ e = true.
Proof.
  assert (H1 : ∀ a b, Pointer.ext_leb a b = true ∨ Pointer.ext_leb b a = true).
  { intros [a|] [b|]; cbn; auto. destruct (Z.leb_spec a b); [by left|].
    right. apply Z.leb_le. lia. }
  assert (H2 : ∀ a b c, Pointer.ext_leb a b = true → Pointer.ext_leb b c = true →
                        Pointer.ext_leb a c = true).
  { intros [a|] [b|] [c|]; cbn; try done. rewrite !Z.leb_le. lia. }
  assert (H3 : ∀ a, Pointer.ext_leb a Pointer.Inf = true) by (by intros [a|]).
  split_and!; [exact H1 | exact H2 | exact H3 |].
  pose proof (PointerFacts.nearest_is_nearest Pointer.ExtZ
                (Pointer.ext2 Z.sub) (Pointer.ext2 Z.mul) (Pointer.ext2 Z.add)
                Pointer.ext_max3 Pointer.ext_leb (Pointer.Fin 0) Pointer.Inf
                H1 H2 H3 Pointer.two_atoms (Pointer.Fin 15) (Pointer.Fin (-5)))
    as Hn.
  cbv zeta in Hn.
  destruct (Pointer.element _ _) as [e|] eqn:He in Hn.
  - exists e. destruct Hn as (_ & Hid & _).
    split_and!; [exact He | | exact Hid].
    vm_compute in He. injection He as <-. reflexivity.
  - vm_compute in He. discriminate He.
Defined.

End ExamplesFacts.

